(** * The workflow DAG executor of momiom/workflow, embedded in Rocq

    Packages [node] (the [Node] interface, [TextNode], [LLMNode]) and [dag]
    (the graph store and [Execute]).  Go maps are [gmap]s, slices are lists
    (the nil slice is [[]]), a Go [string] is a [string], and a value of the
    interface [error] is an element of the type [error] below.

    [Execute] is concurrent: it is embedded as a transition system whose
    state holds the variables shared by the goroutines and one program
    counter per goroutine, and whose steps are the regions of the source
    delimited by its synchronisation operations. *)

From stdpp Require Import gmap strings list fin_maps sets pretty.

Open Scope Z_scope.

(** ** Go values shared by both packages *)

(** A Go [error].  [Errorf] is the value built by [fmt.Errorf] with the
    formatted message; [Unorderable] is the error of gonum's [topo.Sort] on a
    graph with a cycle (the cyclic components it lists are left out). *)
Inductive error : Type :=
  | Errorf (msg : string)
  | Unorderable.

#[global] Instance error_eq_dec : EqDecision error.
Proof. solve_decision. Defined.

(** The pair [(string, error)] returned by a processor or an LLM client: the
    string counts only when the error is nil. *)
Inductive result : Type :=
  | Ok (s : string)
  | Err (e : error).

(** What a call does: it returns, or the goroutine panics. *)
Inductive outcome (A : Type) : Type :=
  | Returns (a : A)
  | Panics (msg : string).
Arguments Returns {A} a.
Arguments Panics {A} msg.

(** ** Package node *)

Module node.

(** [TextNode] and [LLMNode]: both carry a name, the stored inputs and
    outputs, and the function they wrap ([processor], respectively the
    client's [GenerateResponse]). *)
Inductive Node : Type :=
  | TextNode (name : string) (inputs outputs : list string)
             (processor : list string → result)
  | LLMNode (name : string) (inputs outputs : list string)
            (GenerateResponse : string → result).

Definition NewTextNode (name : string) (processor : list string → result) : Node :=
  TextNode name [] [] processor.

Definition NewLLMNode (name : string) (client : string → result) : Node :=
  LLMNode name [] [] client.

Definition Name (n : Node) : string :=
  match n with
  | TextNode name _ _ _ | LLMNode name _ _ _ => name
  end.

Definition inputs (n : Node) : list string :=
  match n with
  | TextNode _ ins _ _ | LLMNode _ ins _ _ => ins
  end.

Definition SetInputs (ins : list string) (n : Node) : Node :=
  match n with
  | TextNode name _ outs f => TextNode name ins outs f
  | LLMNode name _ outs c => LLMNode name ins outs c
  end.

Definition GetOutputs (n : Node) : list string :=
  match n with
  | TextNode _ _ outs _ | LLMNode _ _ outs _ => outs
  end.

(** [Execute] of [TextNode] *)
Definition TextNode_Execute (name : string) (ins outs : list string)
    (processor : list string → result) : Node * option error :=
  match processor ins with
  | Err e => (TextNode name ins outs processor, Some e)
  | Ok output => (TextNode name ins [output] processor, None)
  end.

(** [Execute] of [LLMNode].  The first test is [len(n.inputs) != 1], so that
    [n.inputs[0]] is read only from a one-element slice; the second,
    [len(n.inputs[0]) == 0], is the test for the empty string. *)
Definition LLMNode_Execute (name : string) (ins outs : list string)
    (client : string → result) : Node * option error :=
  let n := LLMNode name ins outs client in
  match ins with
  | [prompt] =>
      if decide (String.length prompt = 0%nat) then
        (n, Some (Errorf "input must not be empty"))
      else
        match client prompt with
        | Err e => (n, Some e)
        | Ok response => (LLMNode name ins [response] client, None)
        end
  | _ => (n, Some (Errorf ("input must be exactly 1, got " +:+ pretty (length ins))))
  end.

(** [Node.Execute], dispatched on the dynamic type. *)
Definition Execute (n : Node) : Node * option error :=
  match n with
  | TextNode name ins outs f => TextNode_Execute name ins outs f
  | LLMNode name ins outs c => LLMNode_Execute name ins outs c
  end.

End node.

(** ** The graph library

    [dag] keeps its edges in gonum's [simple.DirectedGraph] and asks gonum's
    [topo.Sort] for an order.  Both are third-party code; the operations the
    package calls are embedded here after the library: node identifiers are
    [int64]s handed out in increasing order from 0, a simple graph holds at
    most one edge per ordered pair, and [SetEdge] panics on a self edge. *)

Module simple.

Record DirectedGraph : Type := {
  g_nodes : gset Z;
  g_edges : gset (Z * Z)
}.

Definition NewDirectedGraph : DirectedGraph :=
  {| g_nodes := ∅; g_edges := ∅ |}.

(** [NewNode]: an identifier not yet in the graph, one above the largest
    identifier in use (0 for the empty graph).  Nodes are never removed by
    [dag], so no identifier is ever recycled. *)
Definition NewNode (g : DirectedGraph) : Z :=
  set_fold Z.max (-1) (g_nodes g) + 1.

(** [AddNode]: panics when the identifier is taken. *)
Definition AddNode (n : Z) (g : DirectedGraph) : DirectedGraph * outcome unit :=
  if decide (n ∈ g_nodes g) then (g, Panics "simple: node ID collision")
  else ({| g_nodes := {[n]} ∪ g_nodes g; g_edges := g_edges g |}, Returns ()).

(** [SetEdge(NewEdge(from, to))]: panics when both ends are the same node,
    adds the ends when they are missing, and sets the edge (setting an edge
    that is already there leaves the graph as it is). *)
Definition SetEdge (from to : Z) (g : DirectedGraph) : DirectedGraph * outcome unit :=
  if decide (from = to) then (g, Panics "simple: adding self edge")
  else ({| g_nodes := {[from; to]} ∪ g_nodes g;
           g_edges := {[(from, to)]} ∪ g_edges g |}, Returns ()).

(** [From(id)] and [To(id)]: the successors and the predecessors of a node.
    The library iterates over a Go map, so their order is not fixed. *)
Definition From (g : DirectedGraph) (u : Z) : gset Z :=
  set_map snd (filter (λ e : Z * Z, e.1 = u) (g_edges g)).

Definition To (g : DirectedGraph) (v : Z) : gset Z :=
  set_map fst (filter (λ e : Z * Z, e.2 = v) (g_edges g)).

(** An order in which a map iteration may deliver the elements of a set. *)
Definition enumerates (l : list Z) (X : gset Z) : Prop :=
  l ∈ permutations (elements X).

#[global] Instance enumerates_dec l X : Decision (enumerates l X).
Proof. unfold enumerates. apply _. Defined.

End simple.

Module topo.

(** The position of the first occurrence of [u] in [l]. *)
Definition position (u : Z) (l : list Z) : option nat :=
  fst <$> list_find (λ x, x = u) l.

(** The edge [e] goes forward in [l]: both ends occur, the source first. *)
Definition before (l : list Z) (e : Z * Z) : Prop :=
  match position e.1 l, position e.2 l with
  | Some i, Some j => (i < j)%nat
  | _, _ => False
  end.

#[global] Instance before_dec l e : Decision (before l e).
Proof. unfold before. destruct (position e.1 l), (position e.2 l); apply _. Defined.

(** Every edge of the graph goes forward in [l]. *)
Definition forward (g : simple.DirectedGraph) (l : list Z) : Prop :=
  set_Forall (before l) (simple.g_edges g).

#[global] Instance forward_dec g l : Decision (forward g l).
Proof. unfold forward. apply _. Defined.

(** The topological orders of the graph: the arrangements of all its nodes
    in which every edge goes forward. *)
Definition orders (g : simple.DirectedGraph) : list (list Z) :=
  filter (forward g) (permutations (elements (simple.g_nodes g))).

(** [topo.Sort]: an [Unorderable] error when the graph has no topological
    order, that is when it has a cycle, and otherwise one of its topological
    orders (which one depends on a map iteration). *)
Definition Sort_fails (g : simple.DirectedGraph) : bool :=
  bool_decide (orders g = []).

Definition Sort_returns (g : simple.DirectedGraph) (sorted : list Z) : Prop :=
  sorted ∈ orders g.

#[global] Instance Sort_returns_dec g l : Decision (Sort_returns g l).
Proof. unfold Sort_returns. apply _. Defined.

End topo.

(** ** Package dag: the graph store *)

Module dag.

Abbreviation NodeID := string (only parsing).

(** A [node.Node] held by the graph is a pointer: the address of a node
    object in the heap.  Two identifiers may be bound to the same object. *)
Abbreviation loc := nat (only parsing).

Inductive NodeStatus : Type := Pending | Running | Completed | Error.

#[global] Instance NodeStatus_eq_dec : EqDecision NodeStatus.
Proof. solve_decision. Defined.

Record NodeState : Type := { ns_ID : NodeID; ns_Status : NodeStatus }.

Record NodeIO : Type := {
  io_ID : NodeID;
  io_Inputs : list string;
  io_Outputs : list string
}.

(** An unbuffered channel with its consumer: the values handed over so far,
    oldest first, and whether the channel has been closed.  A send is taken
    to find its receiver ready (consumers subscribe before [Execute]). *)
Record chan (A : Type) : Type := { received : list A; closed : bool }.
Arguments received {A} c.
Arguments closed {A} c.

Definition send {A} (x : A) (c : chan A) : outcome (chan A) :=
  if closed c then Panics "send on closed channel"
  else Returns {| received := received c ++ [x]; closed := false |}.

Definition close {A} (c : chan A) : outcome (chan A) :=
  if closed c then Panics "close of closed channel"
  else Returns {| received := received c; closed := true |}.

(** The struct [DAG].  [statusMu] guards the body of [updateNodeStatus]
    only, which is one step here, so it needs no field.  The counters of
    [inDegree] are Go [int]s; they count calls and stay far from the
    bounds of the type, so they are integers here. *)
Record DAG : Type := {
  graph : simple.DirectedGraph;
  nodes : gmap NodeID Z;
  nodeMap : gmap NodeID loc;
  inDegree : gmap NodeID Z;
  nodeStatus : gmap NodeID NodeStatus;
  statusChan : chan NodeState;
  ioChan : chan NodeIO;
  maxConcurrent : Z
}.

Definition with_graph (g : simple.DirectedGraph) (d : DAG) : DAG :=
  {| graph := g; nodes := nodes d; nodeMap := nodeMap d; inDegree := inDegree d;
     nodeStatus := nodeStatus d; statusChan := statusChan d; ioChan := ioChan d;
     maxConcurrent := maxConcurrent d |}.

Definition with_inDegree (m : gmap NodeID Z) (d : DAG) : DAG :=
  {| graph := graph d; nodes := nodes d; nodeMap := nodeMap d; inDegree := m;
     nodeStatus := nodeStatus d; statusChan := statusChan d; ioChan := ioChan d;
     maxConcurrent := maxConcurrent d |}.

Definition with_status (m : gmap NodeID NodeStatus) (c : chan NodeState) (d : DAG) : DAG :=
  {| graph := graph d; nodes := nodes d; nodeMap := nodeMap d; inDegree := inDegree d;
     nodeStatus := m; statusChan := c; ioChan := ioChan d;
     maxConcurrent := maxConcurrent d |}.

Definition with_ioChan (c : chan NodeIO) (d : DAG) : DAG :=
  {| graph := graph d; nodes := nodes d; nodeMap := nodeMap d; inDegree := inDegree d;
     nodeStatus := nodeStatus d; statusChan := statusChan d; ioChan := c;
     maxConcurrent := maxConcurrent d |}.

Definition NewDAG (maxConcurrent : Z) : DAG :=
  {| graph := simple.NewDirectedGraph; nodes := ∅; nodeMap := ∅; inDegree := ∅;
     nodeStatus := ∅; statusChan := {| received := []; closed := false |};
     ioChan := {| received := []; closed := false |};
     maxConcurrent := maxConcurrent |}.

(** [AddNode]: a new graph node for every call, also for an identifier that
    is registered already. *)
Definition AddNode (id : NodeID) (n : loc) (d : DAG) : DAG * outcome unit :=
  let node := simple.NewNode (graph d) in
  match simple.AddNode node (graph d) with
  | (g, Panics msg) => (with_graph g d, Panics msg)
  | (g, Returns _) =>
      ({| graph := g;
          nodes := <[id := node]> (nodes d);
          nodeMap := <[id := n]> (nodeMap d);
          inDegree := <[id := 0]> (inDegree d);
          nodeStatus := <[id := Pending]> (nodeStatus d);
          statusChan := statusChan d; ioChan := ioChan d;
          maxConcurrent := maxConcurrent d |}, Returns ())
  end.

Definition GetStatusChan (d : DAG) : chan NodeState := statusChan d.
Definition GetIOChan (d : DAG) : chan NodeIO := ioChan d.

(** Reading a counter: a key that is absent reads as 0. *)
Definition inDegree_of (d : DAG) (id : NodeID) : Z := default 0 (inDegree d !! id).

(** [AddEdge] *)
Definition AddEdge (from to : NodeID) (d : DAG) : DAG * outcome (option error) :=
  match nodes d !! from with
  | None => (d, Returns (Some (Errorf ("node " +:+ from +:+ " does not exist"))))
  | Some fromNode =>
      match nodes d !! to with
      | None => (d, Returns (Some (Errorf ("node " +:+ to +:+ " does not exist"))))
      | Some toNode =>
          match simple.SetEdge fromNode toNode (graph d) with
          | (g, Panics msg) => (with_graph g d, Panics msg)
          | (g, Returns _) =>
              (with_inDegree (<[to := inDegree_of d to + 1]> (inDegree d))
                 (with_graph g d), Returns None)
          end
      end
  end.

(** The loop [for id, n := range dag.nodes { if n.ID() == x.ID() { ...; break } }]:
    the first identifier bound to the graph node [x] that the iteration meets,
    if there is one.  The map binds distinct identifiers to distinct graph
    nodes (see [nodes_inj] below), so the order of the iteration has no
    influence. *)
Definition lookupID (d : DAG) (x : Z) : option NodeID :=
  (λ kv, kv.1) <$> head (filter (λ kv : NodeID * Z, kv.2 = x) (map_to_list (nodes d))).

(** [GetLeafNodes]; the order of the result follows two map iterations. *)
Definition GetLeafNodes (d : DAG) : list NodeID :=
  omap (lookupID d)
    (filter (λ x, size (simple.From (graph d) x) = 0%nat)
       (elements (simple.g_nodes (graph d)))).

(** [updateNodeStatus] *)
Definition updateNodeStatus (id : NodeID) (status : NodeStatus) (d : DAG) : outcome DAG :=
  match send {| ns_ID := id; ns_Status := status |} (statusChan d) with
  | Panics msg => Panics msg
  | Returns c => Returns (with_status (<[id := status]> (nodeStatus d)) c d)
  end.

(** [notifyNodeIO] *)
Definition notifyNodeIO (id : NodeID) (ins outs : list string) (d : DAG) : outcome DAG :=
  match send {| io_ID := id; io_Inputs := ins; io_Outputs := outs |} (ioChan d) with
  | Panics msg => Panics msg
  | Returns c => Returns (with_ioChan c d)
  end.

(** ** Package dag: [Execute] as a transition system

    The goroutines move one at a time, in any order.  A step is a stretch of
    the source that ends at the next operation on a mutex, a channel or the
    wait group: what a task does under [mu] or [statusMu] is one step, except
    the successor loop, whose passes are steps of their own taken while [mu]
    is held.  The loop over [sorted] at the end of [Execute] takes no lock:
    each of its passes is a step, and the tasks it has started can move
    between two passes.  A processor or a client is a function: it returns
    and has no state of its own. *)

(** The triple returned by [Execute]; [None] is Go's [nil]. *)
Record ExecReturn : Type := {
  ret_outputs : option (gmap NodeID (list string));
  ret_finalOutputs : option (gmap NodeID (list string));
  ret_err : option error
}.

(** Where the goroutine that runs [Execute] stands. *)
Inductive main_pc : Type :=
  | MStart                       (* before [topo.Sort] *)
  | MSeeding (rest : list Z)     (* in the loop over [sorted], [rest] to go *)
  | MWaiting                     (* at [wg.Wait()] *)
  | MReturned (r : ExecReturn).

(** Where a goroutine that runs [execNode(ctx, id)] stands. *)
Inductive task_pc : Type :=
  | PSpawned                      (* before [sem <- struct{}{}] *)
  | PAcquired                     (* before [updateNodeStatus(id, Running)] *)
  | PRunning                      (* before the inputs are collected *)
  | PFailed (e : error)           (* [n.Execute()] failed; before [execErr = err] *)
  | PErrRecorded                  (* before [updateNodeStatus(id, Error)] *)
  | PExecuted (nodeInputs nodeOutputs : list string)
                                  (* before [outputs[id] = nodeOutputs] *)
  | PCommitted (nodeInputs nodeOutputs : list string)
                                  (* before [updateNodeStatus(id, Completed)] *)
  | PCompleted (nodeInputs nodeOutputs : list string)
                                  (* before [notifyNodeIO] *)
  | PNotified                     (* before [mu.Lock()] of the successor loop *)
  | PReleasing (todo : list Z)    (* in the successor loop, holding [mu] *)
  | PExiting                      (* before the deferred [<-sem] and [wg.Done()] *)
  | PDone.

#[global] Instance task_pc_eq_dec : EqDecision task_pc.
Proof. solve_decision. Defined.

(** The state of one call of [Execute]: the [DAG] and the node objects it
    points to, the locals of [Execute] that its closures share, one program
    counter per goroutine.  [sem] is the number of tokens in the channel
    [sem]; the counter of [wg] is the number of tasks that are not [PDone].
    [errLog] is not a variable of the program: it lists the values assigned
    to [execErr], in the order of the assignments. *)
Record state : Type := {
  st_dag : DAG;
  heap : gmap loc node.Node;
  inputs : gmap NodeID (list string);
  outputs : gmap NodeID (list string);
  execErr : option error;
  mu : bool;
  sem : nat;
  tasks : list (NodeID * task_pc);
  main : main_pc;
  panicked : option string;
  errLog : list error
}.

Definition with_dag (d : DAG) (s : state) : state :=
  {| st_dag := d; heap := heap s; inputs := inputs s; outputs := outputs s;
     execErr := execErr s; mu := mu s; sem := sem s; tasks := tasks s;
     main := main s; panicked := panicked s; errLog := errLog s |}.

Definition with_heap (h : gmap loc node.Node) (s : state) : state :=
  {| st_dag := st_dag s; heap := h; inputs := inputs s; outputs := outputs s;
     execErr := execErr s; mu := mu s; sem := sem s; tasks := tasks s;
     main := main s; panicked := panicked s; errLog := errLog s |}.

Definition with_outputs (o : gmap NodeID (list string)) (s : state) : state :=
  {| st_dag := st_dag s; heap := heap s; inputs := inputs s; outputs := o;
     execErr := execErr s; mu := mu s; sem := sem s; tasks := tasks s;
     main := main s; panicked := panicked s; errLog := errLog s |}.

Definition with_execErr (e : error) (s : state) : state :=
  {| st_dag := st_dag s; heap := heap s; inputs := inputs s; outputs := outputs s;
     execErr := Some e; mu := mu s; sem := sem s; tasks := tasks s;
     main := main s; panicked := panicked s; errLog := errLog s ++ [e] |}.

Definition with_mu (b : bool) (s : state) : state :=
  {| st_dag := st_dag s; heap := heap s; inputs := inputs s; outputs := outputs s;
     execErr := execErr s; mu := b; sem := sem s; tasks := tasks s;
     main := main s; panicked := panicked s; errLog := errLog s |}.

Definition with_sem (k : nat) (s : state) : state :=
  {| st_dag := st_dag s; heap := heap s; inputs := inputs s; outputs := outputs s;
     execErr := execErr s; mu := mu s; sem := k; tasks := tasks s;
     main := main s; panicked := panicked s; errLog := errLog s |}.

Definition with_tasks (ts : list (NodeID * task_pc)) (s : state) : state :=
  {| st_dag := st_dag s; heap := heap s; inputs := inputs s; outputs := outputs s;
     execErr := execErr s; mu := mu s; sem := sem s; tasks := ts;
     main := main s; panicked := panicked s; errLog := errLog s |}.

Definition with_main (m : main_pc) (s : state) : state :=
  {| st_dag := st_dag s; heap := heap s; inputs := inputs s; outputs := outputs s;
     execErr := execErr s; mu := mu s; sem := sem s; tasks := tasks s;
     main := m; panicked := panicked s; errLog := errLog s |}.

Definition panic (msg : string) (s : state) : state :=
  {| st_dag := st_dag s; heap := heap s; inputs := inputs s; outputs := outputs s;
     execErr := execErr s; mu := mu s; sem := sem s; tasks := tasks s;
     main := main s; panicked := Some msg; errLog := errLog s |}.

(** The state in which [Execute(ctx, inputs)] is entered. *)
Definition exec_init (d : DAG) (h : gmap loc node.Node)
    (ins : gmap NodeID (list string)) : state :=
  {| st_dag := d; heap := h; inputs := ins; outputs := ∅; execErr := None;
     mu := false; sem := 0%nat; tasks := []; main := MStart; panicked := None;
     errLog := [] |}.

(** Task [i] moves to [pc]. *)
Definition goto (i : nat) (id : NodeID) (pc : task_pc) (s : state) : state :=
  with_tasks (<[i := (id, pc)]> (tasks s)) s.

(** [wg.Add(1); go execNode(ctx, id)] *)
Definition spawn (id : NodeID) (s : state) : state :=
  with_tasks (tasks s ++ [(id, PSpawned)]) s.

(** The slice [nodeInputs] built by [execNode]: the caller's inputs for [id],
    then the outputs recorded for the predecessors, taken in the order
    [preds] in which the graph delivers them. *)
Definition collect_inputs (s : state) (id : NodeID) (preds : list Z) : list string :=
  default [] (inputs s !! id) ++
  concat (map (λ fromNode,
                 match lookupID (st_dag s) fromNode with
                 | Some fromID => default [] (outputs s !! fromID)
                 | None => []
                 end) preds).

(** One pass of the loop over [sorted] in [Execute]: every identifier bound
    to the graph node [x] whose counter reads 0 gets a task. *)
Definition ready_ids (d : DAG) (x : Z) : list NodeID :=
  (filter (λ kv : NodeID * Z, kv.2 = x ∧ inDegree_of d kv.1 = 0)
     (map_to_list (nodes d))).*1.

(** The loop [for _, id := range dag.GetLeafNodes() { finalOutputs[id] = outputs[id] }];
    an identifier without an entry in [outputs] reads as the nil slice. *)
Definition collect_final (outs : gmap NodeID (list string)) (leaves : list NodeID)
    : gmap NodeID (list string) :=
  foldl (λ m id, <[id := default [] (outs !! id)]> m) ∅ leaves.

(** A step of the goroutine that runs [Execute].  [sorted] is the order that
    [topo.Sort] returns; it matters at [MStart] only. *)
Definition main_step (sorted : list Z) (s : state) : option state :=
  let d := st_dag s in
  match main s with
  | MStart =>
      (* sorted, err := topo.Sort(dag.graph); if err != nil { return nil, nil, err } *)
      if topo.Sort_fails (graph d) then
        Some (with_main (MReturned {| ret_outputs := None; ret_finalOutputs := None;
                                      ret_err := Some Unorderable |}) s)
      else if decide (topo.Sort_returns (graph d) sorted) then
        (* sem := make(chan struct{}, dag.maxConcurrent) *)
        if decide (maxConcurrent d < 0) then Some (panic "makechan: size out of range" s)
        else Some (with_main (MSeeding sorted) s)
      else None
  | MSeeding [] => Some (with_main MWaiting s)
  | MSeeding (x :: rest) =>
      (* for id, node := range dag.nodes {
           if node.ID() == n.ID() && dag.inDegree[id] == 0 { wg.Add(1); go execNode(ctx, id) } } *)
      Some (with_main (MSeeding rest)
              (with_tasks (tasks s ++ map (λ id, (id, PSpawned)) (ready_ids d x)) s))
  | MWaiting =>
      (* wg.Wait() returns once every task has called wg.Done() *)
      if decide (Forall (λ t : NodeID * task_pc, t.2 = PDone) (tasks s)) then
        (* close(dag.statusChan); close(dag.ioChan) *)
        match close (statusChan d) with
        | Panics msg => Some (panic msg s)
        | Returns sc =>
            match close (ioChan d) with
            | Panics msg => Some (panic msg (with_dag (with_status (nodeStatus d) sc d) s))
            | Returns ic =>
                let s' := with_dag (with_ioChan ic (with_status (nodeStatus d) sc d)) s in
                match execErr s with
                | Some e =>
                    Some (with_main (MReturned {| ret_outputs := None;
                                                  ret_finalOutputs := None;
                                                  ret_err := Some e |}) s')
                | None =>
                    Some (with_main
                            (MReturned {| ret_outputs := Some (outputs s);
                                          ret_finalOutputs :=
                                            Some (collect_final (outputs s) (GetLeafNodes d));
                                          ret_err := None |}) s')
                end
            end
        end
      else None
  | MReturned _ => None
  end.

(** A step of task [i].  [order] is the order in which the graph delivers
    the predecessors (at [PRunning]) or the successors (at [PNotified]) of
    the task's node; it matters there only.  The calls on the node object,
    [SetInputs], [Execute] and [GetOutputs], touch that object alone and are
    taken together with the collection of the inputs. *)
Definition task_step (i : nat) (order : list Z) (s : state) : option state :=
  let d := st_dag s in
  match tasks s !! i with
  | None => None
  | Some (id, pc) =>
      match pc with
      | PSpawned =>
          (* sem <- struct{}{} : waits while the channel is full *)
          if decide (Z.of_nat (sem s) < maxConcurrent d)
          then Some (goto i id PAcquired (with_sem (S (sem s)) s))
          else None
      | PAcquired =>
          match updateNodeStatus id Running d with
          | Panics msg => Some (panic msg s)
          | Returns d' => Some (goto i id PRunning (with_dag d' s))
          end
      | PRunning =>
          match nodeMap d !! id, nodes d !! id with
          | Some l, Some x =>
              match heap s !! l with
              | None => Some (panic "nil pointer dereference" s)
              | Some n =>
                  if decide (simple.enumerates order (simple.To (graph d) x)) then
                    let nodeInputs := collect_inputs s id order in
                    let '(n', err) := node.Execute (node.SetInputs nodeInputs n) in
                    let s' := with_heap (<[l := n']> (heap s)) s in
                    match err with
                    | Some e => Some (goto i id (PFailed e) s')
                    | None =>
                        Some (goto i id (PExecuted nodeInputs (node.GetOutputs n')) s')
                    end
                  else None
              end
          | _, _ => Some (panic "nil pointer dereference" s)
          end
      | PFailed e =>
          (* mu.Lock(); execErr = err; mu.Unlock() *)
          if mu s then None else Some (goto i id PErrRecorded (with_execErr e s))
      | PErrRecorded =>
          match updateNodeStatus id Error d with
          | Panics msg => Some (panic msg s)
          | Returns d' => Some (goto i id PExiting (with_dag d' s))
          end
      | PExecuted nodeInputs nodeOutputs =>
          (* mu.Lock(); outputs[id] = nodeOutputs; mu.Unlock() *)
          if mu s then None
          else Some (goto i id (PCommitted nodeInputs nodeOutputs)
                       (with_outputs (<[id := nodeOutputs]> (outputs s)) s))
      | PCommitted nodeInputs nodeOutputs =>
          match updateNodeStatus id Completed d with
          | Panics msg => Some (panic msg s)
          | Returns d' => Some (goto i id (PCompleted nodeInputs nodeOutputs) (with_dag d' s))
          end
      | PCompleted nodeInputs nodeOutputs =>
          match notifyNodeIO id nodeInputs nodeOutputs d with
          | Panics msg => Some (panic msg s)
          | Returns d' => Some (goto i id PNotified (with_dag d' s))
          end
      | PNotified =>
          (* mu.Lock(); for _, toNode := range graph.NodesOf(dag.graph.From(...)) *)
          if mu s then None
          else
            match nodes d !! id with
            | None => Some (panic "nil pointer dereference" s)
            | Some x =>
                if decide (simple.enumerates order (simple.From (graph d) x))
                then Some (goto i id (PReleasing order) (with_mu true s))
                else None
            end
      | PReleasing [] =>
          (* mu.Unlock() *)
          Some (goto i id PExiting (with_mu false s))
      | PReleasing (toNode :: rest) =>
          (* dag.inDegree[toID]--; if dag.inDegree[toID] == 0 { wg.Add(1); go execNode(ctx, toID) } *)
          match lookupID d toNode with
          | None => Some (goto i id (PReleasing rest) s)
          | Some toID =>
              let k := inDegree_of d toID - 1 in
              let s' := goto i id (PReleasing rest)
                          (with_dag (with_inDegree (<[toID := k]> (inDegree d)) d) s) in
              if decide (k = 0) then Some (spawn toID s') else Some s'
          end
      | PExiting =>
          (* <-sem; wg.Done() *)
          match sem s with
          | O => None
          | S k => Some (goto i id PDone (with_sem k s))
          end
      | PDone => None
      end
  end.

(** The scheduler's choice: which goroutine moves next. *)
Inductive action : Type :=
  | AMain (sorted : list Z)
  | ATask (i : nat) (order : list Z).

(** After a panic nothing moves. *)
Definition step (a : action) (s : state) : option state :=
  match panicked s with
  | Some _ => None
  | None =>
      match a with
      | AMain sorted => main_step sorted s
      | ATask i order => task_step i order s
      end
  end.

Fixpoint run (acts : list action) (s : state) : option state :=
  match acts with
  | [] => Some s
  | a :: acts' =>
      match step a s with
      | Some s' => run acts' s'
      | None => None
      end
  end.

(** The states that a call [Execute(ctx, ins)] on [d] can reach. *)
Definition reachable (d : DAG) (h : gmap loc node.Node)
    (ins : gmap NodeID (list string)) (s : state) : Prop :=
  ∃ acts, run acts (exec_init d h ins) = Some s.

(** The graphs that the construction API builds. *)
Inductive built : DAG → Prop :=
  | built_new mc : built (NewDAG mc)
  | built_node d id n : built d → built (AddNode id n d).1
  | built_edge d from to : built d → built (AddEdge from to d).1.
(** ** Vocabulary of the properties *)

(** A task holds a token of [sem] from its send to its deferred receive. *)
Definition holds_slot (t : NodeID * task_pc) : Prop :=
  t.2 ≠ PSpawned ∧ t.2 ≠ PDone.

#[global] Instance holds_slot_dec t : Decision (holds_slot t).
Proof. unfold holds_slot. apply _. Defined.

(** A task is between [updateNodeStatus(id, Running)] and the call that
    publishes its final status. *)
Definition in_run (t : NodeID * task_pc) : Prop :=
  match t.2 with
  | PRunning | PFailed _ | PErrRecorded | PExecuted _ _ | PCommitted _ _ => True
  | _ => False
  end.

#[global] Instance in_run_dec t : Decision (in_run t).
Proof. unfold in_run. destruct (t.2); apply _. Defined.

Definition has_runner (ts : list (NodeID * task_pc)) (id : NodeID) : Prop :=
  ∃ i t, ts !! i = Some t ∧ t.1 = id ∧ in_run t.

(** The identifiers whose status is [Running]. *)
Definition running_ids (d : DAG) : gset NodeID :=
  dom (filter (λ kv : NodeID * NodeStatus, kv.2 = Running) (nodeStatus d)).

(** The identifiers bound to a graph node without outgoing edge. *)
Definition leaf_ids (d : DAG) : gset NodeID :=
  dom (filter (λ kv : NodeID * Z, simple.From (graph d) kv.2 = ∅) (nodes d)).

(** The graph has a cycle: a node reaches itself along one edge or more. *)
Definition cyclic (g : simple.DirectedGraph) : Prop :=
  ∃ u, tc (λ a b, (a, b) ∈ simple.g_edges g) u u.

(** The statuses published for [id], oldest first. *)
Definition status_history (id : NodeID) (s : state) : list NodeStatus :=
  ns_Status <$> filter (λ e, ns_ID e = id) (received (statusChan (st_dag s))).

(** What [Execute] returns when [topo.Sort] fails. *)
Definition cycle_return : ExecReturn :=
  {| ret_outputs := None; ret_finalOutputs := None; ret_err := Some Unorderable |}.

(** What the last lines of [Execute] return from the state [s]. *)
Definition final_return (s : state) : ExecReturn :=
  match execErr s with
  | Some e => {| ret_outputs := None; ret_finalOutputs := None; ret_err := Some e |}
  | None =>
      {| ret_outputs := Some (outputs s);
         ret_finalOutputs := Some (collect_final (outputs s) (GetLeafNodes (st_dag s)));
         ret_err := None |}
  end.

(** Well-formedness of a graph store: the bindings point into the graph,
    distinct identifiers have distinct graph nodes, every status is
    [Pending], both channels are open and nothing has been published, the
    edges join nodes of the graph, and the counter of an identifier is no
    less than the number of predecessors of its graph node. *)
Record wf (d : DAG) : Prop := {
  wf_nodes : ∀ id x, nodes d !! id = Some x → x ∈ simple.g_nodes (graph d);
  nodes_inj : ∀ id1 id2 x, nodes d !! id1 = Some x → nodes d !! id2 = Some x → id1 = id2;
  wf_status : ∀ id st, nodeStatus d !! id = Some st → st = Pending;
  wf_registered : ∀ id, is_Some (nodes d !! id) → nodeStatus d !! id = Some Pending;
  wf_statusChan : closed (statusChan d) = false;
  wf_ioChan : closed (ioChan d) = false;
  wf_received : received (statusChan d) = [];
  wf_edges : ∀ u v, (u, v) ∈ simple.g_edges (graph d) →
             u ∈ simple.g_nodes (graph d) ∧ v ∈ simple.g_nodes (graph d);
  wf_inDegree : ∀ id x, nodes d !! id = Some x →
                Z.of_nat (size (simple.To (graph d) x)) ≤ inDegree_of d id
}.

(** Invariants of the executions. *)

(** The parts of the store that [Execute] only reads. *)
Record frame (d : DAG) (s : state) : Prop := {
  frame_graph : graph (st_dag s) = graph d;
  frame_nodes : nodes (st_dag s) = nodes d;
  frame_nodeMap : nodeMap (st_dag s) = nodeMap d;
  frame_maxConcurrent : maxConcurrent (st_dag s) = maxConcurrent d
}.

(** The tokens of [sem] are those of the tasks that hold one, they never
    exceed the capacity of the channel, and a status [Running] has a task
    behind it. *)
Record slots_inv (s : state) : Prop := {
  inv_sem : sem s = length (filter holds_slot (tasks s));
  inv_cap : Z.of_nat (sem s) ≤ Z.max 0 (maxConcurrent (st_dag s));
  inv_run : ∀ id, nodeStatus (st_dag s) !! id = Some Running → has_runner (tasks s) id
}.

(** [execErr] holds the last value assigned to it; no task exists before the
    sort, none is left after the return, and the value returned is the one
    of the sort's failure, or the one computed by the last lines of
    [Execute], which have closed both channels. *)
Definition ctl_inv (s : state) : Prop :=
  execErr s = last (errLog s) ∧
  match main s with
  | MStart => tasks s = [] ∧ errLog s = []
  | MSeeding _ | MWaiting => True
  | MReturned r =>
      Forall (λ t : NodeID * task_pc, t.2 = PDone) (tasks s) ∧
      ((r = cycle_return ∧ errLog s = [] ∧ tasks s = [])
       ∨ (r = final_return s ∧ closed (statusChan (st_dag s)) = true
          ∧ closed (ioChan (st_dag s)) = true))
  end.

(** Executions without the race of the loop over [sorted]. *)

(** The schedules that keep every task back until the loop over [sorted] of
    [Execute] is over. *)
Definition seeded_first (a : action) (s : state) : bool :=
  match a, main s with
  | ATask _ _, (MStart | MSeeding _) => false
  | _, _ => true
  end.

Fixpoint run_seeded (acts : list action) (s : state) : option state :=
  match acts with
  | [] => Some s
  | a :: acts' =>
      if seeded_first a s then
        match step a s with
        | Some s' => run_seeded acts' s'
        | None => None
        end
      else None
  end.

Definition reachable_seeded (d : DAG) (h : gmap loc node.Node)
    (ins : gmap NodeID (list string)) (s : state) : Prop :=
  ∃ acts, run_seeded acts (exec_init d h ins) = Some s.

(** No identifier has two tasks; an identifier with a task has a counter
    that has reached 0; and the graph nodes still to be visited by the loop
    over [sorted] are distinct and have no task yet. *)
Record single_inv (s : state) : Prop := {
  single_tasks : NoDup (tasks s).*1;
  single_zero : ∀ id, id ∈ (tasks s).*1 → inDegree_of (st_dag s) id ≤ 0;
  single_rest : ∀ rest, main s = MSeeding rest →
      NoDup rest ∧ ∀ id x, id ∈ (tasks s).*1 → nodes (st_dag s) !! id = Some x → x ∉ rest
}.

(** The statuses published for a node whose only task stands at [pc]. *)
Definition hist_of (pc : task_pc) (hist : list NodeStatus) : Prop :=
  match pc with
  | PSpawned | PAcquired => hist = []
  | PRunning | PFailed _ | PErrRecorded | PExecuted _ _ | PCommitted _ _ =>
      hist = [Running]
  | PCompleted _ _ | PNotified | PReleasing _ => hist = [Running; Completed]
  | PExiting | PDone => hist = [Running; Completed] ∨ hist = [Running; Error]
  end.

Definition hist_ok (ts : list (NodeID * task_pc)) (H : NodeID → list NodeStatus) : Prop :=
  ∀ id, (id ∉ ts.*1 → H id = []) ∧ (∀ i pc, ts !! i = Some (id, pc) → hist_of pc (H id)).

Definition hist_inv (s : state) : Prop :=
  hist_ok (tasks s) (λ id, status_history id s).

(** A task has gone past the point where it takes one off the counter of
    the successor [y] of its node: it is in the successor loop with [y]
    behind it, or it has ended after completing. *)
Definition passed (S : gmap NodeID NodeStatus) (t : NodeID * task_pc) (y : Z) : Prop :=
  match t.2 with
  | PReleasing todo => y ∉ todo
  | PExiting | PDone => S !! t.1 = Some Completed
  | _ => False
  end.

#[global] Instance passed_dec S t y : Decision (passed S t y).
Proof. unfold passed. destruct (t.2); apply _. Defined.

(** The graph node [p] has a task that has gone past [y]. *)
Definition released_in (N : gmap NodeID Z) (S : gmap NodeID NodeStatus)
    (ts : list (NodeID * task_pc)) (p y : Z) : Prop :=
  Exists (λ t, N !! t.1 = Some p ∧ passed S t y) ts.

#[global] Instance released_in_dec N S ts p y : Decision (released_in N S ts p y).
Proof. unfold released_in. apply _. Defined.

Definition released (s : state) (p y : Z) : Prop :=
  released_in (nodes (st_dag s)) (nodeStatus (st_dag s)) (tasks s) p y.

(** The predecessors of [y] that have not yet gone past it. *)
Definition unreleased (s : state) (y : Z) : gset Z :=
  filter (λ p, ¬ released s p y) (simple.To (graph (st_dag s)) y).

(** A task has written the output of its node to the table. *)
Definition committed (S : gmap NodeID NodeStatus) (t : NodeID * task_pc) : Prop :=
  match t.2 with
  | PCommitted _ _ | PCompleted _ _ | PNotified | PReleasing _ => True
  | PExiting | PDone => S !! t.1 = Some Completed
  | _ => False
  end.

(** The counter of an identifier is no less than the number of the
    predecessors of its node that have not gone past it; a task between the
    publication of [Completed] and the end of the successor loop has
    [Completed] in the table; the successor loop has distinct successors of
    the node left to visit; a task that has committed has its entry in the
    output table. *)
Record sched_inv (s : state) : Prop := {
  sched_counter : ∀ b y, nodes (st_dag s) !! b = Some y →
      Z.of_nat (size (unreleased s y)) ≤ inDegree_of (st_dag s) b;
  sched_completed : ∀ i id pc, tasks s !! i = Some (id, pc) →
      match pc with PCompleted _ _ | PNotified | PReleasing _ => True | _ => False end →
      nodeStatus (st_dag s) !! id = Some Completed;
  sched_todo : ∀ i id todo x, tasks s !! i = Some (id, PReleasing todo) →
      nodes (st_dag s) !! id = Some x →
      NoDup todo ∧ ∀ z, z ∈ todo → z ∈ simple.From (graph (st_dag s)) x;
  sched_outputs : ∀ i id pc, tasks s !! i = Some (id, pc) →
      committed (nodeStatus (st_dag s)) (id, pc) → is_Some (outputs s !! id)
}.

(** Every task belongs to a registered identifier, and the status of an
    identifier without task is the one it had on entry. *)
Record tasks_inv (d : DAG) (s : state) : Prop := {
  tasks_registered : ∀ id, id ∈ (tasks s).*1 → is_Some (nodes (st_dag s) !! id);
  tasks_status : ∀ id, id ∉ (tasks s).*1 →
      nodeStatus (st_dag s) !! id = nodeStatus d !! id
}.

(** Invariants of every execution, whatever the schedule. *)

(** The control flow of [execNode]: the moves of a task from one program
    point to the next. *)
Definition flows (pc pc' : task_pc) : Prop :=
  match pc, pc' with
  | PSpawned, PAcquired => True
  | PAcquired, PRunning => True
  | PRunning, (PFailed _ | PExecuted _ _) => True
  | PFailed _, PErrRecorded => True
  | PErrRecorded, PExiting => True
  | PExecuted i o, PCommitted i' o' => i = i' ∧ o = o'
  | PCommitted i o, PCompleted i' o' => i = i' ∧ o = o'
  | PCompleted _ _, PNotified => True
  | PNotified, PReleasing _ => True
  | PReleasing (_ :: rest), PReleasing rest' => rest = rest'
  | PReleasing [], PExiting => True
  | PExiting, PDone => True
  | _, _ => False
  end.

(** The status that the move from [pc] publishes, if it is a call of
    [updateNodeStatus]. *)
Definition publishes (pc : task_pc) : option NodeStatus :=
  match pc with
  | PAcquired => Some Running
  | PErrRecorded => Some Error
  | PCommitted _ _ => Some Completed
  | _ => None
  end.

(** A task is past [updateNodeStatus(id, Running)]. *)
Definition started (t : NodeID * task_pc) : Prop :=
  t.2 ≠ PSpawned ∧ t.2 ≠ PAcquired.

(** A task is in the successor loop. *)
Definition in_loop (t : NodeID * task_pc) : Prop :=
  match t.2 with PReleasing _ => True | _ => False end.

#[global] Instance in_loop_dec t : Decision (in_loop t).
Proof. unfold in_loop. destruct (t.2); apply _. Defined.

(** [mu] is held exactly while one task is in the successor loop. *)
Definition loop_inv (s : state) : Prop :=
  length (filter in_loop (tasks s)) = if mu s then 1%nat else 0%nat.

(** No event carries [Pending]; a task that is past its first call of
    [updateNodeStatus] has an event; the first event of a node is [Running];
    and the status table holds the last event of every node (the status on
    entry for a node without event). *)
Record status_inv (d : DAG) (s : state) : Prop := {
  st_events : ∀ e, e ∈ received (statusChan (st_dag s)) → ns_Status e ≠ Pending;
  st_started : ∀ i id pc, tasks s !! i = Some (id, pc) → started (id, pc) →
               status_history id s ≠ [];
  st_first : ∀ id st, head (status_history id s) = Some st → st = Running;
  st_table : ∀ id, nodeStatus (st_dag s) !! id =
               match last (status_history id s) with
               | Some st => Some st
               | None => nodeStatus d !! id
               end
}.

(** A step leaves the node objects, the output table, the error and the
    records of [ioChan] as they are. *)
Definition same_locals (s s' : state) : Prop :=
  heap s' = heap s ∧ outputs s' = outputs s ∧ errLog s' = errLog s
  ∧ execErr s' = execErr s
  ∧ received (ioChan (st_dag s')) = received (ioChan (st_dag s)).

(** What the move of a task of [id] from [pc] to [pc'] does to them. *)
Definition task_effect (s : state) (id : NodeID) (pc pc' : task_pc) (s' : state) : Prop :=
  match pc with
  | PRunning =>
      ∃ l n order,
        nodeMap (st_dag s) !! id = Some l ∧ heap s !! l = Some n
        ∧ heap s' = <[l := (node.Execute (node.SetInputs (collect_inputs s id order) n)).1]>
                      (heap s)
        ∧ pc' = match (node.Execute (node.SetInputs (collect_inputs s id order) n)).2 with
                | Some e => PFailed e
                | None =>
                    PExecuted (collect_inputs s id order)
                      (node.GetOutputs
                         (node.Execute (node.SetInputs (collect_inputs s id order) n)).1)
                end
        ∧ outputs s' = outputs s ∧ errLog s' = errLog s ∧ execErr s' = execErr s
        ∧ received (ioChan (st_dag s')) = received (ioChan (st_dag s))
  | PFailed e =>
      heap s' = heap s ∧ outputs s' = outputs s ∧ errLog s' = errLog s ++ [e]
      ∧ execErr s' = Some e
      ∧ received (ioChan (st_dag s')) = received (ioChan (st_dag s))
  | PExecuted ins outs =>
      heap s' = heap s ∧ outputs s' = <[id := outs]> (outputs s) ∧ errLog s' = errLog s
      ∧ execErr s' = execErr s
      ∧ received (ioChan (st_dag s')) = received (ioChan (st_dag s))
  | PCompleted ins outs =>
      heap s' = heap s ∧ outputs s' = outputs s ∧ errLog s' = errLog s
      ∧ execErr s' = execErr s
      ∧ received (ioChan (st_dag s'))
          = received (ioChan (st_dag s))
              ++ [{| io_ID := id; io_Inputs := ins; io_Outputs := outs |}]
  | _ => same_locals s s'
  end.

(** Two node objects of the same dynamic type, with the same name and the
    same wrapped function: they differ in their stored inputs and outputs
    at most. *)
Definition same_kind (n0 n : node.Node) : Prop :=
  match n0, n with
  | node.TextNode name _ _ f, node.TextNode name' _ _ f' => name = name' ∧ f = f'
  | node.LLMNode name _ _ c, node.LLMNode name' _ _ c' => name = name' ∧ c = c'
  | _, _ => False
  end.

(** [outs] is what the node object registered for [id] returns from
    [GetOutputs] after [SetInputs(ins)] and an [Execute] without error, and
    [ins] begins with the inputs that the caller gave for [id]. *)
Definition computed (d : DAG) (h : gmap loc node.Node) (ins0 : gmap NodeID (list string))
    (id : NodeID) (ins outs : list string) : Prop :=
  ∃ l n0, nodeMap d !! id = Some l ∧ h !! l = Some n0
    ∧ (node.Execute (node.SetInputs ins n0)).2 = None
    ∧ outs = node.GetOutputs (node.Execute (node.SetInputs ins n0)).1
    ∧ default [] (ins0 !! id) `prefix_of` ins.

(** [e] is the error that [Execute] of the node object registered for [id]
    returns on some inputs that begin with the caller's. *)
Definition failed (d : DAG) (h : gmap loc node.Node) (ins0 : gmap NodeID (list string))
    (id : NodeID) (e : error) : Prop :=
  ∃ l n0 ins, nodeMap d !! id = Some l ∧ h !! l = Some n0
    ∧ (node.Execute (node.SetInputs ins n0)).2 = Some e
    ∧ default [] (ins0 !! id) `prefix_of` ins.

(** The same without the inputs: [outs] is what the node object registered
    for [id] returns for some inputs, and [e] an error it returns for some
    inputs. *)
Definition produced (d : DAG) (h : gmap loc node.Node) (id : NodeID)
    (outs : list string) : Prop :=
  ∃ l n0 ins, nodeMap d !! id = Some l ∧ h !! l = Some n0
    ∧ (node.Execute (node.SetInputs ins n0)).2 = None
    ∧ outs = node.GetOutputs (node.Execute (node.SetInputs ins n0)).1.

Definition raised (d : DAG) (h : gmap loc node.Node) (id : NodeID) (e : error) : Prop :=
  ∃ l n0 ins, nodeMap d !! id = Some l ∧ h !! l = Some n0
    ∧ (node.Execute (node.SetInputs ins n0)).2 = Some e.

(** The locals [nodeInputs], [nodeOutputs] and [err] of a task are results
    of its node. *)
Definition task_data (d : DAG) (h : gmap loc node.Node) (ins0 : gmap NodeID (list string))
    (t : NodeID * task_pc) : Prop :=
  match t.2 with
  | PExecuted ins outs | PCommitted ins outs | PCompleted ins outs =>
      computed d h ins0 t.1 ins outs
  | PFailed e => failed d h ins0 t.1 e
  | _ => True
  end.

(** The caller's inputs are never written; a node object keeps its type,
    name and function, and is untouched when no identifier is bound to it;
    and whatever sits in a task's locals, in a record of [ioChan], in the
    output table or in [execErr] is a result of a registered node. *)
Record data_inv (d : DAG) (h : gmap loc node.Node) (ins0 : gmap NodeID (list string))
    (s : state) : Prop := {
  data_inputs : inputs s = ins0;
  data_heap : ∀ l, match h !! l, heap s !! l with
                   | Some n0, Some n => same_kind n0 n
                   | None, None => True
                   | _, _ => False
                   end;
  data_unbound : ∀ l, (∀ id, nodeMap d !! id ≠ Some l) → heap s !! l = h !! l;
  data_tasks : ∀ i t, tasks s !! i = Some t → task_data d h ins0 t;
  data_io : ∀ e, e ∈ received (ioChan (st_dag s)) →
      computed d h ins0 (io_ID e) (io_Inputs e) (io_Outputs e);
  data_outputs : ∀ id outs, outputs s !! id = Some outs →
      ∃ ins, computed d h ins0 id ins outs;
  data_errors : ∀ e, e ∈ errLog s → ∃ id, failed d h ins0 id e
}.

(** [Completed] is published after the output is in the table, and an
    entry of the table belongs to a node that has published [Running];
    [Error] is published after the error is recorded, and a recorded error
    is followed by the publication of [Error]. *)
Record outcome_inv (s : state) : Prop := {
  oc_committed : ∀ i id ins outs, tasks s !! i = Some (id, PCommitted ins outs) →
                 is_Some (outputs s !! id);
  oc_completed : ∀ id, Completed ∈ status_history id s → is_Some (outputs s !! id);
  oc_started : ∀ id, is_Some (outputs s !! id) → status_history id s ≠ [];
  oc_recorded : ∀ i id, tasks s !! i = Some (id, PErrRecorded) → errLog s ≠ [];
  oc_error : ∀ id, Error ∈ status_history id s → errLog s ≠ [];
  oc_pending : errLog s ≠ [] →
               (∃ i id, tasks s !! i = Some (id, PErrRecorded))
               ∨ ∃ id, Error ∈ status_history id s
}.

(** A record of [ioChan] follows the publication of [Completed]. *)
Record pub_inv (s : state) : Prop := {
  pub_task : ∀ i id ins outs, tasks s !! i = Some (id, PCompleted ins outs) →
             Completed ∈ status_history id s;
  pub_io : ∀ e, e ∈ received (ioChan (st_dag s)) → Completed ∈ status_history (io_ID e) s
}.

(** The counters never grow, and an identifier with a task has a counter
    that has reached 0. *)
Record counter_inv (d : DAG) (s : state) : Prop := {
  cnt_le : ∀ id, inDegree_of (st_dag s) id ≤ inDegree_of d id;
  cnt_task : ∀ id, id ∈ (tasks s).*1 → inDegree_of (st_dag s) id ≤ 0
}.

(** [Execute] goes past the sort only when the sort succeeds, and returns
    either the sort's error or, with both channels closed, what its last
    lines compute. *)
Definition ret_inv (s : state) : Prop :=
  match main s with
  | MStart => True
  | MSeeding _ | MWaiting => topo.Sort_fails (graph (st_dag s)) = false
  | MReturned r =>
      (topo.Sort_fails (graph (st_dag s)) = true ∧ r = cycle_return)
      ∨ (topo.Sort_fails (graph (st_dag s)) = false ∧ r = final_return s
         ∧ closed (statusChan (st_dag s)) = true ∧ closed (ioChan (st_dag s)) = true)
  end.

(** With a channel closed on entry and a graph that can be sorted,
    [Execute] does not return. *)
Definition closed_inv (s : state) : Prop :=
  (closed (statusChan (st_dag s)) = true ∨ closed (ioChan (st_dag s)) = true)
  ∧ topo.Sort_fails (graph (st_dag s)) = false
  ∧ ∀ r, main s ≠ MReturned r.

(** No panic so far, and both channels open until [Execute] returns. *)
Definition safe_inv (s : state) : Prop :=
  panicked s = None
  ∧ match main s with
    | MReturned _ => True
    | _ => closed (statusChan (st_dag s)) = false ∧ closed (ioChan (st_dag s)) = false
    end.

(** The loop over [sorted] starts every identifier whose counter is 0 on
    entry, as long as no counter changes. *)
Definition seeding_progress (d : DAG) (s : state) : Prop :=
  match main s with
  | MStart => True
  | MSeeding rest =>
      ∀ id x, nodes d !! id = Some x → inDegree_of d id = 0 → x ∈ rest ∨ id ∈ (tasks s).*1
  | MWaiting =>
      ∀ id x, nodes d !! id = Some x → inDegree_of d id = 0 → id ∈ (tasks s).*1
  | MReturned _ =>
      topo.Sort_fails (graph d) = true
      ∨ ∀ id, is_Some (nodes d !! id) → inDegree_of d id ≠ 0
  end.

(** With no room in [sem] every task waits at its first line. *)
Record idle_inv (d : DAG) (s : state) : Prop := {
  idle_tasks : Forall (λ t : NodeID * task_pc, t.2 = PSpawned) (tasks s);
  idle_sem : sem s = 0%nat;
  idle_frame : frame d s;
  idle_inDegree : inDegree (st_dag s) = inDegree d;
  idle_received : received (statusChan (st_dag s)) = received (statusChan d);
  idle_status : nodeStatus (st_dag s) = nodeStatus d;
  idle_outputs : outputs s = ∅;
  idle_progress : seeding_progress d s
}.

(** The invariants of every execution on a built store. *)
Record all_inv (d : DAG) (h : gmap loc node.Node) (ins : gmap NodeID (list string))
    (s : state) : Prop := {
  all_frame : frame d s;
  all_ctl : ctl_inv s;
  all_slots : slots_inv s;
  all_status : status_inv d s;
  all_outcome : outcome_inv s;
  all_data : data_inv d h ins s;
  all_pub : pub_inv s;
  all_ret : ret_inv s
}.

(** When the loop over [sorted] ends first: what a counter holds beyond the
    predecessors that have not yet gone past the node never shrinks. *)
Definition surplus_inv (d : DAG) (s : state) : Prop :=
  ∀ b y, nodes d !! b = Some y →
    inDegree_of d b - Z.of_nat (size (simple.To (graph d) y))
      ≤ inDegree_of (st_dag s) b - Z.of_nat (size (unreleased s y)).

(** When the loop over [sorted] ends first: a task that has written its
    output finds it in the table as long as it holds it, and a record of
    [ioChan] carries the entry of its node in the table, published by a
    task that is past [notifyNodeIO]. *)
Definition past_record (pc : task_pc) : Prop :=
  match pc with PNotified | PReleasing _ | PExiting | PDone => True | _ => False end.

Definition holds_output (s : state) (t : NodeID * task_pc) : Prop :=
  match t.2 with
  | PCommitted _ outs | PCompleted _ outs => outputs s !! t.1 = Some outs
  | _ => True
  end.

Record rec_inv (s : state) : Prop := {
  rec_task : ∀ i t, tasks s !! i = Some t → holds_output s t;
  rec_io : ∀ e, e ∈ received (ioChan (st_dag s)) →
      outputs s !! io_ID e = Some (io_Outputs e)
      ∧ ∃ i pc, tasks s !! i = Some (io_ID e, pc) ∧ past_record pc
}.

(** The sentences of the specification that the code does not satisfy, as
    they are written. *)


(** On success the terminal outputs have the leaves as keys and are the
    restriction of the output table to them. *)
Definition final_is_restriction (d : DAG) (h : gmap loc node.Node)
    (ins : gmap NodeID (list string)) : Prop :=
  ∀ s outs fin, reachable d h ins s →
    main s = MReturned {| ret_outputs := Some outs; ret_finalOutputs := Some fin;
                          ret_err := None |} →
    dom fin = leaf_ids d ∧
    fin = filter (λ kv : NodeID * list string, kv.1 ∈ leaf_ids d) outs.

(** [AddEdge] completes normally on a self-loop. *)
Definition self_loop_accepted (d : DAG) (id : NodeID) : Prop :=
  is_Some (nodes d !! id) → (AddEdge id id d).2 = Returns None.

End dag.

(** ** Graphs, nodes and schedules used below *)

Module scenario.
Import dag.

(** The processor of the package's tests: joins its inputs with a space and
    fails on an empty slice. *)
Definition textProcessor (ins : list string) : result :=
  match ins with
  | [] => Err (Errorf "input must not be empty")
  | _ => Ok (String.concat " " ins)
  end.

(** The client of the package's tests. *)
Definition MockLLMClient (prompt : string) : result :=
  Ok ("mock response: " +:+ prompt).

(** Calls of the construction API in sequence. *)
Inductive op : Type :=
  | OpNode (id : NodeID) (n : loc)
  | OpEdge (from to : NodeID).

Definition apply_op (d : DAG) (o : op) : DAG :=
  match o with
  | OpNode id n => (AddNode id n d).1
  | OpEdge from to => (AddEdge from to d).1
  end.

Definition build (maxConcurrent : Z) (ops : list op) : DAG :=
  foldl apply_op (NewDAG maxConcurrent) ops.

(** A task that succeeds, from its start to its end: [preds] and [succs] are
    the orders in which the graph delivers its neighbours. *)
Definition task_ok (i : nat) (preds succs : list Z) : list action :=
  [ATask i []; ATask i []; ATask i preds; ATask i []; ATask i []; ATask i [];
   ATask i succs] ++ replicate (length succs) (ATask i []) ++ [ATask i []; ATask i []].

(** A task whose node fails, from its start to its end. *)
Definition task_fail (i : nat) (preds : list Z) : list action :=
  [ATask i []; ATask i []; ATask i preds; ATask i []; ATask i []; ATask i []].

(** Two roots that both fail. *)
Definition two_roots : DAG := build 2 [OpNode "a" 0%nat; OpNode "b" 1%nat].
Definition two_roots_heap : gmap loc node.Node :=
  {[ 0%nat := node.NewTextNode "a" textProcessor;
     1%nat := node.NewLLMNode "b" MockLLMClient ]}.
Definition two_roots_run : list action :=
  [AMain [0; 1]; AMain []; AMain []; AMain []] ++
  task_fail 0 [] ++ task_fail 1 [] ++ [AMain []].

(** A cycle of two nodes. *)
Definition two_cycle : DAG :=
  build 2 [OpNode "a" 0%nat; OpNode "b" 1%nat; OpEdge "a" "b"; OpEdge "b" "a"].

(** One node. *)
Definition one_node : DAG := build 2 [OpNode "a" 0%nat].

(** The edge from [a] to [b], added twice. *)
Definition edge_twice : DAG :=
  build 2 [OpNode "a" 0%nat; OpNode "b" 1%nat; OpEdge "a" "b"; OpEdge "a" "b"].
Definition pair_heap : gmap loc node.Node :=
  {[ 0%nat := node.NewTextNode "a" textProcessor;
     1%nat := node.NewLLMNode "b" MockLLMClient ]}.
Definition pair_inputs : gmap NodeID (list string) := {[ "a" := ["hello"; "world"] ]}.
Definition edge_twice_run : list action :=
  [AMain [0; 1]; AMain []; AMain []; AMain []] ++ task_ok 0 [] [1] ++ [AMain []].

(** The chain from [a] to [b]; in [chain_run] the task of [a] ends before
    the loop over [sorted] reaches [b]. *)
Definition chain : DAG :=
  build 2 [OpNode "a" 0%nat; OpNode "b" 1%nat; OpEdge "a" "b"].
Definition chain_start : list action :=
  [AMain [0; 1]; AMain []; ATask 0 []; ATask 0 []].
Definition chain_plain_run : list action :=
  [AMain [0; 1]; AMain []; AMain []; AMain []] ++
  task_ok 0 [] [1] ++ task_ok 1 [0] [] ++ [AMain []].
Definition chain_run : list action :=
  [AMain [0; 1]; AMain []] ++ task_ok 0 [] [1] ++ [AMain []; AMain []] ++
  task_ok 1 [0] [] ++ task_ok 2 [0] [] ++ [AMain []].

(** [x] feeds [a]; [a] and [c] feed [b].  In [fan_in_run] the task of [x]
    ends before the loop over [sorted] reaches [a]; the run stops when the
    task of [b] has called [Execute] on its node. *)
Definition fan_in : DAG :=
  build 2 [OpNode "x" 0%nat; OpNode "a" 1%nat; OpNode "b" 2%nat; OpNode "c" 3%nat;
           OpEdge "x" "a"; OpEdge "a" "b"; OpEdge "c" "b"].
Definition fan_in_heap : gmap loc node.Node :=
  {[ 0%nat := node.NewTextNode "x" textProcessor;
     1%nat := node.NewLLMNode "a" MockLLMClient;
     2%nat := node.NewTextNode "b" textProcessor;
     3%nat := node.NewTextNode "c" textProcessor ]}.
Definition fan_in_inputs : gmap NodeID (list string) :=
  {[ "x" := ["hello"]; "c" := ["late"] ]}.
Definition fan_in_run : list action :=
  [AMain [0; 1; 3; 2]; AMain []] ++ task_ok 0 [] [1] ++
  [AMain []; AMain []; AMain []; AMain []] ++
  task_ok 1 [0] [2] ++ task_ok 2 [0] [2] ++
  [ATask 4 []; ATask 4 []; ATask 4 [1; 3]].

(** [x] feeds [c]; [c] and [a] feed [b]; the node of [a] fails.  In
    [failed_pred_run] the task of [x] ends before the loop over [sorted]
    reaches [c], and the task of [a] ends before those of [c] start. *)
Definition failed_pred : DAG :=
  build 2 [OpNode "x" 0%nat; OpNode "c" 1%nat; OpNode "a" 2%nat; OpNode "b" 3%nat;
           OpEdge "x" "c"; OpEdge "c" "b"; OpEdge "a" "b"].
Definition failed_pred_heap : gmap loc node.Node :=
  {[ 0%nat := node.NewTextNode "x" textProcessor;
     1%nat := node.NewTextNode "c" textProcessor;
     2%nat := node.NewLLMNode "a" MockLLMClient;
     3%nat := node.NewTextNode "b" textProcessor ]}.
Definition failed_pred_inputs : gmap NodeID (list string) := {[ "x" := ["hello"] ]}.
Definition failed_pred_run : list action :=
  [AMain [0; 1; 2; 3]; AMain []] ++ task_ok 0 [] [1] ++
  [AMain []; AMain []; AMain []; AMain []] ++
  task_fail 3 [] ++ task_ok 1 [0] [3] ++ task_ok 2 [0] [3] ++
  task_ok 4 [1; 2] [] ++ [AMain []].

(** One node and no room in [sem]; the run ends at [wg.Wait()]. *)
Definition stalled : DAG := build 0 [OpNode "a" 0%nat].
Definition stalled_run : list action := [AMain [0]; AMain []; AMain []].

(** One node and a negative capacity. *)
Definition negative : DAG := build (-1) [OpNode "a" 0%nat].

(** A second call of [Execute] on the chain, up to the first call of
    [updateNodeStatus]. *)
Definition chain_again_run : list action :=
  [AMain [0; 1]; AMain []; AMain []; AMain []; ATask 0 []; ATask 0 []].

(** The chain with an LLM node at [a]: without input its [Execute] fails. *)
Definition failing_heap : gmap loc node.Node :=
  {[ 0%nat := node.NewLLMNode "a" MockLLMClient;
     1%nat := node.NewTextNode "b" textProcessor ]}.
Definition failing_run : list action :=
  [AMain [0; 1]; AMain []; AMain []; AMain []] ++ task_fail 0 [] ++ [AMain []].

(** The chain, up to the point where the task of [b] is about to call
    [SetInputs]. *)
Definition chain_running_run : list action :=
  [AMain [0; 1]; AMain []; AMain []; AMain []] ++ task_ok 0 [] [1] ++
  [ATask 1 []; ATask 1 []].

End scenario.

(** * Properties *)

(** ** The delegate node *)

Module node_facts.
Import node.

Lemma length_zero_empty (s : string) : String.length s = 0%nat ↔ s = "".
Proof. destruct s; simpl; split; intros; done. Qed.

(** C8.  [Execute] of an [LLMNode]: with a number of stored inputs other than
    one it fails with the message that tells the number, and with the empty
    string as its only input it fails with "input must not be empty"; in both
    cases, and when the client fails (the client's error is returned as it
    is), the node is left as it was.  Otherwise the client is called on the
    only input and its answer becomes the one-element output. *)
Theorem LLMNode_Execute_spec (name : string) (ins outs : list string)
    (client : string → result) :
  let n := LLMNode name ins outs client in
  (length ins ≠ 1%nat →
     Execute n = (n, Some (Errorf ("input must be exactly 1, got " +:+ pretty (length ins)))))
  ∧ (ins = [""] → Execute n = (n, Some (Errorf "input must not be empty")))
  ∧ (∀ prompt, ins = [prompt] → prompt ≠ "" →
       (∀ response, client prompt = Ok response →
          Execute n = (LLMNode name ins [response] client, None))
       ∧ (∀ e, client prompt = Err e → Execute n = (n, Some e))).
Proof.
  intros n. subst n. simpl. unfold LLMNode_Execute. split_and!.
  - intros Hlen. destruct ins as [|p [|q ins]]; simpl in *; done.
  - intros ->. done.
  - intros prompt -> Hne. destruct (decide _) as [He|_].
    { by apply length_zero_empty in He. }
    split; intros ? ->; done.
Qed.

End node_facts.

(** ** The node interface *)

Module node_laws.
Import node.

(** X1.  [Execute] of either node type never changes the name or the stored
    inputs of the node; when it returns an error the node is exactly as it
    was, its earlier outputs included; when it returns no error the node
    holds exactly one output. *)
Theorem Execute_contract (n : Node) :
  Name (Execute n).1 = Name n
  ∧ inputs (Execute n).1 = inputs n
  ∧ (is_Some (Execute n).2 → (Execute n).1 = n)
  ∧ ((Execute n).2 = None → ∃ output, GetOutputs (Execute n).1 = [output]).
Proof.
  destruct n as [name ins outs f|name ins outs c]; simpl.
  - unfold TextNode_Execute. destruct (f ins); simpl; split_and!; try done.
    all: by (intros [? ?] || eauto).
  - unfold LLMNode_Execute. destruct ins as [|p [|q ins]]; simpl; try done.
    destruct (decide _); simpl; [done|].
    destruct (c p); simpl; split_and!; try done.
    all: by (intros [? ?] || eauto).
Qed.

(** X2.  [SetInputs], [Execute], [GetOutputs] on a [TextNode]: the processor
    is called on the inputs just set, whatever the node held before; when it
    succeeds [GetOutputs] returns its result alone, and when it fails
    [Execute] returns its error and [GetOutputs] still returns the outputs
    of the earlier run. *)
Theorem TextNode_round (name : string) (ins0 outs0 : list string)
    (f : list string → result) (ins : list string) :
  let n := Execute (SetInputs ins (TextNode name ins0 outs0 f)) in
  match f ins with
  | Ok output => n.2 = None ∧ GetOutputs n.1 = [output]
  | Err e => n.2 = Some e ∧ GetOutputs n.1 = outs0
  end.
Proof. simpl. unfold TextNode_Execute. by destruct (f ins). Qed.

End node_laws.

(** ** The graph library *)

Module graph_facts.
Import simple topo.

Lemma NewNode_fresh g : NewNode g ∉ g_nodes g.
Proof.
  unfold NewNode.
  assert (∀ x, x ∈ g_nodes g → x ≤ set_fold Z.max (-1) (g_nodes g)) as Hmax.
  { apply (set_fold_ind_L (λ r X, ∀ x, x ∈ X → x ≤ r)).
    - intros x Hx. set_solver.
    - intros x X r _ IH y [->%elem_of_singleton|Hy]%elem_of_union; [lia|].
      specialize (IH y Hy). lia. }
  intros Hin. apply Hmax in Hin. lia.
Qed.

Lemma AddNode_NewNode g :
  AddNode (NewNode g) g =
    ({| g_nodes := {[NewNode g]} ∪ g_nodes g; g_edges := g_edges g |}, Returns ()).
Proof.
  unfold AddNode. destruct (decide _) as [Hin|_]; [|done].
  by apply NewNode_fresh in Hin.
Qed.

Lemma elem_of_From g u v : v ∈ From g u ↔ (u, v) ∈ g_edges g.
Proof.
  unfold From. rewrite elem_of_map. split.
  - intros ([a b] & -> & [Ha Hb]%elem_of_filter). simpl in *. by subst.
  - intros He. exists (u, v). split; [done|]. by apply elem_of_filter.
Qed.

Lemma elem_of_To g u v : u ∈ To g v ↔ (u, v) ∈ g_edges g.
Proof.
  unfold To. rewrite elem_of_map. split.
  - intros ([a b] & -> & [Ha Hb]%elem_of_filter). simpl in *. by subst.
  - intros He. exists (u, v). split; [done|]. by apply elem_of_filter.
Qed.

(** Along a path every edge goes forward, so its end comes after its
    start. *)
Lemma forward_path g l u v :
  forward g l → tc (λ a b, (a, b) ∈ g_edges g) u v →
  ∃ i j, position u l = Some i ∧ position v l = Some j ∧ (i < j)%nat.
Proof.
  intros Hfw Hp. induction Hp as [a b Hab|a b c Hab _ (j & k & Hj & Hk & Hjk)].
  - specialize (Hfw _ Hab). unfold before in Hfw. simpl in Hfw.
    destruct (position a l) as [i|]; [|done].
    destruct (position b l) as [j|]; [|done]. eauto.
  - specialize (Hfw _ Hab). unfold before in Hfw. simpl in Hfw.
    destruct (position a l) as [i|]; [|done]. rewrite Hj in Hfw.
    exists i, k. split_and!; [done..|lia].
Qed.

(** A graph with a cycle has no topological order: [topo.Sort] fails. *)
Lemma cyclic_Sort_fails g : dag.cyclic g → Sort_fails g = true.
Proof.
  intros [u Hu]. unfold Sort_fails. apply bool_decide_eq_true.
  destruct (orders g) as [|l ls] eqn:Ho; [done|]. exfalso.
  assert (l ∈ orders g) as [Hfw _]%list_elem_of_filter by (rewrite Ho; left).
  destruct (forward_path g l u u Hfw Hu) as (i & j & Hi & Hj & Hij).
  simplify_eq. lia.
Qed.

End graph_facts.

(** ** The graph store *)

Module store_facts.
Import dag graph_facts.

Lemma with_graph_id d : with_graph (graph d) d = d.
Proof. by destruct d. Qed.

Lemma To_empty_graph x : simple.To simple.NewDirectedGraph x = ∅.
Proof. apply set_eq. intros u. rewrite elem_of_To. set_solver. Qed.

Lemma To_edges g g' x :
  simple.g_edges g' = simple.g_edges g → simple.To g' x = simple.To g x.
Proof. intros He. unfold simple.To. by rewrite He. Qed.

Lemma To_SetEdge g g' u v x :
  simple.g_edges g' = {[(u, v)]} ∪ simple.g_edges g →
  simple.To g' x = (if decide (x = v) then {[u]} else ∅) ∪ simple.To g x.
Proof.
  intros He. apply set_eq. intros w. rewrite elem_of_union, !elem_of_To, He.
  rewrite elem_of_union, elem_of_singleton.
  destruct (decide (x = v)) as [->|Hne].
  - rewrite elem_of_singleton. split; (intros [Hw|Hw]; [left|by right]); congruence.
  - split; [intros [[= _ Hv]|Hw]; [by destruct Hne|by right]|].
    intros [Hw|Hw]; [by apply not_elem_of_empty in Hw|by right].
Qed.

Lemma wf_NewDAG mc : wf (NewDAG mc).
Proof.
  split; simpl; try done; intros *; by rewrite lookup_empty.
Qed.

Lemma wf_AddNode id n d : wf d → wf (AddNode id n d).1.
Proof.
  intros [Hn Hinj Hst Hreg Hsc Hic Hrc He Hdeg]. unfold AddNode. rewrite AddNode_NewNode.
  split; simpl; try done.
  - intros id' x. rewrite lookup_insert. case_decide.
    + intros [= <-]. by apply elem_of_union_l, elem_of_singleton.
    + intros ?%Hn. by apply elem_of_union_r.
  - intros id1 id2 x. rewrite !lookup_insert.
    repeat case_decide; simplify_eq; try done; intros; simplify_eq.
    + exfalso. eapply NewNode_fresh, Hn. done.
    + exfalso. eapply NewNode_fresh, Hn. done.
    + by eapply Hinj.
  - intros id' st. rewrite lookup_insert. case_decide; [by intros [= <-]|]. apply Hst.
  - intros id'. rewrite !lookup_insert. case_decide; [done|]. apply Hreg.
  - intros u v [? ?]%He. split; by apply elem_of_union_r.
  - intros id' x. unfold inDegree_of. simpl. rewrite !lookup_insert.
    destruct (decide (id = id')) as [<-|Hne].
    + intros [= <-]. simpl.
      assert (simple.To {| simple.g_nodes := {[simple.NewNode (graph d)]}
                             ∪ simple.g_nodes (graph d);
                           simple.g_edges := simple.g_edges (graph d) |}
                (simple.NewNode (graph d)) = ∅) as ->.
      { apply set_eq. intros u. rewrite elem_of_To. simpl. split; [|set_solver].
        intros [_ Hv]%He. by apply NewNode_fresh in Hv. }
      by rewrite size_empty.
    + intros Hx. erewrite To_edges by done. by apply Hdeg.
Qed.

Lemma wf_AddEdge from to d : wf d → wf (AddEdge from to d).1.
Proof.
  intros Hwf. unfold AddEdge, simple.SetEdge.
  destruct (nodes d !! from) as [x|] eqn:Hx; [|done].
  destruct (nodes d !! to) as [y|] eqn:Hy; [|done].
  destruct (decide (x = y)); simpl; [by rewrite with_graph_id|].
  destruct Hwf as [Hn Hinj Hst Hreg Hsc Hic Hrc He Hdeg]. split; simpl; try done.
  - intros id z ?%Hn. by apply elem_of_union_r.
  - apply Hn in Hx, Hy.
    intros u v [[= -> ->]%elem_of_singleton|[? ?]%He]%elem_of_union.
    + split; apply elem_of_union_l, elem_of_union; [left|right];
        by apply elem_of_singleton.
    + split; by apply elem_of_union_r.
  - intros id z Hz. erewrite To_SetEdge by done. unfold inDegree_of. simpl.
    rewrite lookup_insert. specialize (Hdeg id z Hz). unfold inDegree_of in Hdeg.
    destruct (decide (z = y)) as [->|Hne].
    + assert (id = to) as -> by (by eapply Hinj). rewrite decide_True by done. simpl.
      rewrite size_union_alt, size_singleton.
      assert (simple.To (graph d) y ∖ {[x]} ⊆ simple.To (graph d) y) as Hle.
      { intros w [Hw _]%elem_of_difference. done. }
      apply subseteq_size in Hle. lia.
    + rewrite union_empty_l_L. destruct (decide (to = id)) as [->|]; [congruence|done].
Qed.

Lemma built_wf d : built d → wf d.
Proof.
  induction 1; [apply wf_NewDAG|by apply wf_AddNode|by apply wf_AddEdge].
Qed.

Lemma lookupID_Some d x id : lookupID d x = Some id → nodes d !! id = Some x.
Proof.
  unfold lookupID. intros Hh. apply fmap_Some in Hh as ([id' y] & Hh & ->).
  apply head_Some_elem_of, list_elem_of_filter in Hh as [Hy Hin]. simpl in *. subst y.
  by apply elem_of_map_to_list in Hin.
Qed.

Lemma lookupID_complete d x id :
  wf d → nodes d !! id = Some x → lookupID d x = Some id.
Proof.
  intros Hwf Hid. unfold lookupID.
  destruct (head _) as [[id' y]|] eqn:Hh; simpl.
  - f_equal. eapply (nodes_inj d Hwf); [|done].
    apply (lookupID_Some d x). unfold lookupID. rewrite Hh. simpl.
    apply head_Some_elem_of, list_elem_of_filter in Hh as [Hy _]. simpl in Hy.
    by subst y.
  - apply head_None in Hh.
    assert ((id, x) ∈ filter (λ kv : string * Z, kv.2 = x) (map_to_list (nodes d))) as Hin.
    { apply list_elem_of_filter. split; [done|]. by apply elem_of_map_to_list. }
    rewrite Hh in Hin. by apply not_elem_of_nil in Hin.
Qed.

Lemma elem_of_leaf_ids d id :
  id ∈ leaf_ids d ↔ ∃ x, nodes d !! id = Some x ∧ simple.From (graph d) x = ∅.
Proof.
  unfold leaf_ids. rewrite elem_of_dom. split.
  - intros [x [Hx Hl]%map_lookup_filter_Some]. eauto.
  - intros (x & Hx & Hl). exists x. by apply map_lookup_filter_Some.
Qed.

Lemma elem_of_GetLeafNodes d id : wf d → id ∈ GetLeafNodes d ↔ id ∈ leaf_ids d.
Proof.
  intros Hwf. unfold GetLeafNodes. rewrite list_elem_of_omap, elem_of_leaf_ids.
  split.
  - intros (x & [Hl Hx]%list_elem_of_filter & Hid). exists x.
    split; [by apply lookupID_Some|]. by apply size_empty_inv, leibniz_equiv in Hl.
  - intros (x & Hx & Hl). exists x. split; [|by apply lookupID_complete].
    apply list_elem_of_filter. split; [by rewrite Hl, size_empty|].
    apply elem_of_elements. by eapply wf_nodes.
Qed.

(** C9.  [AddEdge] returns an error exactly when an end is not registered,
    the error names the missing node and the store is left as it was; when
    it returns without error the graph has gained the edge between the two
    graph nodes, the counter of [to] has grown by one and no other counter
    has changed. *)
Theorem AddEdge_spec (d : DAG) (from to : NodeID) :
  ((∃ e, (AddEdge from to d).2 = Returns (Some e))
     ↔ (nodes d !! from = None ∨ nodes d !! to = None))
  ∧ (∀ e, (AddEdge from to d).2 = Returns (Some e) →
       (AddEdge from to d).1 = d
       ∧ (e = Errorf ("node " +:+ from +:+ " does not exist")
          ∨ e = Errorf ("node " +:+ to +:+ " does not exist")))
  ∧ ((AddEdge from to d).2 = Returns None →
       ∃ x y, nodes d !! from = Some x ∧ nodes d !! to = Some y
         ∧ simple.g_edges (graph (AddEdge from to d).1)
             = {[(x, y)]} ∪ simple.g_edges (graph d)
         ∧ inDegree_of (AddEdge from to d).1 to = inDegree_of d to + 1
         ∧ (∀ id, id ≠ to →
              inDegree (AddEdge from to d).1 !! id = inDegree d !! id)
         ∧ nodes (AddEdge from to d).1 = nodes d).
Proof.
  unfold AddEdge, simple.SetEdge.
  destruct (nodes d !! from) as [x|] eqn:Hf; simpl.
  2: { split_and!; [split; eauto| |done]. intros e [= <-]. eauto. }
  destruct (nodes d !! to) as [y|] eqn:Ht; simpl.
  2: { split_and!; [split; eauto| |done]. intros e [= <-]. eauto. }
  destruct (decide (x = y)) as [->|Hxy]; simpl.
  - split_and!; [|done..]. split; [by intros [? ?]|by intros [?|?]].
  - split_and!; [|done|].
    + split; [by intros [? ?]|by intros [?|?]].
    + intros _. exists x, y. split_and!; try done.
      * unfold inDegree_of. simpl. by rewrite lookup_insert_eq.
      * intros id Hid. by rewrite lookup_insert_ne.
Qed.

(** A self-loop reaches [SetEdge] with twice the same graph node: the call
    panics and the store is as before. *)
Lemma AddEdge_self d id x :
  nodes d !! id = Some x → AddEdge id id d = (d, Panics "simple: adding self edge").
Proof.
  intros Hx. unfold AddEdge, simple.SetEdge. rewrite Hx.
  destruct (decide (x = x)); [|done]. by rewrite with_graph_id.
Qed.

(** An edge between two distinct registered identifiers is taken without
    any look at the edges that are there. *)
Lemma AddEdge_distinct d from to :
  wf d → from ≠ to → is_Some (nodes d !! from) → is_Some (nodes d !! to) →
  (AddEdge from to d).2 = Returns None.
Proof.
  intros Hwf Hne [x Hx] [y Hy]. unfold AddEdge, simple.SetEdge. rewrite Hx, Hy.
  destruct (decide (x = y)) as [->|]; [|done].
  destruct Hne. by eapply (nodes_inj d Hwf).
Qed.

End store_facts.

(** ** The graph store: construction *)

Module store_laws.
Import dag graph_facts store_facts.

Lemma NoDup_omap_inj {A B} (f : A → option B) (l : list A) :
  (∀ x y z, f x = Some z → f y = Some z → x = y) → NoDup l → NoDup (omap f l).
Proof.
  intros Hinj Hl. induction Hl as [|x l Hx _ IH]; simpl; [constructor|].
  destruct (f x) as [z|] eqn:Hz; [|done]. constructor; [|done].
  intros (y & Hy & Hfy)%list_elem_of_omap. assert (x = y) as <- by eauto. done.
Qed.

(** What the construction API keeps besides [wf]. *)
Lemma built_keys d :
  built d →
  dom (nodeMap d) = dom (nodes d) ∧ dom (inDegree d) = dom (nodes d)
  ∧ dom (nodeStatus d) = dom (nodes d)
  ∧ (∀ u, (u, u) ∉ simple.g_edges (graph d))
  ∧ received (ioChan d) = [].
Proof.
  induction 1 as [mc|d id n _ (Hm & Hi & Hs & He & Hio)|d from to Hb (Hm & Hi & Hs & He & Hio)].
  - simpl. rewrite !dom_empty_L. split_and!; done.
  - unfold AddNode. rewrite AddNode_NewNode. simpl. rewrite !dom_insert_L, Hm, Hi, Hs. done.
  - unfold AddEdge, simple.SetEdge.
    destruct (nodes d !! from) as [x|] eqn:Hx; [|done].
    destruct (nodes d !! to) as [y|] eqn:Hy; [|done].
    destruct (decide (x = y)); simpl; [done|].
    split_and!; try done.
    + rewrite dom_insert_L, Hi. apply set_eq. intros id.
      rewrite elem_of_union, elem_of_singleton. split; [|by right].
      intros [->|?]; [|done]. by apply elem_of_dom.
    + intros u [[= <- <-]%elem_of_singleton|Hu]%elem_of_union; [done|]. by apply He in Hu.
Qed.

(** X5.  Every store built with [NewDAG], [AddNode] and [AddEdge]: the four
    maps have the same keys; distinct identifiers are bound to distinct
    graph nodes, which are nodes of the graph; no edge is a self edge and
    every edge joins nodes of the graph; every status is [Pending]; the
    counter of an identifier is no less than the number of predecessors of
    its graph node; and both channels are open and empty. *)
Theorem built_store_invariant (d : DAG) :
  built d →
  dom (nodeMap d) = dom (nodes d) ∧ dom (inDegree d) = dom (nodes d)
  ∧ dom (nodeStatus d) = dom (nodes d)
  ∧ (∀ id1 id2 x, nodes d !! id1 = Some x → nodes d !! id2 = Some x → id1 = id2)
  ∧ (∀ id x, nodes d !! id = Some x → x ∈ simple.g_nodes (graph d))
  ∧ (∀ u v, (u, v) ∈ simple.g_edges (graph d) →
       u ≠ v ∧ u ∈ simple.g_nodes (graph d) ∧ v ∈ simple.g_nodes (graph d))
  ∧ (∀ id st, nodeStatus d !! id = Some st → st = Pending)
  ∧ (∀ id x, nodes d !! id = Some x →
       Z.of_nat (size (simple.To (graph d) x)) ≤ inDegree_of d id)
  ∧ GetStatusChan d = {| received := []; closed := false |}
  ∧ GetIOChan d = {| received := []; closed := false |}.
Proof.
  intros Hb. destruct (built_keys d Hb) as (Hm & Hi & Hs & He & Hio).
  destruct (built_wf d Hb) as [Hn Hinj Hst Hreg Hsc Hic Hrc Hed Hdeg].
  split_and!; try done.
  - intros u v Huv. split; [|by apply Hed]. intros ->. by apply He in Huv.
  - unfold GetStatusChan. destruct (statusChan d). simpl in *. by subst.
  - unfold GetIOChan. destruct (ioChan d). simpl in *. by subst.
Qed.

(** X3.  [AddNode] never panics: the graph node it asks for is new.  It
    adds that node to the graph without touching an edge, binds the
    identifier to it and to the node object, sets the counter to 0 and the
    status to [Pending], and leaves every other identifier as it was. *)
Theorem AddNode_spec (d : DAG) (id : NodeID) (n : loc) :
  let d' := (AddNode id n d).1 in
  let x := simple.NewNode (graph d) in
  (AddNode id n d).2 = Returns ()
  ∧ (x ∉ simple.g_nodes (graph d))
  ∧ simple.g_nodes (graph d') = {[x]} ∪ simple.g_nodes (graph d)
  ∧ simple.g_edges (graph d') = simple.g_edges (graph d)
  ∧ nodes d' !! id = Some x ∧ nodeMap d' !! id = Some n
  ∧ inDegree d' !! id = Some 0 ∧ nodeStatus d' !! id = Some Pending
  ∧ (∀ id', id' ≠ id →
       nodes d' !! id' = nodes d !! id' ∧ nodeMap d' !! id' = nodeMap d !! id'
       ∧ inDegree d' !! id' = inDegree d !! id'
       ∧ nodeStatus d' !! id' = nodeStatus d !! id').
Proof.
  simpl. unfold AddNode. rewrite AddNode_NewNode. simpl.
  rewrite !lookup_insert_eq. split_and!; try done; [apply NewNode_fresh|].
  intros id' Hne. by rewrite !lookup_insert_ne.
Qed.

Lemma lookupID_None d x : (∀ id, nodes d !! id ≠ Some x) → lookupID d x = None.
Proof.
  intros Hx. destruct (lookupID d x) as [id|] eqn:Hl; [|done].
  apply lookupID_Some in Hl. by apply Hx in Hl.
Qed.

(** X4.  [AddNode] on an identifier that is registered already: the
    identifier moves to a new graph node without any edge, so that it is a
    leaf with counter 0, while the old graph node stays in the graph with
    its edges but is bound to no identifier any more: the search by graph
    node finds nothing for it, and the loop over [sorted] starts no task
    for it. *)
Theorem AddNode_rebinds (d : DAG) (id : NodeID) (n : loc) (x : Z) :
  built d → nodes d !! id = Some x →
  let d' := (AddNode id n d).1 in
  let x' := simple.NewNode (graph d) in
  nodes d' !! id = Some x' ∧ x' ≠ x
  ∧ x ∈ simple.g_nodes (graph d')
  ∧ (∀ id', nodes d' !! id' ≠ Some x)
  ∧ lookupID d' x = None
  ∧ ready_ids d' x = []
  ∧ simple.To (graph d') x = simple.To (graph d) x
  ∧ simple.From (graph d') x = simple.From (graph d) x
  ∧ simple.To (graph d') x' = ∅ ∧ simple.From (graph d') x' = ∅
  ∧ inDegree_of d' id = 0
  ∧ id ∈ leaf_ids d'.
Proof.
  intros Hb Hx. pose proof (built_wf d Hb) as Hwf. simpl.
  pose proof (NewNode_fresh (graph d)) as Hfresh.
  assert (simple.NewNode (graph d) ≠ x) as Hne.
  { intros Heq. apply Hfresh. rewrite Heq. by eapply wf_nodes. }
  assert (∀ v, (simple.NewNode (graph d), v) ∉ simple.g_edges (graph d)) as Hout.
  { intros v [Hu _]%(wf_edges d Hwf). done. }
  assert (∀ u, (u, simple.NewNode (graph d)) ∉ simple.g_edges (graph d)) as Hin.
  { intros u [_ Hv]%(wf_edges d Hwf). done. }
  unfold AddNode. rewrite AddNode_NewNode. simpl.
  assert (∀ id', <[id := simple.NewNode (graph d)]> (nodes d) !! id' ≠ Some x) as Hnone.
  { intros id'. destruct (decide (id = id')) as [<-|Hid].
    - rewrite lookup_insert_eq. congruence.
    - rewrite lookup_insert_ne by done. intros Hx'. apply Hid.
      by eapply (nodes_inj d Hwf). }
  assert (simple.From {| simple.g_nodes := {[simple.NewNode (graph d)]}
                           ∪ simple.g_nodes (graph d);
                         simple.g_edges := simple.g_edges (graph d) |}
            (simple.NewNode (graph d)) = ∅) as Hfrom.
  { apply set_eq. intros u. rewrite elem_of_From. simpl.
    split; [by intros ?%Hout|by intros ?%not_elem_of_empty]. }
  split_and!.
  - by rewrite lookup_insert_eq.
  - done.
  - apply elem_of_union_r. by eapply wf_nodes.
  - done.
  - by apply lookupID_None.
  - apply elem_of_nil_inv. intros id' Hid'. unfold ready_ids in Hid'.
    apply list_elem_of_fmap in Hid' as ([id2 y] & -> & [[Hy _] Hm]%list_elem_of_filter).
    simpl in *. subst y. apply elem_of_map_to_list in Hm. by apply Hnone in Hm.
  - done.
  - done.
  - apply set_eq. intros u. rewrite elem_of_To. simpl.
    split; [by intros ?%Hin|by intros ?%not_elem_of_empty].
  - done.
  - unfold inDegree_of. simpl. by rewrite lookup_insert_eq.
  - apply elem_of_leaf_ids. exists (simple.NewNode (graph d)). simpl.
    split; [by rewrite lookup_insert_eq|done].
Qed.

(** X6.  [AddEdge] on an edge that the graph has already: the call returns
    no error, the graph is unchanged, and the counter of [to] grows by one
    all the same, so that it exceeds the number of predecessors of the
    node. *)
Theorem AddEdge_again (d : DAG) (from to : NodeID) (x y : Z) :
  built d → from ≠ to → nodes d !! from = Some x → nodes d !! to = Some y →
  (x, y) ∈ simple.g_edges (graph d) →
  (AddEdge from to d).2 = Returns None
  ∧ graph (AddEdge from to d).1 = graph d
  ∧ inDegree_of (AddEdge from to d).1 to = inDegree_of d to + 1
  ∧ Z.of_nat (size (simple.To (graph (AddEdge from to d).1) y))
      < inDegree_of (AddEdge from to d).1 to.
Proof.
  intros Hb Hne Hx Hy He. pose proof (built_wf d Hb) as Hwf.
  unfold AddEdge, simple.SetEdge. rewrite Hx, Hy.
  destruct (decide (x = y)) as [->|Hxy].
  { destruct Hne. by eapply (nodes_inj d Hwf). }
  simpl.
  assert ({| simple.g_nodes := {[x; y]} ∪ simple.g_nodes (graph d);
             simple.g_edges := {[(x, y)]} ∪ simple.g_edges (graph d) |} = graph d) as Hg.
  { destruct (graph d) as [N E] eqn:Hgd. simpl in *. f_equal.
    - apply set_eq. intros z. rewrite elem_of_union. split; [|by right].
      intros [[->%elem_of_singleton| ->%elem_of_singleton]%elem_of_union|?]; [..|done].
      + apply (wf_nodes d Hwf) in Hx. by rewrite Hgd in Hx.
      + apply (wf_nodes d Hwf) in Hy. by rewrite Hgd in Hy.
    - apply set_eq. intros z. rewrite elem_of_union. split; [|by right].
      intros [->%elem_of_singleton|?]; done. }
  rewrite Hg. split_and!; try done.
  - unfold inDegree_of. simpl. by rewrite lookup_insert_eq.
  - unfold inDegree_of at 1. simpl. rewrite lookup_insert_eq. simpl.
    pose proof (wf_inDegree d Hwf to y Hy). lia.
Qed.

(** X7.  The search [for id, n := range dag.nodes { if n.ID() == x.ID() ... }]
    inverts the map [nodes] of a built store: it finds [id] for the graph
    node [x] exactly when [id] is bound to [x]. *)
Theorem lookupID_spec (d : DAG) (x : Z) (id : NodeID) :
  built d → lookupID d x = Some id ↔ nodes d !! id = Some x.
Proof.
  intros Hb. split; [apply lookupID_Some|]. apply lookupID_complete. by apply built_wf.
Qed.

(** X8.  [GetLeafNodes] on a built store returns, each once, the
    identifiers bound to a graph node without outgoing edge, and nothing
    else. *)
Theorem GetLeafNodes_spec (d : DAG) :
  built d →
  NoDup (GetLeafNodes d)
  ∧ ∀ id, id ∈ GetLeafNodes d ↔
      ∃ x, nodes d !! id = Some x ∧ ∀ v, (x, v) ∉ simple.g_edges (graph d).
Proof.
  intros Hb. pose proof (built_wf d Hb) as Hwf. split.
  - unfold GetLeafNodes. apply NoDup_omap_inj.
    + intros x y id Hx%lookupID_Some Hy%lookupID_Some. congruence.
    + apply NoDup_filter, NoDup_elements.
  - intros id. rewrite elem_of_GetLeafNodes, elem_of_leaf_ids by done.
    split; intros (x & Hx & Hl); exists x; (split; [done|]).
    + intros v Hv%elem_of_From. rewrite Hl in Hv. by apply not_elem_of_empty in Hv.
    + apply set_eq. intros v. rewrite elem_of_From. split; [by intros ?%Hl|].
      by intros ?%not_elem_of_empty.
Qed.

End store_laws.

(** ** Executions *)

Module exec_facts.
Import dag graph_facts store_facts.

Lemma run_invariant (P : state → Prop) :
  (∀ a s s', P s → step a s = Some s' → P s') →
  ∀ acts s s', P s → run acts s = Some s' → P s'.
Proof.
  intros Hstep acts. induction acts as [|a acts IH]; intros s s' HP Hrun; simpl in Hrun.
  - by simplify_eq.
  - destruct (step a s) as [s1|] eqn:Hs; [|done]. eauto.
Qed.

Lemma filter_insert_length {A} (P : A → Prop) `{!∀ x, Decision (P x)} (l : list A) i x y :
  l !! i = Some x →
  (length (filter P (<[i:=y]> l)) + (if decide (P x) then 1 else 0) =
   length (filter P l) + (if decide (P y) then 1 else 0))%nat.
Proof.
  revert i. induction l as [|z l IH]; intros [|i] Hi; simplify_eq/=.
  - rewrite !filter_cons. destruct (decide (P x)), (decide (P y)); simpl; lia.
  - rewrite !filter_cons. specialize (IH _ Hi).
    destruct (decide (P z)); simpl; lia.
Qed.

Lemma has_runner_app ts l id : has_runner ts id → has_runner (ts ++ l) id.
Proof.
  intros (j & t & Hj & ? & ?). exists j, t. split_and!; try done.
  by apply lookup_app_l_Some.
Qed.

Lemma has_runner_goto ts i id pc pc' id0 :
  ts !! i = Some (id, pc) → (in_run (id, pc) → in_run (id, pc')) →
  has_runner ts id0 → has_runner (<[i := (id, pc')]> ts) id0.
Proof.
  intros Hi Hpc (j & t & Hj & Ht & Hr). destruct (decide (j = i)) as [->|Hne].
  - simplify_eq. exists i, (id, pc'). split; [|split; [done|by apply Hpc]].
    apply list_lookup_insert_eq. by eapply lookup_lt_Some.
  - exists j, t. by rewrite list_lookup_insert_ne.
Qed.

Lemma has_runner_status ts i id pc pc' st (M : gmap string NodeStatus) :
  ts !! i = Some (id, pc) → (st = Running → in_run (id, pc')) →
  (∀ id0, M !! id0 = Some Running → has_runner ts id0) →
  ∀ id0, <[id := st]> M !! id0 = Some Running → has_runner (<[i := (id, pc')]> ts) id0.
Proof.
  intros Hi Hpc HM id0. destruct (decide (id = id0)) as [<-|Hne].
  - rewrite lookup_insert_eq. intros [= ->]. exists i, (id, pc').
    split; [|split; [done|by apply Hpc]].
    apply list_lookup_insert_eq. by eapply lookup_lt_Some.
  - rewrite lookup_insert_ne by done. intros (j & t & Hj & Ht & Hr)%HM.
    exists j, t. split_and!; try done. rewrite list_lookup_insert_ne; [done|].
    intros ->. by simplify_eq/=.
Qed.

Lemma slots_goto ts i id pc pc' :
  ts !! i = Some (id, pc) →
  (length (filter holds_slot (<[i := (id, pc')]> ts))
     + (if decide (holds_slot (id, pc)) then 1 else 0) =
   length (filter holds_slot ts)
     + (if decide (holds_slot (id, pc')) then 1 else 0))%nat.
Proof. apply filter_insert_length. Qed.

Lemma filter_spawned (ids : list string) :
  filter holds_slot (map (λ id, (id, PSpawned)) ids) = [].
Proof.
  induction ids as [|x ids IH]; [done|]. simpl. rewrite filter_cons.
  destruct (decide (holds_slot (x, PSpawned))) as [[? ?]|]; [done|]. done.
Qed.

Lemma filter_spawned_one (id : string) : filter holds_slot [(id, PSpawned)] = [].
Proof. apply (filter_spawned [id]). Qed.

Lemma updateNodeStatus_Returns id st d d' :
  updateNodeStatus id st d = Returns d' →
  nodeStatus d' = <[id := st]> (nodeStatus d) ∧
  maxConcurrent d' = maxConcurrent d ∧ graph d' = graph d ∧ nodes d' = nodes d ∧
  nodeMap d' = nodeMap d ∧ inDegree d' = inDegree d ∧ ioChan d' = ioChan d ∧
  received (statusChan d') = received (statusChan d) ++ [{| ns_ID := id; ns_Status := st |}] ∧
  closed (statusChan d') = false ∧ closed (statusChan d) = false.
Proof.
  unfold updateNodeStatus, send. destruct (closed (statusChan d)) eqn:Hc; [done|].
  intros [= <-]. simpl. done.
Qed.

Lemma notifyNodeIO_Returns id ins outs d d' :
  notifyNodeIO id ins outs d = Returns d' →
  nodeStatus d' = nodeStatus d ∧
  maxConcurrent d' = maxConcurrent d ∧ graph d' = graph d ∧ nodes d' = nodes d ∧
  nodeMap d' = nodeMap d ∧ inDegree d' = inDegree d ∧ statusChan d' = statusChan d.
Proof.
  unfold notifyNodeIO, send. destruct (closed (ioChan d)); [done|].
  intros [= <-]. simpl. done.
Qed.

Lemma slots_inv_step a s s' : slots_inv s → step a s = Some s' → slots_inv s'.
Proof.
  intros [Hsem Hcap Hrun] Hstep.
  unfold step in Hstep. destruct (panicked s); [done|]. destruct a as [sorted|i order].
  - unfold main_step in Hstep.
    repeat case_match; simplify_eq; split; simpl; try done.
    all: try (rewrite filter_app, length_app, filter_spawned; simpl; lia).
    all: try (intros id Hid; by apply has_runner_app, Hrun).
    all: unfold close in *; repeat case_match; simplify_eq; simpl; done.
  - unfold task_step in Hstep.
    repeat case_match; simplify_eq.
    all: repeat match goal with
         | H : updateNodeStatus _ _ _ = Returns _ |- _ =>
             apply updateNodeStatus_Returns in H;
             destruct H as (? & ? & ? & ? & ? & ? & ? & ? & ? & ?)
         | H : notifyNodeIO _ _ _ _ = Returns _ |- _ =>
             apply notifyNodeIO_Returns in H;
             destruct H as (? & ? & ? & ? & ? & ? & ?)
         end.
    all: split; simpl; try done.
    all: try match goal with
         | Hi : tasks _ !! _ = Some (_, ?pc) |- context [length (filter holds_slot _)] =>
             match goal with |- context [<[_ := (_, ?pc')]> (tasks _)] =>
             let Hc := fresh in
             pose proof (slots_goto _ _ _ _ pc' Hi) as Hc;
             try rewrite filter_app, length_app, filter_spawned_one;
             destruct (decide (holds_slot (_, pc))) as [[??]|Hn1] in Hc;
             destruct (decide (holds_slot (_, pc'))) as [[??]|Hn2] in Hc;
             simpl in *; try done; try lia;
             try (exfalso; apply Hn1; by split);
             try (exfalso; apply Hn2; by split)
             end
         end.
    all: repeat match goal with
         | H : maxConcurrent ?a = _ |- context [maxConcurrent ?a] => rewrite H
         | H : nodeStatus ?a = _ |- context [nodeStatus ?a] => rewrite H
         end; try lia.
    all: try (eapply has_runner_status; [done| |done]; intros; done).
    all: intros id' Hid; try apply has_runner_app.
    all: eapply has_runner_goto; [done| |by apply Hrun]; unfold in_run; simpl; try done.
Qed.

Lemma slots_inv_init d h ins :
  (∀ id, nodeStatus d !! id ≠ Some Running) → slots_inv (exec_init d h ins).
Proof.
  intros Hd. split; simpl; [done|lia|]. intros id Hid. by destruct (Hd id).
Qed.

Lemma size_list_to_set_le (l : list string) :
  (size (list_to_set (C := gset string) l) ≤ length l)%nat.
Proof.
  induction l as [|x l IH].
  - by rewrite list_to_set_nil, size_empty.
  - rewrite list_to_set_cons, size_union_alt, size_singleton. simpl.
    assert (list_to_set (C := gset string) l ∖ {[x]} ⊆ list_to_set l) as Hle.
    { intros y [Hy _]%elem_of_difference. done. }
    apply subseteq_size in Hle. lia.
Qed.

Lemma filter_length_mono {A} (P Q : A → Prop) `{!∀ x, Decision (P x)} `{!∀ x, Decision (Q x)}
    (l : list A) :
  (∀ x, P x → Q x) → (length (filter P l) ≤ length (filter Q l))%nat.
Proof.
  intros HPQ. induction l as [|x l IH]; [done|]. rewrite !filter_cons.
  destruct (decide (P x)) as [HP|], (decide (Q x)) as [|HQ]; simpl; try lia.
  destruct HQ. by apply HPQ.
Qed.

Lemma running_ids_bound s :
  slots_inv s → (size (running_ids (st_dag s)) ≤ sem s)%nat.
Proof.
  intros [Hsem _ Hrun].
  transitivity (size (list_to_set (C := gset string) (filter in_run (tasks s)).*1)).
  - apply subseteq_size. intros id Hid. unfold running_ids in Hid.
    apply elem_of_dom in Hid as [st Hst]. apply map_lookup_filter_Some in Hst as [Hst Hr].
    simpl in Hr. subst st. destruct (Hrun id Hst) as (j & t & Hj & <- & Ht).
    apply elem_of_list_to_set, list_elem_of_fmap. exists t. split; [done|].
    apply list_elem_of_filter. split; [done|]. by eapply list_elem_of_lookup_2.
  - etrans; [apply size_list_to_set_le|]. rewrite length_fmap, Hsem.
    apply filter_length_mono. intros [id pc]. unfold in_run, holds_slot. simpl.
    destruct pc; naive_solver.
Qed.

Lemma reachable_invariant (P : state → Prop) d h ins s :
  P (exec_init d h ins) → (∀ a s s', P s → step a s = Some s' → P s') →
  reachable d h ins s → P s.
Proof. intros H0 Hstep [acts Hrun]. by eapply run_invariant. Qed.

Ltac step_cases H :=
  unfold step in H;
  match type of H with
  | match panicked ?s with _ => _ end = _ => destruct (panicked s); [done|]
  end;
  match type of H with
  | match ?a with AMain _ => _ | ATask _ _ => _ end = _ =>
      destruct a; [unfold main_step in H|unfold task_step in H]
  end;
  repeat case_match; simplify_eq;
  repeat match goal with
  | H : updateNodeStatus _ _ _ = Returns _ |- _ =>
      apply updateNodeStatus_Returns in H;
      destruct H as (? & ? & ? & ? & ? & ? & ? & ? & ? & ?)
  | H : notifyNodeIO _ _ _ _ = Returns _ |- _ =>
      apply notifyNodeIO_Returns in H;
      destruct H as (? & ? & ? & ? & ? & ? & ?)
  | H : close _ = Returns _ |- _ =>
      unfold close in H; case_match; simplify_eq
  end.

Lemma frame_step d a s s' : frame d s → step a s = Some s' → frame d s'.
Proof.
  intros [Hg Hn Hm Hc] Hstep. step_cases Hstep.
  all: split; simpl; congruence.
Qed.

Lemma frame_reachable d h ins s : reachable d h ins s → frame d s.
Proof.
  apply (reachable_invariant (frame d)); [by split|apply frame_step].
Qed.

Lemma ctl_inv_step a s s' : ctl_inv s → step a s = Some s' → ctl_inv s'.
Proof.
  intros [Herr Hmain] Hstep. step_cases Hstep.
  all: unfold ctl_inv, final_return, cycle_return in *; simpl in *.
  all: try match goal with
       | Hm : tasks ?s = [] ∧ _, Hi : tasks ?s !! _ = Some _ |- _ =>
           destruct Hm as [Hm ?]; rewrite Hm in Hi; done
       | Hm : Forall _ (tasks ?s) ∧ _, Hi : tasks ?s !! _ = Some _ |- _ =>
           destruct Hm as [Hm ?]; eapply Forall_lookup_1 in Hm; [|exact Hi]; done
       end.
  all: repeat match goal with
       | Hm : main ?s = _ |- context [main ?s] => rewrite Hm
       | He : execErr ?s = Some _ |- context [execErr ?s] => rewrite He
       | He : execErr ?s = None |- context [execErr ?s] => rewrite He
       end.
  all: try (split; [done|]); try done.
  all: try (split; [by rewrite last_snoc|done]).
  all: try match goal with
       | Hm : tasks ?s = [] ∧ errLog ?s = [] |- _ =>
           destruct Hm as [-> ->]; split; [done|]; by left
       end.
  all: split; [done|]; by right.
Qed.

Lemma ctl_inv_reachable d h ins s : reachable d h ins s → ctl_inv s.
Proof.
  apply (reachable_invariant ctl_inv); [by split|apply ctl_inv_step].
Qed.

Lemma slots_inv_reachable d h ins s : wf d → reachable d h ins s → slots_inv s.
Proof.
  intros Hwf. apply (reachable_invariant slots_inv); [|apply slots_inv_step].
  apply slots_inv_init. intros id Hid. by apply (wf_status d Hwf) in Hid.
Qed.

Lemma GetLeafNodes_frame d1 d2 :
  graph d1 = graph d2 → nodes d1 = nodes d2 → GetLeafNodes d1 = GetLeafNodes d2.
Proof. intros Hg Hn. unfold GetLeafNodes, lookupID. by rewrite Hg, Hn. Qed.

Lemma lookup_foldl_final (outs m : gmap string (list string)) (l : list string) id :
  foldl (λ m id, <[id := default [] (outs !! id)]> m) m l !! id =
    if decide (id ∈ l) then Some (default [] (outs !! id)) else m !! id.
Proof.
  revert m. induction l as [|x l IH]; intros m; cbn [foldl].
  - destruct (decide (id ∈ [])) as [Hin|_]; [|done]. by apply not_elem_of_nil in Hin.
  - rewrite IH. destruct (decide (id ∈ l)) as [Hin|Hnin].
    + destruct (decide (id ∈ x :: l)) as [_|Hn]; [done|]. destruct Hn. by right.
    + destruct (decide (x = id)) as [->|Hne].
      * destruct (decide (id ∈ id :: l)) as [_|Hn]; [|destruct Hn; left].
        by rewrite lookup_insert_eq.
      * destruct (decide (id ∈ x :: l)) as [[?|?]%elem_of_cons|_]; [done..|].
        by rewrite lookup_insert_ne.
Qed.

Lemma lookup_collect_final (outs : gmap string (list string)) (l : list string) id :
  collect_final outs l !! id =
    if decide (id ∈ l) then Some (default [] (outs !! id)) else None.
Proof. unfold collect_final. by rewrite lookup_foldl_final, lookup_empty. Qed.

(** C6.  In every state of an execution the identifiers whose status is
    [Running] are no more than [maxConcurrent]: each of them has a task that
    is past [updateNodeStatus(id, Running)] and before the call that
    publishes its final status, that task holds a token of [sem], which it
    took before the first call and gives back after the second, and the
    tokens held are as many as the channel contains. *)
Theorem running_within_bound (d : DAG) (h : gmap loc node.Node)
    (ins : gmap NodeID (list string)) (s : state) :
  built d → reachable d h ins s →
  Z.of_nat (size (running_ids (st_dag s))) ≤ Z.max 0 (maxConcurrent d)
  ∧ (∀ id, nodeStatus (st_dag s) !! id = Some Running →
       ∃ i pc, tasks s !! i = Some (id, pc) ∧ in_run (id, pc) ∧ holds_slot (id, pc))
  ∧ sem s = length (filter holds_slot (tasks s)).
Proof.
  intros Hb Hr. pose proof (slots_inv_reachable d h ins s (built_wf d Hb) Hr) as Hinv.
  pose proof (frame_reachable d h ins s Hr) as Hf.
  split_and!.
  - pose proof (running_ids_bound s Hinv) as Hle. destruct Hinv as [_ Hcap _].
    rewrite <- (frame_maxConcurrent d s Hf). lia.
  - intros id Hid. destruct (inv_run s Hinv id Hid) as (i & [id' pc] & Hi & ? & Hrun).
    simpl in *. subst id'. exists i, pc. split_and!; try done.
    unfold in_run, holds_slot in *. simpl in *. destruct pc; done.
  - apply (inv_sem s Hinv).
Qed.


(** What the loop over [GetLeafNodes] computes.  On success the keys of the
    terminal outputs are the identifiers bound to a graph node without
    outgoing edge, in the graph as it was built; every such identifier that
    has an entry in the output table has the same entry in the terminal
    outputs; and when all of them have one, the terminal outputs are the
    restriction of the output table to them. *)
Theorem terminal_outputs_leaves (d : DAG) (h : gmap loc node.Node)
    (ins : gmap NodeID (list string)) (s : state)
    (outs fin : gmap NodeID (list string)) :
  built d → reachable d h ins s →
  main s = MReturned {| ret_outputs := Some outs; ret_finalOutputs := Some fin;
                        ret_err := None |} →
  dom fin = leaf_ids d
  ∧ (∀ id v, id ∈ leaf_ids d → outs !! id = Some v → fin !! id = Some v)
  ∧ (leaf_ids d ⊆ dom outs →
       fin = filter (λ kv : NodeID * list string, kv.1 ∈ leaf_ids d) outs).
Proof.
  intros Hb Hr Hm. destruct (ctl_inv_reachable d h ins s Hr) as [_ Hmain].
  pose proof (frame_reachable d h ins s Hr) as [Hg Hn _ _].
  pose proof (built_wf d Hb) as Hwf.
  rewrite Hm in Hmain. destruct Hmain as [_ [(? & _)|(Hret & _ & _)]]; [done|].
  unfold final_return in Hret. destruct (execErr s); [done|].
  injection Hret as -> ->. rewrite (GetLeafNodes_frame _ d Hg Hn).
  assert (∀ id, collect_final (outputs s) (GetLeafNodes d) !! id =
            if decide (id ∈ leaf_ids d) then Some (default [] (outputs s !! id)) else None)
    as Hfin.
  { intros id. rewrite lookup_collect_final.
    destruct (decide (id ∈ GetLeafNodes d)) as [Hin|Hnin].
    - rewrite decide_True; [done|]. by apply elem_of_GetLeafNodes.
    - rewrite decide_False; [done|]. by rewrite <- elem_of_GetLeafNodes. }
  split_and!.
  - apply set_eq. intros id. rewrite elem_of_dom, Hfin.
    destruct (decide (id ∈ leaf_ids d)); split; try done; by intros [? ?].
  - intros id v Hid Hv. by rewrite Hfin, decide_True, Hv.
  - intros Hsub. apply map_eq. intros id. rewrite Hfin.
    destruct (decide (id ∈ leaf_ids d)) as [Hin|Hnin].
    + destruct (outputs s !! id) as [v|] eqn:Hv.
      * symmetry. by apply map_lookup_filter_Some.
      * apply Hsub, elem_of_dom in Hin as [? ?]. congruence.
    + symmetry. apply map_lookup_filter_None. right. intros v _. done.
Qed.

(** Every return of [Execute] but the one that follows a failed sort comes
    after both channels are closed. *)
Lemma returned_closed d h ins s r :
  reachable d h ins s → main s = MReturned r →
  (r = cycle_return ∧ tasks s = [])
  ∨ (closed (statusChan (st_dag s)) = true ∧ closed (ioChan (st_dag s)) = true).
Proof.
  intros Hr Hm. destruct (ctl_inv_reachable d h ins s Hr) as [_ Hmain].
  rewrite Hm in Hmain. destruct Hmain as [_ [(? & _ & ?)|(_ & ? & ?)]]; eauto.
Qed.

(** With a cycle in the graph the only step from the entry of [Execute] is
    the return of the sort's error: the store is untouched, no task exists. *)
Lemma cyclic_first_step d h ins a s' :
  cyclic (graph d) → step a (exec_init d h ins) = Some s' →
  s' = with_main (MReturned cycle_return) (exec_init d h ins).
Proof.
  intros Hc%cyclic_Sort_fails Hstep. unfold step in Hstep. simpl in Hstep.
  destruct a as [sorted|i order]; [|done].
  unfold main_step in Hstep. simpl in Hstep. rewrite Hc in Hstep. by simplify_eq.
Qed.

Lemma cyclic_returns d h ins sorted :
  cyclic (graph d) →
  step (AMain sorted) (exec_init d h ins)
    = Some (with_main (MReturned cycle_return) (exec_init d h ins)).
Proof.
  intros Hc%cyclic_Sort_fails. unfold step, main_step. simpl. by rewrite Hc.
Qed.

(** C10, as the code has it.  [AddEdge] has no test for a self-loop, but the
    graph library has: on a registered identifier given twice the call
    panics in [SetEdge], with the store as it was.  An edge between two
    distinct registered identifiers is always accepted, so cycles of two
    nodes or more can be built; with such a cycle in the graph [Execute]
    returns the error of the sort and nothing else happens: no task is
    started, no status changes. *)
Theorem self_loop_panics_cycle_caught :
  (∀ d id, is_Some (nodes d !! id) →
     AddEdge id id d = (d, Panics "simple: adding self edge"))
  ∧ (∀ d from to, built d → from ≠ to →
       is_Some (nodes d !! from) → is_Some (nodes d !! to) →
       (AddEdge from to d).2 = Returns None)
  ∧ (∀ d h ins sorted, cyclic (graph d) →
       step (AMain sorted) (exec_init d h ins)
         = Some (with_main (MReturned cycle_return) (exec_init d h ins)))
  ∧ (∀ d h ins a s', cyclic (graph d) → step a (exec_init d h ins) = Some s' →
       s' = with_main (MReturned cycle_return) (exec_init d h ins)).
Proof.
  split_and!.
  - intros d id [x Hx]. by eapply AddEdge_self.
  - intros d from to Hb. apply AddEdge_distinct. by apply built_wf.
  - apply cyclic_returns.
  - apply cyclic_first_step.
Qed.

End exec_facts.

(** ** Executions in which the loop over [sorted] ends first *)

Module seeded_facts.
Import dag graph_facts store_facts exec_facts.

Lemma run_seeded_invariant (P : state → Prop) :
  (∀ a s s', P s → seeded_first a s = true → step a s = Some s' → P s') →
  ∀ acts s s', P s → run_seeded acts s = Some s' → P s'.
Proof.
  intros Hstep acts. induction acts as [|a acts IH]; intros s s' HP Hrun; simpl in Hrun.
  - by simplify_eq.
  - destruct (seeded_first a s) eqn:Hq; [|done].
    destruct (step a s) as [s1|] eqn:Hs; [|done]. eauto.
Qed.

Lemma run_seeded_run acts s s' : run_seeded acts s = Some s' → run acts s = Some s'.
Proof.
  revert s. induction acts as [|a acts IH]; intros s Hrun; simpl in *; [done|].
  destruct (seeded_first a s); [|done]. destruct (step a s); [|done]. eauto.
Qed.

Lemma reachable_seeded_reachable d h ins s :
  reachable_seeded d h ins s → reachable d h ins s.
Proof. intros [acts Hrun]. exists acts. by apply run_seeded_run. Qed.

Lemma fst_insert_task (ts : list (string * task_pc)) i id pc pc' :
  ts !! i = Some (id, pc) → (<[i := (id, pc')]> ts).*1 = ts.*1.
Proof.
  intros Hi. rewrite list_fmap_insert. simpl. apply list_insert_id.
  by rewrite list_lookup_fmap, Hi.
Qed.

Lemma ready_ids_spec d x id :
  id ∈ ready_ids d x ↔ nodes d !! id = Some x ∧ inDegree_of d id = 0.
Proof.
  unfold ready_ids. rewrite list_elem_of_fmap. split.
  - intros ([id' y] & -> & [[Hy Hz] Hin]%list_elem_of_filter). simpl in *. subst y.
    split; [|done]. by apply elem_of_map_to_list.
  - intros [Hx Hz]. exists (id, x). split; [done|]. apply list_elem_of_filter.
    split; [done|]. by apply elem_of_map_to_list.
Qed.

Lemma ready_ids_NoDup d x : NoDup (ready_ids d x).
Proof.
  unfold ready_ids. eapply NoDup_fmap_fst.
  - intros id y1 y2 [_ H1]%list_elem_of_filter [_ H2]%list_elem_of_filter.
    apply elem_of_map_to_list in H1, H2. congruence.
  - apply NoDup_filter, NoDup_map_to_list.
Qed.

Lemma Sort_returns_NoDup g sorted : topo.Sort_returns g sorted → NoDup sorted.
Proof.
  unfold topo.Sort_returns, topo.orders.
  intros [_ Hp%permutations_Permutation]%list_elem_of_filter.
  rewrite <- Hp. apply NoDup_elements.
Qed.

Lemma fst_spawned (ids : list string) : (map (λ id, (id, PSpawned)) ids).*1 = ids.
Proof. induction ids as [|x ids IH]; simpl; [done|]. by f_equal. Qed.

Lemma inDegree_of_insert d (m : gmap string Z) id k id' :
  inDegree_of (with_inDegree (<[id := k]> (inDegree d)) d) id' =
    if decide (id = id') then k else inDegree_of d id'.
Proof.
  unfold inDegree_of. simpl. rewrite lookup_insert. by case_decide.
Qed.

Lemma single_inv_step a s s' :
  ctl_inv s → single_inv s → seeded_first a s = true → step a s = Some s' → single_inv s'.
Proof.
  intros [_ Hctl] [Hnd Hz Hrest] Hq Hstep. step_cases Hstep.
  all: unfold seeded_first in Hq; simpl in *.
  all: repeat match goal with
       | Hm : main ?s = _ |- _ => rewrite Hm in *
       end; try done.
  all: split; simpl.
  all: repeat match goal with
       | Hi : tasks _ !! _ = Some (_, _) |- context [(<[_ := (_, ?pc')]> (tasks _)).*1] =>
           rewrite (fst_insert_task _ _ _ _ pc' Hi)
       | Hm : main ?s = _ |- context [main ?s] => rewrite Hm
       end.
  all: try done.
  all: try (intros rest' [=]; done).
  all: unfold inDegree_of in *;
       repeat match goal with
       | H : inDegree ?a = _ |- context [inDegree ?a] => rewrite H
       end; try done.
  all: rewrite ?fmap_app, ?fst_spawned; simpl;
       repeat match goal with
       | Hi : tasks _ !! _ = Some (_, _) |- context [(<[_ := (_, ?pc')]> (tasks _)).*1] =>
           rewrite (fst_insert_task _ _ _ _ pc' Hi)
       end.
  (* the sort is over *)
  1: { intros rest [= <-]. split; [by eapply Sort_returns_NoDup|].
       destruct Hctl as [-> _]. intros id x Hin. by apply not_elem_of_nil in Hin. }
  (* one pass of the loop *)
  1: { destruct (Hrest _ eq_refl) as [Hnd' Hfresh].
       apply NoDup_app. split_and!; [done| |apply ready_ids_NoDup].
       intros id Hid [Hx _]%ready_ids_spec. eapply Hfresh; [done..|left]. }
  1: { intros id [Hid|[_ Hz']%ready_ids_spec]%elem_of_app; [by apply Hz|].
       unfold inDegree_of in Hz'. lia. }
  1: { intros rest [= <-]. destruct (Hrest _ eq_refl) as [Hnd' Hfresh].
       apply NoDup_cons in Hnd' as [Hz' Hnd']. split; [done|].
       intros id x [Hid|[Hx _]%ready_ids_spec]%elem_of_app Hx'.
       - intros Hin. eapply Hfresh; [done..|by right].
       - by simplify_eq. }
  (* a successor is released and started *)
  all: try (apply NoDup_app; split_and!; [done| |apply NoDup_singleton];
            intros id Hid ->%list_elem_of_singleton; apply Hz in Hid; lia).
  all: intros id Hid; rewrite lookup_insert;
       match goal with
       | |- context [decide (?a = ?b)] => destruct (decide (a = b))
       end; simpl; subst; try lia.
  all: try (apply elem_of_app in Hid as [Hid|Hid%list_elem_of_singleton]; [|congruence]).
  all: apply Hz in Hid; lia.
Qed.

Lemma single_inv_reachable d h ins s : reachable_seeded d h ins s → single_inv s.
Proof.
  intros Hr.
  assert (ctl_inv s ∧ single_inv s) as [_ ?]; [|done].
  destruct Hr as [acts Hrun]. revert Hrun.
  apply (run_seeded_invariant (λ s, ctl_inv s ∧ single_inv s)).
  - intros a s1 s2 [Hc Hs] Hq Hstep. split; [by eapply ctl_inv_step|by eapply single_inv_step].
  - split; [by split|]. split; simpl; [apply NoDup_nil_2|by intros ? ?%not_elem_of_nil|done].
Qed.

Lemma NoDup_task_index (ts : list (string * task_pc)) i j id pc pc' :
  NoDup ts.*1 → ts !! i = Some (id, pc) → ts !! j = Some (id, pc') → i = j.
Proof.
  intros Hnd Hi Hj. eapply NoDup_lookup; [done| |].
  - by rewrite list_lookup_fmap, Hi.
  - by rewrite list_lookup_fmap, Hj.
Qed.

Lemma hist_ok_goto ts (H H' : string → list NodeStatus) i id pc pc' ev :
  NoDup ts.*1 → ts !! i = Some (id, pc) → hist_ok ts H →
  (∀ id', H' id' = if decide (id = id') then H id ++ ev else H id') →
  (hist_of pc (H id) → hist_of pc' (H id ++ ev)) →
  hist_ok (<[i := (id, pc')]> ts) H'.
Proof.
  intros Hnd Hi Hok HH' Hpc id'. rewrite (fst_insert_task _ _ _ _ pc' Hi), HH'.
  destruct (Hok id') as [Hout Hin]. split.
  - intros Hid. destruct (decide (id = id')) as [<-|]; [|by apply Hout].
    destruct Hid. apply list_elem_of_fmap. exists (id, pc). split; [done|].
    by eapply list_elem_of_lookup_2.
  - intros j pcj Hj. destruct (decide (j = i)) as [->|Hne].
    + rewrite list_lookup_insert_eq in Hj by (by eapply lookup_lt_Some).
      simplify_eq. rewrite decide_True by done. apply Hpc. by eapply Hin.
    + rewrite list_lookup_insert_ne in Hj by done.
      destruct (decide (id = id')) as [<-|]; [|by eapply Hin].
      destruct Hne. by eapply NoDup_task_index.
Qed.

Lemma hist_ok_spawn ts (H : string → list NodeStatus) ids :
  hist_ok ts H → (∀ id, id ∈ ids → id ∉ ts.*1) →
  hist_ok (ts ++ map (λ id, (id, PSpawned)) ids) H.
Proof.
  intros Hok Hfresh id. destruct (Hok id) as [Hout Hin]. split.
  - rewrite fmap_app. intros Hid. apply Hout. intros ?. apply Hid, elem_of_app. by left.
  - intros j pc Hj. apply lookup_app_Some in Hj as [Hj|[_ Hj]]; [by eapply Hin|].
    rewrite list_lookup_fmap in Hj.
    destruct (ids !! (j - length ts)%nat) as [id'|] eqn:Hid'; simplify_eq/=.
    apply Hout, Hfresh. by eapply list_elem_of_lookup_2.
Qed.

Lemma status_history_publish s s' id st id' :
  received (statusChan (st_dag s'))
    = received (statusChan (st_dag s)) ++ [{| ns_ID := id; ns_Status := st |}] →
  status_history id' s' =
    if decide (id = id') then status_history id s ++ [st] else status_history id' s.
Proof.
  intros Hr. unfold status_history. rewrite Hr, filter_app, fmap_app.
  rewrite filter_cons, filter_nil. simpl.
  destruct (decide (id = id')) as [<-|Hne]; simpl; [done|]. by rewrite app_nil_r.
Qed.

Lemma status_history_same s s' id :
  received (statusChan (st_dag s')) = received (statusChan (st_dag s)) →
  status_history id s' = status_history id s.
Proof. intros Hr. unfold status_history. by rewrite Hr. Qed.

Lemma hist_inv_step a s s' :
  ctl_inv s → single_inv s → hist_inv s →
  seeded_first a s = true → step a s = Some s' → hist_inv s'.
Proof.
  intros [_ Hctl] [Hnd Hz Hrest] Hh Hq Hstep. unfold hist_inv in *. step_cases Hstep.
  all: unfold seeded_first in Hq; simpl in *.
  all: repeat match goal with
       | Hm : main ?s = _ |- _ => rewrite Hm in *
       end; try done.
  (* one pass of the loop over [sorted] *)
  1: { apply hist_ok_spawn; [done|]. intros id [Hx _]%ready_ids_spec Hid.
       destruct (Hrest _ eq_refl) as [_ Hfresh]. eapply Hfresh; [done..|left]. }
  (* a successor is started *)
  all: try (apply (hist_ok_spawn _ _ [_]);
            [|intros id ->%list_elem_of_singleton;
              erewrite fst_insert_task by done;
              intros Hid%Hz; unfold inDegree_of in *; lia]).
  all: match goal with
       | Hr : received (statusChan ?a) = _ ++ [{| ns_ID := _; ns_Status := ?st |}]
         |- hist_ok (<[_ := _]> _) _ =>
           eapply (hist_ok_goto _ _ _ _ _ _ _ [st]);
           [exact Hnd|eassumption|exact Hh
           |intros id'; by apply status_history_publish|simpl]
       | |- hist_ok (<[_ := _]> _) _ =>
           eapply (hist_ok_goto _ _ _ _ _ _ _ []);
           [exact Hnd|eassumption|exact Hh
           |intros id'; rewrite app_nil_r;
            destruct (decide (_ = id')); subst;
            apply status_history_same; simpl; congruence
           |simpl; rewrite app_nil_r]
       end.
  all: try (intros ->; simpl; by eauto).
  all: done.
Qed.

Lemma seeded_invariants d h ins s :
  wf d → reachable_seeded d h ins s → ctl_inv s ∧ single_inv s ∧ hist_inv s.
Proof.
  intros Hwf [acts Hrun]. revert Hrun.
  apply (run_seeded_invariant (λ s, ctl_inv s ∧ single_inv s ∧ hist_inv s)).
  - intros a s1 s2 (Hc & Hs & Hh) Hq Hstep. split_and!.
    + by eapply ctl_inv_step.
    + by eapply single_inv_step.
    + by eapply hist_inv_step.
  - split_and!.
    + by split.
    + split; simpl; [apply NoDup_nil_2|by intros ? ?%not_elem_of_nil|done].
    + intros id. unfold status_history. simpl. rewrite (wf_received d Hwf).
      split; [done|]. intros i pc Hi. by rewrite lookup_nil in Hi.
Qed.

(** X22.  When the loop over [sorted] is over before any task moves, no
    node is started twice: no two tasks have the same identifier. *)
Lemma seeded_single_dispatch d h ins s :
  built d → reachable_seeded d h ins s → NoDup (tasks s).*1.
Proof.
  intros Hb Hr. by destruct (seeded_invariants d h ins s (built_wf d Hb) Hr) as (_ & [? _ _] & _).
Qed.

(** X23.  When the loop over [sorted] is over before any task moves, the
    statuses published for a node are a beginning of [Running, Completed]
    or of [Running, Error]. *)
Lemma seeded_status_monotonic d h ins s id :
  built d → reachable_seeded d h ins s →
  status_history id s = [] ∨ status_history id s = [Running]
  ∨ status_history id s = [Running; Completed]
  ∨ status_history id s = [Running; Error].
Proof.
  intros Hb Hr.
  destruct (seeded_invariants d h ins s (built_wf d Hb) Hr) as (_ & _ & Hh).
  destruct (Hh id) as [Hout Hin].
  destruct (decide (id ∈ (tasks s).*1)) as [Hid|Hid]; [|by left; apply Hout].
  apply list_elem_of_fmap in Hid as ([id' pc] & -> & Hid).
  apply list_elem_of_lookup in Hid as [i Hi]. specialize (Hin i pc Hi). simpl in *.
  destruct pc; simpl in Hin; try destruct Hin; eauto.
Qed.

Lemma released_in_lookup N S ts p y :
  released_in N S ts p y ↔
  ∃ j id pc, ts !! j = Some (id, pc) ∧ N !! id = Some p ∧ passed S (id, pc) y.
Proof.
  unfold released_in. rewrite Exists_exists. split.
  - intros ([id pc] & [j Hj]%list_elem_of_lookup & ? & ?). eauto 10.
  - intros (j & id & pc & Hj & ? & ?). exists (id, pc). split; [|done].
    by eapply list_elem_of_lookup_2.
Qed.

Lemma released_in_app N S ts l p y :
  released_in N S ts p y → released_in N S (ts ++ l) p y.
Proof. unfold released_in. rewrite Exists_app. by left. Qed.

Lemma released_in_spawned N S ts ids p y :
  released_in N S (ts ++ map (λ id, (id, PSpawned)) ids) p y → released_in N S ts p y.
Proof.
  unfold released_in. rewrite Exists_app. intros [?|He]; [done|].
  apply Exists_exists in He as (t & Ht & _ & Hp).
  apply list_elem_of_fmap in Ht as (id & -> & _). done.
Qed.

(** A move of task [i] that keeps what it has gone past, with or without a
    new status for its identifier. *)
Lemma released_in_goto N S S' ts i id pc pc' p y :
  NoDup ts.*1 → ts !! i = Some (id, pc) →
  (∀ id', id' ≠ id → S' !! id' = S !! id') →
  (passed S (id, pc) y → passed S' (id, pc') y) →
  released_in N S ts p y → released_in N S' (<[i := (id, pc')]> ts) p y.
Proof.
  intros Hnd Hi HS Hpc. rewrite !released_in_lookup.
  intros (j & id' & pcj & Hj & HN & Hp). destruct (decide (j = i)) as [->|Hne].
  - simplify_eq. do 3 eexists. split_and!; [|done|by apply Hpc].
    apply list_lookup_insert_eq. by eapply lookup_lt_Some.
  - exists j, id', pcj. rewrite list_lookup_insert_ne by done. split_and!; [done..|].
    assert (id' ≠ id) as Hid.
    { intros ->. apply Hne. symmetry. by eapply NoDup_task_index. }
    unfold passed in *. simpl in *. destruct pcj; try done; by rewrite HS.
Qed.

(** The converse, for a move that takes the task past nothing new. *)
Lemma released_in_goto_inv N S S' ts i id pc pc' p y :
  NoDup ts.*1 → ts !! i = Some (id, pc) →
  (∀ id', id' ≠ id → S' !! id' = S !! id') →
  (passed S' (id, pc') y → passed S (id, pc) y) →
  released_in N S' (<[i := (id, pc')]> ts) p y → released_in N S ts p y.
Proof.
  intros Hnd Hi HS Hpc. rewrite !released_in_lookup.
  intros (j & id' & pcj & Hj & HN & Hp). destruct (decide (j = i)) as [->|Hne].
  - rewrite list_lookup_insert_eq in Hj by (by eapply lookup_lt_Some). simplify_eq.
    do 3 eexists. split_and!; [exact Hi|done|by apply Hpc].
  - rewrite list_lookup_insert_ne in Hj by done.
    exists j, id', pcj. split_and!; [done..|].
    assert (id' ≠ id) as Hid.
    { intros ->. apply Hne. symmetry. by eapply NoDup_task_index. }
    unfold passed in *. simpl in *. destruct pcj; try done; by rewrite <- HS.
Qed.

Lemma lookup_goto_app (ts extra : list (string * task_pc)) i id pc pc' j t :
  ts !! i = Some (id, pc) →
  (<[i := (id, pc')]> ts ++ extra) !! j = Some t →
  (j = i ∧ t = (id, pc')) ∨ (j ≠ i ∧ ts !! j = Some t) ∨ t ∈ extra.
Proof.
  intros Hi Hj. apply lookup_app_Some in Hj as [Hj|[_ Hj]].
  - destruct (decide (j = i)) as [->|Hne].
    + rewrite list_lookup_insert_eq in Hj by (by eapply lookup_lt_Some). left. by simplify_eq.
    + rewrite list_lookup_insert_ne in Hj by done. right. by left.
  - right. right. by eapply list_elem_of_lookup_2.
Qed.

Lemma lookup_goto (ts : list (string * task_pc)) i id pc pc' j t :
  ts !! i = Some (id, pc) →
  <[i := (id, pc')]> ts !! j = Some t →
  (j = i ∧ t = (id, pc')) ∨ (j ≠ i ∧ ts !! j = Some t).
Proof.
  intros Hi Hj. destruct (lookup_goto_app ts [] i id pc pc' j t Hi) as [?|[?|Hn]]; eauto.
  - by rewrite app_nil_r.
  - by apply not_elem_of_nil in Hn.
Qed.

Lemma sched_simple_step a s s' :
  single_inv s → sched_inv s → seeded_first a s = true → step a s = Some s' →
  (∀ i id pc, tasks s' !! i = Some (id, pc) →
     match pc with PCompleted _ _ | PNotified | PReleasing _ => True | _ => False end →
     nodeStatus (st_dag s') !! id = Some Completed)
  ∧ (∀ i id todo x, tasks s' !! i = Some (id, PReleasing todo) →
       nodes (st_dag s') !! id = Some x →
       NoDup todo ∧ ∀ z, z ∈ todo → z ∈ simple.From (graph (st_dag s')) x)
  ∧ (∀ i id pc, tasks s' !! i = Some (id, pc) →
       committed (nodeStatus (st_dag s')) (id, pc) → is_Some (outputs s' !! id)).
Proof.
  intros [Hnd Hz Hrest] [_ Hcomp Htodo Hout] Hq Hstep. step_cases Hstep.
  all: unfold seeded_first in Hq; simpl in *.
  all: repeat match goal with
       | Hm : main ?s = _ |- _ => rewrite Hm in *
       end; try done.
  all: repeat match goal with
       | H : nodeStatus ?a = _ |- _ => rewrite H in *; clear H
       | H : nodes ?a = _ |- _ => rewrite H in *; clear H
       | H : graph ?a = _ |- _ => rewrite H in *; clear H
       end.
  all: split_and!; intros j id'; intros.
  (* the tasks started by the loop over [sorted] or by a task *)
  all: try match goal with
       | Hj : (_ ++ map _ _) !! _ = Some _ |- _ =>
           apply lookup_app_Some in Hj as [Hj|[_ Hj]];
           [|rewrite list_lookup_fmap in Hj;
             destruct (_ !! _) in Hj; simplify_eq/=; done]
       | Hi : tasks ?s !! ?i = Some _, Hj : (<[?i := _]> (tasks ?s) ++ _) !! _ = Some _ |- _ =>
           apply (lookup_goto_app _ _ _ _ _ _ _ _ Hi) in Hj
             as [[-> ?]|[[? Hj]|Hj%list_elem_of_singleton]]; simplify_eq/=; try done
       | Hi : tasks ?s !! ?i = Some _, Hj : <[?i := _]> (tasks ?s) !! _ = Some _ |- _ =>
           apply (lookup_goto _ _ _ _ _ _ _ Hi) in Hj
             as [[-> ?]|[? Hj]]; simplify_eq/=; try done
       end.
  all: try (by eauto).
  (* another task: its identifier is not the one of task [i] *)
  all: try match goal with
       | Hi : tasks ?s !! ?i = Some (?id, _), Hj : tasks ?s !! ?j = Some (?id', _),
         Hne : ?j ≠ ?i |- _ =>
           assert (id' ≠ id)
             by (intros ->; apply Hne; by eapply NoDup_task_index);
           unfold committed in *; simpl in *;
           rewrite ?lookup_insert_ne in * by done
       end.
  all: try (by eauto).
  all: try (apply lookup_insert_is_Some; destruct (decide (_ = _)); by eauto).
  all: try (by rewrite lookup_insert_eq).
  all: try (eapply Hout; [done|]; unfold committed; simpl; by eauto).
  all: try match goal with
       | Hc : committed (<[_ := Error]> _) _ |- _ =>
           unfold committed in Hc; simpl in Hc; by rewrite lookup_insert_eq in Hc
       | He : simple.enumerates ?order _ |- NoDup ?order ∧ _ =>
           let Hp := fresh in
           pose proof He as Hp; unfold simple.enumerates in Hp;
           apply permutations_Permutation in Hp; split;
           [rewrite <- Hp; apply NoDup_elements
           |intros w Hw; rewrite <- Hp in Hw; by apply elem_of_elements in Hw]
       | Hi : tasks ?s !! _ = Some (_, PReleasing (_ :: ?l)) |- NoDup ?l ∧ _ =>
           destruct (Htodo _ _ _ _ Hi ltac:(eassumption)) as [[_ ?]%NoDup_cons Hsub];
           split; [done|]; intros w Hw; apply Hsub; by right
       end.
Qed.

Lemma released_step a s s' p y :
  single_inv s → sched_inv s → step a s = Some s' →
  released s p y → released s' p y.
Proof.
  intros [Hnd Hz Hrest] [_ Hcomp Htodo Hout] Hstep Hrel. unfold released in *.
  step_cases Hstep; simpl in *.
  all: repeat match goal with
       | H : nodeStatus ?a = _ |- _ => rewrite H in *; clear H
       | H : nodes ?a = _ |- _ => rewrite H in *; clear H
       | H : graph ?a = _ |- _ => rewrite H in *; clear H
       end.
  all: try done.
  all: try apply released_in_app; try done.
  all: eapply released_in_goto; [exact Hnd|eassumption| | |exact Hrel].
  all: try (intros id' Hid'; by rewrite ?lookup_insert_ne).
  all: unfold passed; simpl; try done.
  all: try (intros Hn Hin; apply Hn; by right).
  all: intros _; by eapply Hcomp.
Qed.

Lemma unreleased_mono s s' y :
  graph (st_dag s') = graph (st_dag s) →
  (∀ p, released s p y → released s' p y) →
  unreleased s' y ⊆ unreleased s y.
Proof.
  intros Hg Hmono p. unfold unreleased. rewrite !elem_of_filter, Hg.
  intros [Hn Hp]. split; [|done]. intros Hr. by apply Hn, Hmono.
Qed.

Lemma graph_step a s s' : step a s = Some s' → graph (st_dag s') = graph (st_dag s).
Proof.
  intros Hstep. destruct (frame_step (st_dag s) a s s') as [Hg _ _ _]; [by split|done..].
Qed.

Lemma nodes_step a s s' : step a s = Some s' → nodes (st_dag s') = nodes (st_dag s).
Proof.
  intros Hstep. destruct (frame_step (st_dag s) a s s') as [_ Hn _ _]; [by split|done..].
Qed.

(** The only step that changes a counter: a pass of the successor loop over
    a successor that is bound to an identifier. *)
Lemma inDegree_step a s s' :
  step a s = Some s' →
  inDegree (st_dag s') = inDegree (st_dag s)
  ∨ ∃ i id z rest toID,
      tasks s !! i = Some (id, PReleasing (z :: rest))
      ∧ lookupID (st_dag s) z = Some toID
      ∧ inDegree (st_dag s')
          = <[toID := inDegree_of (st_dag s) toID - 1]> (inDegree (st_dag s))
      ∧ tasks s' !! i = Some (id, PReleasing rest)
      ∧ nodeStatus (st_dag s') = nodeStatus (st_dag s).
Proof.
  intros Hstep. step_cases Hstep; simpl.
  all: try (left; congruence).
  all: right; do 5 eexists; split_and!; try done; simpl.
  all: try apply lookup_app_l_Some.
  all: apply list_lookup_insert_eq; by eapply lookup_lt_Some.
Qed.

Lemma sched_counter_step a s s' :
  (∀ id1 id2 x, nodes (st_dag s) !! id1 = Some x → nodes (st_dag s) !! id2 = Some x →
     id1 = id2) →
  (∀ id, id ∈ (tasks s).*1 → is_Some (nodes (st_dag s) !! id)) →
  single_inv s → sched_inv s → step a s = Some s' →
  ∀ b y, nodes (st_dag s') !! b = Some y →
    Z.of_nat (size (unreleased s' y)) ≤ inDegree_of (st_dag s') b.
Proof.
  intros Hinj Hreg Hsi Hsc Hstep b y. rewrite (nodes_step _ _ _ Hstep). intros Hb.
  pose proof (graph_step _ _ _ Hstep) as Hg.
  pose proof (nodes_step _ _ _ Hstep) as Hn.
  assert (unreleased s' y ⊆ unreleased s y) as Hsub.
  { apply unreleased_mono; [done|]. intros p. by eapply released_step. }
  pose proof (sched_counter s Hsc b y Hb) as Hold.
  destruct (inDegree_step _ _ _ Hstep)
    as [Hsame|(i & id & z & rest & toID & Hi & Hto & Hdeg & Hi' & Hst)].
  - unfold inDegree_of in *. rewrite Hsame. apply subseteq_size in Hsub. lia.
  - unfold inDegree_of in *. rewrite Hdeg, lookup_insert.
    destruct (decide (toID = b)) as [->|Hne]; simpl;
      [|apply subseteq_size in Hsub; lia].
    apply lookupID_Some in Hto. assert (z = y) as -> by congruence.
    destruct (Hreg id) as [x Hx].
    { apply list_elem_of_fmap. exists (id, PReleasing (y :: rest)).
      split; [done|]. by eapply list_elem_of_lookup_2. }
    destruct (sched_todo s Hsc i id _ x Hi Hx) as [[Hy Hnd']%NoDup_cons Hfrom].
    assert (x ∈ unreleased s y) as Hin.
    { apply elem_of_filter. split.
      - intros (j & id' & pc' & Hj & Hx' & Hp)%released_in_lookup.
        assert (id' = id) as -> by (by eapply Hinj).
        assert (j = i) as ->.
        { eapply NoDup_task_index; [apply Hsi|exact Hj|exact Hi]. }
        simplify_eq. unfold passed in Hp. simpl in Hp. apply Hp. by left.
      - apply elem_of_To, elem_of_From, Hfrom. by left. }
    assert (x ∉ unreleased s' y) as Hout.
    { intros [Hnr _]%elem_of_filter. apply Hnr. apply released_in_lookup.
      exists i, id, (PReleasing rest). rewrite Hn. split_and!; done. }
    assert (unreleased s' y ⊆ unreleased s y ∖ {[x]}) as Hsub'.
    { intros w Hw. apply elem_of_difference. split; [by apply Hsub|].
      intros ->%elem_of_singleton. done. }
    apply subseteq_size in Hsub'.
    assert (size (unreleased s y) = S (size (unreleased s y ∖ {[x]}))) as Hsz.
    { rewrite (union_difference_singleton_L x (unreleased s y) Hin) at 1.
      rewrite size_union, size_singleton; [done|].
      intros w ->%elem_of_singleton [_ Hw]%elem_of_difference.
      apply Hw. by apply elem_of_singleton. }
    lia.
Qed.

Lemma tasks_inv_step d a s s' : tasks_inv d s → step a s = Some s' → tasks_inv d s'.
Proof.
  intros [Hreg Hst] Hstep. step_cases Hstep; simpl in *.
  all: split; simpl.
  all: repeat match goal with
       | H : nodeStatus ?a = _ |- context [nodeStatus ?a] => rewrite H
       | H : nodes ?a = _ |- context [nodes ?a] => rewrite H
       end.
  all: rewrite ?fmap_app, ?fst_spawned; simpl;
       repeat match goal with
       | Hi : tasks _ !! _ = Some (_, _) |- context [(<[_ := (_, ?pc')]> (tasks _)).*1] =>
           rewrite (fst_insert_task _ _ _ _ pc' Hi)
       end; try done.
  all: try (intros id [Hid|[Hx _]%ready_ids_spec]%elem_of_app; by eauto).
  all: try (intros id [Hid|Hid%list_elem_of_singleton]%elem_of_app; [by eauto|];
            subst id;
            match goal with
            | H : lookupID _ _ = Some _ |- _ => apply lookupID_Some in H; by eauto
            end).
  all: try (intros id Hid%not_elem_of_app; apply Hst; by destruct Hid).
  all: intros id Hid; rewrite lookup_insert_ne; [by apply Hst|];
       intros ->; apply Hid, list_elem_of_fmap;
       eexists (_, _); split; [done|]; by eapply list_elem_of_lookup_2.
Qed.

Lemma seeded_sched_invariants d h ins s :
  wf d → reachable_seeded d h ins s →
  frame d s ∧ ctl_inv s ∧ single_inv s ∧ hist_inv s ∧ sched_inv s ∧ tasks_inv d s.
Proof.
  intros Hwf [acts Hrun]. revert Hrun.
  apply (run_seeded_invariant
           (λ s, frame d s ∧ ctl_inv s ∧ single_inv s ∧ hist_inv s ∧ sched_inv s
                 ∧ tasks_inv d s)).
  - intros a s1 s2 (Hf & Hc & Hs & Hh & Hsc & Ht) Hq Hstep. split_and!.
    + by eapply frame_step.
    + by eapply ctl_inv_step.
    + by eapply single_inv_step.
    + by eapply hist_inv_step.
    + destruct (sched_simple_step a s1 s2 Hs Hsc Hq Hstep) as (H1 & H2 & H3).
      split; [|done..]. eapply sched_counter_step; try done.
      * intros id1 id2 x. rewrite (frame_nodes d s1 Hf). apply (nodes_inj d Hwf).
      * apply (tasks_registered d s1 Ht).
    + by eapply tasks_inv_step.
  - split_and!.
    + by split.
    + by split.
    + split; simpl; [apply NoDup_nil_2|by intros ? ?%not_elem_of_nil|done].
    + intros id. unfold status_history. simpl. rewrite (wf_received d Hwf).
      split; [done|]. intros i pc Hi. by rewrite lookup_nil in Hi.
    + split; simpl; try (intros *; by rewrite lookup_nil).
      intros b y Hb. etrans; [|by apply (wf_inDegree d Hwf)].
      apply inj_le, subseteq_size. unfold unreleased. simpl.
      intros p [_ Hp]%elem_of_filter. done.
    + split; simpl; [by intros ? ?%not_elem_of_nil|done].
Qed.

(** When the loop over [sorted] is over before any task moves: a node that
    has a task has all the predecessors of its graph node gone past it. *)
Lemma seeded_preds_released d h ins s b y p :
  built d → reachable_seeded d h ins s →
  b ∈ (tasks s).*1 → nodes d !! b = Some y → p ∈ simple.To (graph d) y →
  released s p y.
Proof.
  intros Hb Hr Hin Hy Hp.
  destruct (seeded_sched_invariants d h ins s (built_wf d Hb) Hr)
    as (Hf & _ & Hsi & _ & Hsc & _).
  pose proof (single_zero s Hsi b Hin) as Hz.
  rewrite <- (frame_nodes d s Hf) in Hy. rewrite <- (frame_graph d s Hf) in Hp.
  pose proof (sched_counter s Hsc b y Hy) as Hc.
  destruct (decide (released s p y)) as [|Hn]; [done|].
  assert (p ∈ unreleased s y) as Hu by (by apply elem_of_filter).
  assert (size (unreleased s y) = 0%nat) as Hs%size_empty_inv by lia.
  by apply Hs in Hu.
Qed.

(** ... so that every predecessor is bound to an identifier whose output is
    in the table. *)
Lemma seeded_inputs_committed d h ins s b y p :
  built d → reachable_seeded d h ins s →
  b ∈ (tasks s).*1 → nodes d !! b = Some y → p ∈ simple.To (graph d) y →
  ∃ pid, nodes d !! pid = Some p ∧ lookupID (st_dag s) p = Some pid
       ∧ is_Some (outputs s !! pid).
Proof.
  intros Hb Hr Hin Hy Hp.
  pose proof (seeded_preds_released d h ins s b y p Hb Hr Hin Hy Hp) as Hrel.
  destruct (seeded_sched_invariants d h ins s (built_wf d Hb) Hr)
    as (Hf & _ & _ & _ & Hsc & _).
  apply released_in_lookup in Hrel as (j & pid & pc & Hj & Hpid & Hpass).
  exists pid. rewrite <- (frame_nodes d s Hf). split_and!; [done| |].
  - unfold lookupID. rewrite (frame_nodes d s Hf).
    apply (lookupID_complete d); [by apply built_wf|].
    by rewrite <- (frame_nodes d s Hf).
  - eapply (sched_outputs s Hsc); [done|].
    unfold passed, committed in *. simpl in *. by destruct pc.
Qed.

(** X24.  When the loop over [sorted] is over before any task moves, no
    node reached from a node that has failed is ever started: it has no
    task, nothing is published for it and its status is still [Pending]. *)
Lemma seeded_failed_blocks d h ins s a x b y :
  built d → reachable_seeded d h ins s →
  nodes d !! a = Some x → nodeStatus (st_dag s) !! a = Some Error →
  tc (λ u v, (u, v) ∈ simple.g_edges (graph d)) x y → nodes d !! b = Some y →
  (b ∉ (tasks s).*1) ∧ status_history b s = []
  ∧ nodeStatus (st_dag s) !! b = Some Pending.
Proof.
  intros Hb Hr Hx Herr Hpath Hy.
  pose proof (built_wf d Hb) as Hwf.
  destruct (seeded_sched_invariants d h ins s Hwf Hr)
    as (Hf & _ & Hsi & Hh & Hsc & Ht).
  assert (∀ b, nodes d !! b = Some y → b ∉ (tasks s).*1) as Hnone.
  { clear b Hy. revert y Hpath.
    apply (tc_ind_r (λ y, ∀ b, nodes d !! b = Some y → b ∉ (tasks s).*1)).
    - intros y Hxy b Hy Hin.
      assert (x ∈ simple.To (graph d) y) as Hp by (by apply elem_of_To).
      pose proof (seeded_preds_released d h ins s b y x Hb Hr Hin Hy Hp) as Hrel.
      apply released_in_lookup in Hrel as (j & id & pc & Hj & Hid & Hpass).
      rewrite (frame_nodes d s Hf) in Hid.
      assert (id = a) as -> by (by eapply (nodes_inj d Hwf)).
      unfold passed in Hpass. simpl in Hpass.
      destruct pc; try done; try congruence.
      pose proof (sched_completed s Hsc j a _ Hj I). congruence.
    - intros y' y _ Hy'y IH b Hy Hin.
      assert (y' ∈ simple.To (graph d) y) as Hp by (by apply elem_of_To).
      pose proof (seeded_preds_released d h ins s b y y' Hb Hr Hin Hy Hp) as Hrel.
      apply released_in_lookup in Hrel as (j & id & pc & Hj & Hid & Hpass).
      rewrite (frame_nodes d s Hf) in Hid. apply (IH id Hid).
      apply list_elem_of_fmap. exists (id, pc). split; [done|].
      by eapply list_elem_of_lookup_2. }
  specialize (Hnone b Hy). split_and!; [done| |].
  - by apply (Hh b).
  - rewrite (tasks_status d s Ht b Hnone). apply (wf_registered d Hwf). by eexists.
Qed.

Lemma Execute_inputs n : node.inputs (node.Execute n).1 = node.inputs n.
Proof.
  destruct n as [name ins outs f|name ins outs c]; simpl.
  - unfold node.TextNode_Execute. by destruct (f ins).
  - unfold node.LLMNode_Execute. destruct ins as [|p [|q ins]]; try done.
    destruct (decide _); [done|]. by destruct (c p).
Qed.

Lemma SetInputs_inputs ins n : node.inputs (node.SetInputs ins n) = ins.
Proof. by destruct n. Qed.

(** X25.  When the loop over [sorted] is over before any task moves, the
    slice handed to [SetInputs] is the caller's input for the node followed
    by the entry of every predecessor in the output table, none of them
    missing. *)
Lemma seeded_SetInputs d h ins s i b order s' x :
  built d → reachable_seeded d h ins s →
  tasks s !! i = Some (b, PRunning) → nodes d !! b = Some x →
  step (ATask i order) s = Some s' → panicked s' = None →
  simple.enumerates order (simple.To (graph d) x)
  ∧ (∃ l n, nodeMap d !! b = Some l ∧ heap s' !! l = Some n
          ∧ node.inputs n = collect_inputs s b order)
  ∧ (∀ p, p ∈ order →
       ∃ pid, nodes d !! pid = Some p ∧ lookupID (st_dag s) p = Some pid
            ∧ is_Some (outputs s !! pid)).
Proof.
  intros Hb Hr Hi Hx Hstep Hp.
  destruct (seeded_sched_invariants d h ins s (built_wf d Hb) Hr)
    as ([Hg Hn Hm _] & _).
  unfold step in Hstep. destruct (panicked s); [done|].
  unfold task_step in Hstep. rewrite Hi, Hm, Hn, Hx, Hg in Hstep.
  destruct (nodeMap d !! b) as [l|]; [|by simplify_eq].
  destruct (heap s !! l) as [n|]; [|by simplify_eq].
  destruct (decide _) as [He|]; [|done].
  assert (∃ n', heap s' !! l = Some n'
                ∧ node.inputs n' = collect_inputs s b order) as Hheap.
  { pose proof (Execute_inputs (node.SetInputs (collect_inputs s b order) n)) as Hins.
    rewrite SetInputs_inputs in Hins.
    destruct (node.Execute _) as [n' [e|]]; simplify_eq/=;
      exists n'; by rewrite lookup_insert_eq. }
  split_and!; [done|destruct Hheap as (n' & ? & ?); eauto|].
  intros p Hin. eapply (seeded_inputs_committed d h ins s b x p); try done.
  - apply list_elem_of_fmap. exists (b, PRunning). split; [done|].
    by eapply list_elem_of_lookup_2.
  - unfold simple.enumerates in He. apply permutations_Permutation in He.
    rewrite <- He in Hin. by apply elem_of_elements in Hin.
Qed.

End seeded_facts.

(** ** Executions: what holds under every schedule *)

Module exec_laws.
Import dag graph_facts store_facts exec_facts seeded_facts store_laws.

(** The successor loop and [mu] *)

Lemma filter_in_loop_spawned (ids : list string) :
  filter in_loop (map (λ id, (id, PSpawned)) ids) = [].
Proof.
  induction ids as [|x ids IH]; [done|]. simpl. rewrite filter_cons.
  destruct (decide (in_loop (x, PSpawned))) as [[]|]. done.
Qed.

Lemma filter_goto_length (P : string * task_pc → Prop) `{!∀ x, Decision (P x)}
    (ts : list (string * task_pc)) i id pc pc' :
  ts !! i = Some (id, pc) →
  (length (filter P (<[i := (id, pc')]> ts)) + (if decide (P (id, pc)) then 1 else 0) =
   length (filter P ts) + (if decide (P (id, pc')) then 1 else 0))%nat.
Proof. apply filter_insert_length. Qed.

Lemma loop_inv_step a s s' : loop_inv s → step a s = Some s' → loop_inv s'.
Proof.
  unfold loop_inv. intros Hinv Hstep. step_cases Hstep; simpl in *.
  all: try congruence.
  all: rewrite ?filter_app, ?length_app, ?filter_in_loop_spawned, ?(filter_in_loop_spawned [_]);
       simpl; rewrite ?Nat.add_0_r; try done.
  all: match goal with
       | Hi : tasks _ !! _ = Some (_, ?pc)
         |- context [<[_ := (_, ?pc')]> (tasks _)] =>
           let Hc := fresh in
           pose proof (filter_goto_length in_loop _ _ _ _ pc' Hi) as Hc;
           destruct (decide (in_loop (_, pc))) as [Hp|Hp] in Hc;
           destruct (decide (in_loop (_, pc'))) as [Hp'|Hp'] in Hc;
           unfold in_loop in Hp, Hp'; simpl in Hp, Hp'; try done; try lia
       end.
Qed.

(** What a step does to the tasks and to the statuses *)

Lemma step_shape a s s' :
  step a s = Some s' →
  (received (statusChan (st_dag s')) = received (statusChan (st_dag s))
   ∧ nodeStatus (st_dag s') = nodeStatus (st_dag s)
   ∧ ((∃ ids, tasks s' = tasks s ++ map (λ id, (id, PSpawned)) ids)
      ∨ (∃ i id pc pc' ids, tasks s !! i = Some (id, pc) ∧ flows pc pc'
           ∧ publishes pc = None
           ∧ tasks s' = <[i := (id, pc')]> (tasks s) ++ map (λ id, (id, PSpawned)) ids)))
  ∨ (∃ i id pc pc' st, tasks s !! i = Some (id, pc) ∧ flows pc pc'
       ∧ publishes pc = Some st
       ∧ tasks s' = <[i := (id, pc')]> (tasks s)
       ∧ received (statusChan (st_dag s'))
           = received (statusChan (st_dag s)) ++ [{| ns_ID := id; ns_Status := st |}]
       ∧ nodeStatus (st_dag s') = <[id := st]> (nodeStatus (st_dag s))).
Proof.
  intros Hstep. step_cases Hstep; simpl in *.
  all: try (left; split; [done|]; split; [done|]; left; by exists []; rewrite app_nil_r).
  all: try (left; split; [done|]; split; [done|]; left; by eexists).
  all: match goal with
       | Hi : tasks _ !! ?i = Some (?id, ?pc) |- context [<[?i := (?id, ?pc')]> _] =>
           first
             [ right; exists i, id, pc, pc'; eexists; split_and!; [exact Hi|done..]
             | left; split; [congruence|]; split; [congruence|]; right;
               exists i, id, pc, pc';
               first [ exists []; rewrite app_nil_r; split_and!; [exact Hi|done..]
                     | match goal with |- context [_ ++ [(?x, PSpawned)]] => exists [x] end;
                       split_and!; [exact Hi|done..] ] ]
       end.
Qed.

(** The statuses *)

Lemma lookup_spawned (ids : list string) j (t : string * task_pc) :
  map (λ id, (id, PSpawned)) ids !! j = Some t → t.2 = PSpawned.
Proof.
  intros Hj. apply list_elem_of_lookup_2, list_elem_of_fmap in Hj as (id & -> & _). done.
Qed.

Lemma elem_of_spawned (ids : list string) (t : string * task_pc) :
  t ∈ map (λ id, (id, PSpawned)) ids → t.2 = PSpawned ∧ t.1 ∈ ids.
Proof. intros (id & -> & Hid)%list_elem_of_fmap. done. Qed.

Lemma status_inv_step d a s s' : status_inv d s → step a s = Some s' → status_inv d s'.
Proof.
  intros [Hev Hstart Hfirst Htab] Hstep.
  destruct (step_shape a s s' Hstep)
    as [(Hr & Hn & Ht)|(i & id & pc & pc' & st & Hi & Hfl & Hpub & Ht & Hr & Hn)].
  - assert (∀ id, status_history id s' = status_history id s) as Hh.
    { intros id. by apply status_history_same. }
    split.
    + rewrite Hr. done.
    + intros j id pc Hj Hs. rewrite Hh.
      destruct Ht as [[ids Ht]|(i & id0 & pc0 & pc' & ids & Hi & Hfl & Hpub & Ht)];
        rewrite Ht in Hj.
      * apply lookup_app_Some in Hj as [Hj|[_ Hj]]; [by eauto|].
        apply lookup_spawned in Hj. by destruct Hs.
      * destruct (lookup_goto_app _ _ _ _ _ _ _ _ Hi Hj) as [[-> [= -> ->]]|[[_ Hj']|Hj']].
        -- apply (Hstart i id0 pc0 Hi). destruct Hs as [Hs1 Hs2]. simpl in *.
           split; simpl; intros ->; destruct pc'; simpl in *; done.
        -- by eauto.
        -- apply elem_of_spawned in Hj' as [Hj' _]. by destruct Hs.
    + intros id st. rewrite Hh. apply Hfirst.
    + intros id. rewrite Hn, Hh. apply Htab.
  - assert (st ≠ Pending) as Hst by (destruct pc; simpl in Hpub; by simplify_eq).
    assert (∀ id', status_history id' s' =
              if decide (id = id') then status_history id s ++ [st] else status_history id' s)
      as Hh.
    { intros id'. by apply status_history_publish. }
    split.
    + rewrite Hr. intros e [He|He%list_elem_of_singleton]%elem_of_app; [by apply Hev|].
      by subst e.
    + intros j id' pc0 Hj Hs. rewrite Hh. rewrite Ht in Hj.
      destruct (lookup_goto _ _ _ _ _ _ _ Hi Hj) as [[-> [= -> ->]]|[_ Hj']].
      * rewrite decide_True by done. by destruct (status_history id s).
      * specialize (Hstart j id' pc0 Hj' Hs). destruct (decide (id = id')) as [->|]; [|done].
        by destruct (status_history id' s).
    + intros id' st'. rewrite Hh. destruct (decide (id = id')) as [<-|]; [|apply Hfirst].
      destruct (status_history id s) as [|st0 l] eqn:Hl; simpl.
      * intros [= <-]. destruct pc; simpl in Hpub; simplify_eq; try done.
        all: exfalso; apply (Hstart i id _ Hi); [by split|exact Hl].
      * intros [= <-]. apply (Hfirst id). by rewrite Hl.
    + intros id'. rewrite Hn, Hh, lookup_insert. destruct (decide (id = id')) as [<-|].
      * by rewrite last_snoc.
      * apply Htab.
Qed.

Lemma status_inv_reachable d h ins s :
  received (statusChan d) = [] → reachable d h ins s → status_inv d s.
Proof.
  intros Hr. apply (reachable_invariant (status_inv d)); [|apply status_inv_step].
  split; unfold status_history; simpl; rewrite ?Hr; try done.
  by intros e ?%not_elem_of_nil.
Qed.

(** What a step does to the node objects, the outputs, the error and the
    records *)

Lemma step_effect a s s' :
  step a s = Some s' →
  inputs s' = inputs s
  ∧ ((∃ ids, tasks s' = tasks s ++ map (λ id, (id, PSpawned)) ids ∧ same_locals s s')
     ∨ (∃ i id pc pc' ids, tasks s !! i = Some (id, pc) ∧ flows pc pc'
          ∧ tasks s' = <[i := (id, pc')]> (tasks s) ++ map (λ id, (id, PSpawned)) ids
          ∧ task_effect s id pc pc' s')).
Proof.
  intros Hstep. unfold step in Hstep. destruct (panicked s); [done|].
  destruct a as [sorted|i order].
  - unfold main_step in Hstep. repeat case_match; simplify_eq; simpl.
    all: split; [done|]; left.
    all: try (exists []; rewrite app_nil_r; split; [done|]; unfold same_locals; simpl;
              unfold close in *; repeat case_match; simplify_eq; by simpl).
    eexists. split; [done|]. by unfold same_locals.
  - unfold task_step in Hstep.
    destruct (tasks s !! i) as [[id pc]|] eqn:Hi; [|done].
    destruct pc; repeat case_match; simplify_eq; simpl.
    all: repeat match goal with
         | H : updateNodeStatus _ _ _ = Returns _ |- _ =>
             apply updateNodeStatus_Returns in H;
             destruct H as (? & ? & ? & ? & ? & ? & ? & ? & ? & ?)
         | H : notifyNodeIO _ _ _ _ = Returns _ |- _ =>
             unfold notifyNodeIO, send in H; case_match; simplify_eq
         end.
    all: split; [done|].
    all: try (left; exists []; rewrite app_nil_r; split; [done|]; unfold same_locals;
              simpl; split_and!; congruence).
    all: right.
    all: match goal with
         | Hi : tasks _ !! ?i = Some (?id, ?pc)
           |- context [<[?i := (?id, ?pc')]> (tasks _) ++ [(?x, PSpawned)]] =>
             exists i, id, pc, pc', [x]; split; [exact Hi|]
         | Hi : tasks _ !! ?i = Some (?id, ?pc)
           |- context [<[?i := (?id, ?pc')]> (tasks _)] =>
             exists i, id, pc, pc', []; rewrite ?app_nil_r; split; [exact Hi|]
         end.
    all: split; [done|]; split; [done|].
    all: unfold task_effect, same_locals; simpl; try (split_and!; congruence).
    all: try done.
    all: try match goal with
         | Hl : heap _ !! ?l = Some ?n, He : node.Execute (node.SetInputs (collect_inputs _ _ ?o) ?n) = _
           |- _ => exists l, n, o; rewrite He; simpl; done
         end.
    destruct (closed (ioChan (st_dag s))); simplify_eq. done.
Qed.

(** The data *)

Lemma same_kind_refl n : same_kind n n.
Proof. by destruct n. Qed.

Lemma same_kind_Execute n0 n ins :
  same_kind n0 n →
  (node.Execute (node.SetInputs ins n0)).2 = (node.Execute (node.SetInputs ins n)).2
  ∧ ((node.Execute (node.SetInputs ins n)).2 = None →
       node.GetOutputs (node.Execute (node.SetInputs ins n0)).1
         = node.GetOutputs (node.Execute (node.SetInputs ins n)).1)
  ∧ same_kind n0 (node.Execute (node.SetInputs ins n)).1.
Proof.
  destruct n0 as [name0 i0 o0 f0|name0 i0 o0 c0], n as [name i o f|name i o c];
    simpl; try done; intros [-> ->].
  - unfold node.TextNode_Execute. destruct (f ins); simpl; done.
  - unfold node.LLMNode_Execute. destruct ins as [|p [|q ins]]; simpl; try done.
    destruct (decide _); simpl; [done|]. destruct (c p); simpl; done.
Qed.

Lemma collect_inputs_prefix s id order :
  default [] (inputs s !! id) `prefix_of` collect_inputs s id order.
Proof. unfold collect_inputs. by eexists. Qed.

Lemma task_data_goto d h ins0 (ts : list (string * task_pc)) i id pc pc' ids :
  ts !! i = Some (id, pc) →
  (∀ j t, ts !! j = Some t → task_data d h ins0 t) →
  task_data d h ins0 (id, pc') →
  ∀ j t, (<[i := (id, pc')]> ts ++ map (λ id, (id, PSpawned)) ids) !! j = Some t →
         task_data d h ins0 t.
Proof.
  intros Hi Hts Hnew j t Hj.
  destruct (lookup_goto_app _ _ _ _ _ _ _ _ Hi Hj) as [[_ ->]|[[_ Hj']|Hj']]; [done|by eauto|].
  apply elem_of_spawned in Hj' as [Hj' _]. unfold task_data. by rewrite Hj'.
Qed.

Lemma data_inv_step d h ins0 a s s' :
  frame d s → data_inv d h ins0 s → step a s = Some s' → data_inv d h ins0 s'.
Proof.
  intros Hf [Hin Hheap Hunb Htasks Hio Hout Herr] Hstep.
  destruct (step_effect a s s' Hstep) as [Hin' Heff].
  destruct Heff as [(ids & Ht & Hh & Ho & He & _ & Hr)
                   |(i & id & pc & pc' & ids & Hi & Hfl & Ht & Heff)].
  { split; try congruence.
    - intros l. rewrite Hh. apply Hheap.
    - intros l Hl. rewrite Hh. by apply Hunb.
    - rewrite Ht. intros j t [Hj|[_ Hj]]%lookup_app_Some; [by eauto|].
      apply lookup_spawned in Hj. unfold task_data. by rewrite Hj.
    - by rewrite Hr.
    - by rewrite Ho.
    - by rewrite He. }
  pose proof (Htasks i _ Hi) as Hold. unfold task_data in Hold. simpl in Hold.
  destruct pc; simpl in Heff; unfold same_locals in Heff.
  all: try (destruct Heff as (Hh & Ho & He & _ & Hr);
            split; [congruence
                   |intros l; rewrite Hh; apply Hheap
                   |intros l Hl; rewrite Hh; by apply Hunb
                   |rewrite Ht; eapply task_data_goto; [done..|];
                    unfold task_data; destruct pc'; simpl in *; try done;
                    by destruct Hfl as [<- <-]
                   |rewrite Hr; done
                   |rewrite Ho; done
                   |rewrite He; done]).
  - (* the node is executed *)
    destruct Heff as (l & n & order & Hl & Hn & Hh & Hpc & Ho & He & _ & Hr).
    rewrite (frame_nodeMap d s Hf) in Hl.
    pose proof (Hheap l) as Hk. rewrite Hn in Hk.
    destruct (h !! l) as [n0|] eqn:Hn0; [|done].
    destruct (same_kind_Execute n0 n (collect_inputs s id order) Hk) as (Hres & Hg & Hk').
    split; [congruence| | | |rewrite Hr; done|rewrite Ho; done|rewrite He; done].
    + intros l'. rewrite Hh, lookup_insert. destruct (decide (l = l')) as [<-|].
      * by rewrite Hn0.
      * apply Hheap.
    + intros l' Hl'. rewrite Hh, lookup_insert_ne; [by apply Hunb|].
      intros <-. by apply Hl' in Hl.
    + rewrite Ht; eapply task_data_goto; [done..|]. subst pc'. unfold task_data. simpl.
      destruct (node.Execute (node.SetInputs (collect_inputs s id order) n)).2 eqn:Hx.
      * exists l, n0, (collect_inputs s id order). split_and!; try done.
        rewrite <- Hin. apply collect_inputs_prefix.
      * exists l, n0. split_and!; try done.
        -- by rewrite Hg.
        -- rewrite <- Hin. apply collect_inputs_prefix.
  - (* the error is recorded *)
    destruct Heff as (Hh & Ho & He & _ & Hr).
    split; [congruence
           |intros l; rewrite Hh; apply Hheap
           |intros l Hl; rewrite Hh; by apply Hunb
           |rewrite Ht; eapply task_data_goto; [done..|]; by destruct pc'
           |rewrite Hr; done|rewrite Ho; done|].
    rewrite He. intros e' [He'|He'%list_elem_of_singleton]%elem_of_app; [by apply Herr|].
    subst e'. eauto.
  - (* the output is committed *)
    destruct Heff as (Hh & Ho & He & _ & Hr).
    split; [congruence
           |intros l; rewrite Hh; apply Hheap
           |intros l Hl; rewrite Hh; by apply Hunb
           |rewrite Ht; eapply task_data_goto; [done..|];
            unfold task_data; destruct pc'; simpl in *; try done;
            by destruct Hfl as [<- <-]
           |rewrite Hr; done| |rewrite He; done].
    intros id' outs. rewrite Ho, lookup_insert. destruct (decide (id = id')) as [<-|].
    + intros [= <-]. eauto.
    + apply Hout.
  - (* the record is published *)
    destruct Heff as (Hh & Ho & He & _ & Hr).
    split; [congruence
           |intros l; rewrite Hh; apply Hheap
           |intros l Hl; rewrite Hh; by apply Hunb
           |rewrite Ht; eapply task_data_goto; [done..|]; by destruct pc'
           | |rewrite Ho; done|rewrite He; done].
    rewrite Hr. intros e [He'|He'%list_elem_of_singleton]%elem_of_app; [by apply Hio|].
    by subst e.
  - (* a pass of the successor loop *)
    destruct Heff as (Hh & Ho & He & _ & Hr).
    split; [congruence
           |intros l; rewrite Hh; apply Hheap
           |intros l Hl; rewrite Hh; by apply Hunb
           |rewrite Ht; eapply task_data_goto; [done..|]; destruct todo, pc'; simpl in Hfl; done
           |rewrite Hr; done|rewrite Ho; done|rewrite He; done].
Qed.

(** Outputs and errors against statuses *)

Lemma outputs_step a s s' id :
  step a s = Some s' → is_Some (outputs s !! id) → is_Some (outputs s' !! id).
Proof.
  intros Hstep Hid. destruct (step_effect a s s' Hstep) as [_ Heff].
  destruct Heff as [(ids & _ & _ & -> & _)|(i & id' & pc & pc' & ids & Hi & _ & _ & Heff)];
    [done|].
  destruct pc; simpl in Heff; unfold same_locals in Heff.
  all: try (destruct Heff as (_ & -> & _); done).
  - destruct Heff as (l & n & order & _ & _ & _ & _ & -> & _). done.
  - destruct Heff as (_ & -> & _). rewrite lookup_insert. by case_decide.
Qed.

Lemma errLog_step a s s' :
  step a s = Some s' → errLog s ≠ [] → errLog s' ≠ [].
Proof.
  intros Hstep Hne. destruct (step_effect a s s' Hstep) as [_ Heff].
  destruct Heff as [(ids & _ & _ & _ & -> & _)|(i & id' & pc & pc' & ids & Hi & _ & _ & Heff)];
    [done|].
  destruct pc; simpl in Heff; unfold same_locals in Heff.
  all: try (destruct Heff as (_ & _ & -> & _); done).
  - destruct Heff as (l & n & order & _ & _ & _ & _ & _ & -> & _). done.
  - destruct Heff as (_ & _ & -> & _). by destruct (errLog s).
Qed.

Lemma history_step a s s' id st :
  step a s = Some s' → st ∈ status_history id s → st ∈ status_history id s'.
Proof.
  intros Hstep Hst.
  destruct (step_shape a s s' Hstep)
    as [(Hr & _)|(i & id' & pc & pc' & st' & _ & _ & _ & _ & Hr & _)].
  - by rewrite (status_history_same s s' id Hr).
  - rewrite (status_history_publish s s' _ _ id Hr). case_decide; [|done].
    subst. apply elem_of_app. by left.
Qed.

Lemma history_step_nil a s s' id :
  step a s = Some s' → status_history id s ≠ [] → status_history id s' ≠ [].
Proof.
  intros Hstep Hne. destruct (status_history id s) as [|st l] eqn:Hl; [done|].
  assert (st ∈ status_history id s') as Hin.
  { eapply history_step; [done|]. rewrite Hl. left. }
  intros Heq. rewrite Heq in Hin. by apply not_elem_of_nil in Hin.
Qed.

Lemma outcome_inv_step d a s s' :
  status_inv d s → outcome_inv s → step a s = Some s' → outcome_inv s'.
Proof.
  intros Hst [Hcom Hcpl Hsta Hrec Herr Hpen] Hstep.
  pose proof (step_effect a s s' Hstep) as [_ Heff].
  pose proof (step_shape a s s' Hstep) as Hsh.
  split.
  - intros j id ins outs Hj.
    destruct Heff as [(ids & Ht & _)|(i & id' & pc & pc' & ids & Hi & Hfl & Ht & Heff)];
      rewrite Ht in Hj.
    + apply lookup_app_Some in Hj as [Hj|[_ Hj]].
      * eapply outputs_step; [done|]. by eapply Hcom.
      * by apply lookup_spawned in Hj.
    + destruct (lookup_goto_app _ _ _ _ _ _ _ _ Hi Hj) as [[-> Heq]|[[_ Hj']|Hj']]; simplify_eq.
      * destruct pc as [| | | | | | | | |[|]| |]; simpl in Hfl; try done.
        simpl in Heff. destruct Heff as (_ & -> & _).
        by rewrite lookup_insert_eq.
      * eapply outputs_step; [done|]. by eapply Hcom.
      * by apply elem_of_spawned in Hj' as [? _].
  - intros id Hid.
    destruct Hsh as [(Hr & _)|(i & id' & pc & pc' & st & Hi & Hfl & Hpub & _ & Hr & _)].
    + rewrite (status_history_same s s' id Hr) in Hid.
      eapply outputs_step; [done|]. by apply Hcpl.
    + rewrite (status_history_publish s s' _ _ id Hr) in Hid.
      eapply outputs_step; [done|].
      destruct (decide (id' = id)) as [->|]; [|by apply Hcpl].
      apply elem_of_app in Hid as [Hid|Hid%list_elem_of_singleton]; [by apply Hcpl|].
      subst st. destruct pc; simpl in Hpub; simplify_eq. by eapply Hcom.
  - intros id Hid.
    destruct Heff as [(ids & _ & _ & Ho & _)|(i & id' & pc & pc' & ids & Hi & Hfl & Ht & Heff)].
    { rewrite Ho in Hid. eapply history_step_nil; [done|]. by apply Hsta. }
    destruct pc; simpl in Heff; unfold same_locals in Heff.
    all: try (destruct Heff as (_ & Ho & _); rewrite Ho in Hid;
              eapply history_step_nil; [done|]; by apply Hsta).
    + destruct Heff as (l & n & order & _ & _ & _ & _ & Ho & _). rewrite Ho in Hid.
      eapply history_step_nil; [done|]. by apply Hsta.
    + destruct Heff as (_ & Ho & _). rewrite Ho, lookup_insert in Hid.
      eapply history_step_nil; [done|].
      destruct (decide (id' = id)) as [->|]; [|by apply Hsta].
      eapply (st_started d s Hst); [exact Hi|]. by split.
  - intros j id Hj.
    destruct Heff as [(ids & Ht & _)|(i & id' & pc & pc' & ids & Hi & Hfl & Ht & Heff)];
      rewrite Ht in Hj.
    + apply lookup_app_Some in Hj as [Hj|[_ Hj]].
      * eapply errLog_step; [done|]. by eapply Hrec.
      * by apply lookup_spawned in Hj.
    + destruct (lookup_goto_app _ _ _ _ _ _ _ _ Hi Hj) as [[-> Heq]|[[_ Hj']|Hj']]; simplify_eq.
      * destruct pc as [| | | | | | | | |[|]| |]; simpl in Hfl; try done.
        simpl in Heff. destruct Heff as (_ & _ & -> & _).
        by destruct (errLog s).
      * eapply errLog_step; [done|]. by eapply Hrec.
      * by apply elem_of_spawned in Hj' as [? _].
  - intros id Hid.
    destruct Hsh as [(Hr & _)|(i & id' & pc & pc' & st & Hi & Hfl & Hpub & _ & Hr & _)].
    + rewrite (status_history_same s s' id Hr) in Hid.
      eapply errLog_step; [done|]. by eapply Herr.
    + rewrite (status_history_publish s s' _ _ id Hr) in Hid.
      eapply errLog_step; [done|].
      destruct (decide (id' = id)) as [->|]; [|by eapply Herr].
      apply elem_of_app in Hid as [Hid|Hid%list_elem_of_singleton]; [by eapply Herr|].
      subst st. destruct pc; simpl in Hpub; simplify_eq. by eapply Hrec.
  - intros Hne.
    assert (errLog s ≠ [] ∨ ∃ i id, tasks s' !! i = Some (id, PErrRecorded)) as [Hold|Hnew].
    { destruct Heff as [(ids & _ & _ & _ & He & _)
                       |(i & id' & pc & pc' & ids & Hi & Hfl & Ht & Heff)].
      { left. by rewrite <- He. }
      destruct pc; simpl in Heff; unfold same_locals in Heff.
      all: try (destruct Heff as (_ & _ & He & _); left; by rewrite <- He).
      - destruct Heff as (l & n & order & _ & _ & _ & _ & _ & He & _). left.
        by rewrite <- He.
      - right. exists i, id'. rewrite Ht. apply lookup_app_l_Some.
        destruct pc'; simpl in Hfl; try done.
        apply list_lookup_insert_eq. by eapply lookup_lt_Some. }
    2: by left.
    destruct (Hpen Hold) as [(i0 & id0 & Hi0)|(id0 & Hid0)].
    2: { right. exists id0. by eapply history_step. }
    destruct Hsh as [(_ & _ & [(ids & Ht)|(i & id & pc & pc' & ids & Hi & Hfl & Hpub & Ht)])
                    |(i & id & pc & pc' & st & Hi & Hfl & Hpub & Ht & Hr & _)].
    + left. exists i0, id0. rewrite Ht. by apply lookup_app_l_Some.
    + left. exists i0, id0. rewrite Ht. apply lookup_app_l_Some.
      rewrite list_lookup_insert_ne; [done|]. intros ->. by simplify_eq.
    + destruct (decide (i = i0)) as [->|Hne'].
      * rewrite Hi in Hi0. injection Hi0 as -> ->. simpl in Hpub.
        injection Hpub as <-. right. exists id0.
        rewrite (status_history_publish s s' _ _ id0 Hr), decide_True by done.
        apply elem_of_app. right. by apply list_elem_of_singleton.
      * left. exists i0, id0. rewrite Ht. by rewrite list_lookup_insert_ne.
Qed.

(** The counters *)

Lemma counter_step a s s' id :
  step a s = Some s' → inDegree_of (st_dag s') id ≤ inDegree_of (st_dag s) id.
Proof.
  intros Hstep. unfold inDegree_of.
  destruct (inDegree_step a s s' Hstep) as [->|(i & id' & z & rest & toID & _ & _ & -> & _)];
    [done|].
  rewrite lookup_insert. case_decide; simpl; [subst; unfold inDegree_of; lia|done].
Qed.

Lemma spawn_step a s s' id :
  step a s = Some s' → id ∈ (tasks s').*1 →
  id ∈ (tasks s).*1 ∨ inDegree_of (st_dag s') id = 0.
Proof.
  intros Hstep. step_cases Hstep; simpl in *.
  all: rewrite ?fmap_app, ?fst_spawned; simpl;
       repeat match goal with
       | Hi : tasks _ !! _ = Some (_, _) |- context [(<[_ := (_, ?pc')]> (tasks _)).*1] =>
           rewrite (fst_insert_task _ _ _ _ pc' Hi)
       end; try (by left).
  - intros [Hid|[_ Hz]%ready_ids_spec]%elem_of_app; [by left|by right].
  - intros [Hid|Hid%list_elem_of_singleton]%elem_of_app; [by left|]. subst id. right.
    unfold inDegree_of. simpl. by rewrite lookup_insert_eq.
Qed.

Lemma counter_inv_step d a s s' : counter_inv d s → step a s = Some s' → counter_inv d s'.
Proof.
  intros [Hle Htask] Hstep. split.
  - intros id. etrans; [by eapply counter_step|done].
  - intros id Hid. destruct (spawn_step a s s' id Hstep Hid) as [Hold|Hnew]; [|lia].
    etrans; [by eapply counter_step|by apply Htask].
Qed.

(** The value returned *)

Lemma task_step_main i order s s' :
  task_step i order s = Some s' →
  main s' = main s ∧ ∃ id pc, tasks s !! i = Some (id, pc) ∧ pc ≠ PDone.
Proof.
  unfold task_step. intros Hstep.
  destruct (tasks s !! i) as [[id pc]|] eqn:Hi; [|done].
  split; [|exists id, pc; split; [done|]; by intros ->].
  repeat case_match; simplify_eq; try done.
Qed.

Lemma ret_inv_step a s s' : ctl_inv s → ret_inv s → step a s = Some s' → ret_inv s'.
Proof.
  unfold ret_inv. intros [_ Hctl] Hinv Hstep.
  pose proof (graph_step a s s' Hstep) as Hg.
  unfold step in Hstep. destruct (panicked s); [done|]. destruct a as [sorted|i order].
  - unfold main_step in Hstep. destruct (main s) as [|[|x rest]| |r] eqn:Hm.
    + destruct (topo.Sort_fails (graph (st_dag s))) eqn:Hs.
      { simplify_eq. simpl. left. by rewrite Hs. }
      destruct (decide (topo.Sort_returns _ _)); [|done].
      destruct (decide (maxConcurrent _ < 0)); simplify_eq; simpl; [by rewrite Hm|done].
    + simplify_eq. simpl. done.
    + simplify_eq. simpl. done.
    + destruct (decide (Forall _ _)); [|done].
      unfold close in Hstep.
      destruct (closed (statusChan (st_dag s))); [simplify_eq; simpl; by rewrite Hm|].
      destruct (closed (ioChan (st_dag s))); [simplify_eq; simpl; by rewrite Hm|].
      unfold final_return.
      destruct (execErr s) eqn:He; simplify_eq; simpl; rewrite ?He; right; done.
    + done.
  - destruct (task_step_main i order s s' Hstep) as (Hm & id & pc & Hi & Hpc).
    rewrite Hm, Hg. destruct (main s) as [| | |r]; try done.
    destruct Hctl as [Hdone _]. eapply Forall_lookup_1 in Hdone; [|exact Hi]. done.
Qed.

(** Channels that are closed on entry *)

Lemma notifyNodeIO_open id ins outs d d' :
  notifyNodeIO id ins outs d = Returns d' →
  closed (ioChan d) = false ∧ statusChan d' = statusChan d ∧ graph d' = graph d.
Proof.
  unfold notifyNodeIO, send. destruct (closed (ioChan d)); [done|]. by intros [= <-].
Qed.

Lemma closed_inv_step a s s' : closed_inv s → step a s = Some s' → closed_inv s'.
Proof.
  unfold closed_inv. intros (Hc & Hs & Hm) Hstep.
  unfold step in Hstep. destruct (panicked s); [done|]. destruct a as [sorted|i order].
  - unfold main_step in Hstep. repeat case_match; simplify_eq; simpl in *.
    all: try (by destruct (Hm _ eq_refl)).
    all: try congruence.
    all: try (split_and!; [done..|]; intros r; congruence).
    all: unfold close in *; repeat case_match; simplify_eq; simpl in *.
    all: try (split_and!; [by left|done..]).
    all: try (destruct Hc; congruence).
    split_and!; [by left|done|intros r; congruence].
  - unfold task_step in Hstep. repeat case_match; simplify_eq; simpl in *.
    all: try (split_and!; [done..|]; intros r; congruence).
    all: try match goal with
         | H : updateNodeStatus _ _ _ = Returns _ |- _ =>
             apply updateNodeStatus_Returns in H;
             destruct H as (_ & _ & Hg & _ & _ & _ & Hio & _ & _ & Hopen);
             rewrite Hg, Hio; split_and!; [|done..];
             destruct Hc as [Hc|Hc]; [congruence|by right]
         | H : notifyNodeIO _ _ _ _ = Returns _ |- _ =>
             apply notifyNodeIO_open in H; destruct H as (Hopen & Hsc & Hg);
             rewrite Hg, Hsc; split_and!; [|done..];
             destruct Hc as [Hc|Hc]; [by left|congruence]
         end.
Qed.

(** No room in [sem] *)

Lemma Sort_returns_elem_of g sorted x :
  topo.Sort_returns g sorted → x ∈ simple.g_nodes g → x ∈ sorted.
Proof.
  intros [_ Hp%permutations_Permutation]%list_elem_of_filter Hx.
  rewrite <- Hp. by apply elem_of_elements.
Qed.

Lemma idle_inv_step d a s s' :
  wf d → maxConcurrent d ≤ 0 → idle_inv d s → step a s = Some s' → idle_inv d s'.
Proof.
  intros Hwf Hmc [Hts Hsem Hf Hdeg Hrc Hst Hout Hpr] Hstep.
  pose proof (frame_step d a s s' Hf Hstep) as Hf'.
  unfold step in Hstep. destruct (panicked s); [done|]. destruct a as [sorted|i order].
  - unfold main_step, seeding_progress in *.
    destruct Hf as [Hg Hn Hm Hc].
    destruct (main s) as [|[|x rest]| |r] eqn:Hmain; simpl in *.
    + rewrite Hg in Hstep. repeat case_match; simplify_eq; split; simpl; try done.
      * unfold seeding_progress. simpl. by left.
      * unfold seeding_progress. simpl. by rewrite Hmain.
      * unfold seeding_progress. simpl. intros id x Hx _. left.
        eapply Sort_returns_elem_of; [done|]. by eapply wf_nodes.
    + simplify_eq. split; simpl; try done. unfold seeding_progress. simpl.
      intros id x Hx Hz. destruct (Hpr id x Hx Hz) as [Hin|Hin]; [|done].
      by apply not_elem_of_nil in Hin.
    + simplify_eq. split; simpl; try done.
      * apply Forall_app. split; [done|]. apply Forall_forall.
        by intros t [? _]%elem_of_spawned.
      * unfold seeding_progress. simpl. intros id x0 Hx Hz.
        rewrite fmap_app, fst_spawned.
        destruct (Hpr id x0 Hx Hz) as [[->|Hin]%elem_of_cons|Hin].
        -- right. apply elem_of_app. right. apply ready_ids_spec.
           unfold inDegree_of. by rewrite Hn, Hdeg.
        -- by left.
        -- right. apply elem_of_app. by left.
    + assert (tasks s = [] → ∀ id, is_Some (nodes d !! id) → inDegree_of d id ≠ 0) as Hno.
      { intros Hnil id [x Hx] Hz. specialize (Hpr id x Hx Hz). rewrite Hnil in Hpr.
        by apply not_elem_of_nil in Hpr. }
      destruct (decide (Forall _ (tasks s))) as [Hdone|]; [|done].
      assert (tasks s = []) as Hnil.
      { destruct (tasks s) as [|t ts]; [done|].
        apply Forall_cons in Hdone as [Hd _], Hts as [Hsp _]. congruence. }
      specialize (Hno Hnil).
      unfold close in Hstep. repeat case_match; simplify_eq; split; simpl; try done.
      all: unfold seeding_progress; simpl; rewrite ?Hmain; try done; by right.
    + done.
  - unfold task_step in Hstep.
    destruct (tasks s !! i) as [[id pc]|] eqn:Hi; [|done].
    eapply Forall_lookup_1 in Hts; [|exact Hi]. simpl in Hts. subst pc.
    destruct (decide _) as [Hlt|]; [|done].
    rewrite (frame_maxConcurrent d s Hf), Hsem in Hlt. simpl in Hlt. lia.
Qed.

Lemma idle_inv_reachable d h ins s :
  wf d → maxConcurrent d ≤ 0 → reachable d h ins s → idle_inv d s.
Proof.
  intros Hwf Hmc. apply (reachable_invariant (idle_inv d)).
  - split; simpl; try done; by split.
  - intros a s1 s2. by apply idle_inv_step.
Qed.

(** A negative capacity *)

Lemma negative_capacity_states d h ins s :
  topo.Sort_fails (graph d) = false → maxConcurrent d < 0 → reachable d h ins s →
  s = exec_init d h ins ∨ s = panic "makechan: size out of range" (exec_init d h ins).
Proof.
  intros Hs Hmc.
  apply (reachable_invariant
           (λ s, s = exec_init d h ins
                 ∨ s = panic "makechan: size out of range" (exec_init d h ins))).
  { by left. }
  intros a s1 s2 Hs1 Hstep. destruct Hs1 as [Hs1|Hs1]; subst s1; [|done].
  unfold step in Hstep. simpl in Hstep. destruct a as [sorted|i order]; [|done].
  unfold main_step in Hstep. simpl in Hstep. rewrite Hs in Hstep.
  destruct (decide (topo.Sort_returns _ _)); [|done].
  destruct (decide (maxConcurrent d < 0)); [|lia]. simplify_eq. by right.
Qed.

(** Records *)

Lemma pub_inv_step a s s' : pub_inv s → step a s = Some s' → pub_inv s'.
Proof.
  intros [Htask Hio] Hstep. split.
  - intros j id ins outs Hj.
    destruct (step_shape a s s' Hstep)
      as [(_ & _ & [(ids & Ht)|(i & id' & pc & pc' & ids & Hi & Hfl & Hpub & Ht)])
         |(i & id' & pc & pc' & st & Hi & Hfl & Hpub & Ht & Hr & _)]; rewrite Ht in Hj.
    + apply lookup_app_Some in Hj as [Hj|[_ Hj]].
      * eapply history_step; [done|]. by eapply Htask.
      * by apply lookup_spawned in Hj.
    + destruct (lookup_goto_app _ _ _ _ _ _ _ _ Hi Hj) as [[-> Heq]|[[_ Hj']|Hj']];
        simplify_eq.
      * destruct pc as [| | | | | | | | |[|]| |]; simpl in Hfl, Hpub; done.
      * eapply history_step; [done|]. by eapply Htask.
      * by apply elem_of_spawned in Hj' as [? _].
    + destruct (lookup_goto _ _ _ _ _ _ _ Hi Hj) as [[-> Heq]|[_ Hj']]; simplify_eq.
      * destruct pc as [| | | | | | | | |[|]| |]; simpl in Hfl, Hpub; try done.
        simplify_eq.
        rewrite (status_history_publish s s' _ _ _ Hr), decide_True by done.
        apply elem_of_app. right. by apply list_elem_of_singleton.
      * eapply history_step; [done|]. by eapply Htask.
  - intros e He. destruct (step_effect a s s' Hstep) as [_ Heff].
    destruct Heff as [(ids & _ & _ & _ & _ & _ & Hr)
                     |(i & id & pc & pc' & ids & Hi & Hfl & Ht & Heff)].
    { rewrite Hr in He. eapply history_step; [done|]. by apply Hio. }
    destruct pc; simpl in Heff; unfold same_locals in Heff.
    all: try (destruct Heff as (_ & _ & _ & _ & Hr); rewrite Hr in He;
              eapply history_step; [done|]; by apply Hio).
    + destruct Heff as (l & n & order & _ & _ & _ & _ & _ & _ & _ & Hr). rewrite Hr in He.
      eapply history_step; [done|]. by apply Hio.
    + destruct Heff as (_ & _ & _ & _ & Hr). rewrite Hr in He.
      eapply history_step; [done|].
      apply elem_of_app in He as [He|He%list_elem_of_singleton]; [by apply Hio|].
      subst e. simpl. by eapply Htask.
Qed.

(** All together *)

Lemma filter_unique {A} (P : A → Prop) `{!∀ x, Decision (P x)} (l : list A) i j x y :
  (length (filter P l) ≤ 1)%nat → l !! i = Some x → l !! j = Some y → P x → P y → i = j.
Proof.
  revert i j. induction l as [|z l IH]; intros i j Hlen Hi Hj Hx Hy; [done|].
  rewrite filter_cons in Hlen.
  assert (∀ k w, l !! k = Some w → P w → (1 ≤ length (filter P l))%nat) as Hpos.
  { intros k w Hk Hw.
    assert (w ∈ filter P l) as Hin.
    { apply list_elem_of_filter. split; [done|]. by eapply list_elem_of_lookup_2. }
    destruct (filter P l); [by apply not_elem_of_nil in Hin|simpl; lia]. }
  destruct i as [|i], j as [|j]; simplify_eq/=; try done.
  - rewrite decide_True in Hlen by done. simpl in Hlen.
    specialize (Hpos j y Hj Hy). lia.
  - rewrite decide_True in Hlen by done. simpl in Hlen.
    specialize (Hpos i x Hi Hx). lia.
  - f_equal. apply IH; try done. destruct (decide (P z)); simpl in Hlen; lia.
Qed.

Lemma inputs_step a s s' : step a s = Some s' → inputs s' = inputs s.
Proof. intros Hstep. by destruct (step_effect a s s' Hstep). Qed.

Lemma all_inv_reachable d h ins s : built d → reachable d h ins s → all_inv d h ins s.
Proof.
  intros Hb. pose proof (built_wf d Hb) as Hwf.
  destruct (built_keys d Hb) as (_ & _ & _ & _ & Hio).
  apply (reachable_invariant (all_inv d h ins)).
  - split.
    + by split.
    + by split.
    + apply slots_inv_init. intros id Hid. by apply (wf_status d Hwf) in Hid.
    + split; unfold status_history; simpl; rewrite ?(wf_received d Hwf); try done.
      by intros e ?%not_elem_of_nil.
    + split; unfold status_history; simpl; rewrite ?(wf_received d Hwf); try done.
      all: try (intros *; by rewrite lookup_empty; intros [? ?]).
      all: try (by intros id ?%not_elem_of_nil).
    + split; simpl; rewrite ?Hio; try done.
      * intros l. destruct (h !! l); [apply same_kind_refl|done].
      * by intros e ?%not_elem_of_nil.
      * by intros e ?%not_elem_of_nil.
    + split; simpl; rewrite ?Hio; try done. by intros e ?%not_elem_of_nil.
    + done.
  - intros a s1 s2 [Hf Hc Hsl Hst Ho Hd Hp Hr] Hstep. split.
    + by eapply frame_step.
    + by eapply ctl_inv_step.
    + by eapply slots_inv_step.
    + by eapply status_inv_step.
    + by eapply outcome_inv_step.
    + by eapply data_inv_step.
    + by eapply pub_inv_step.
    + by eapply ret_inv_step.
Qed.

(** The properties *)

Lemma history_events id st s :
  st ∈ status_history id s →
  ∃ e, e ∈ received (statusChan (st_dag s)) ∧ ns_ID e = id ∧ ns_Status e = st.
Proof.
  unfold status_history. intros (e & -> & [Hid He]%list_elem_of_filter)%list_elem_of_fmap.
  eauto.
Qed.

Lemma Execute_one_output n :
  (node.Execute n).2 = None → ∃ output, node.GetOutputs (node.Execute n).1 = [output].
Proof.
  destruct n as [name ins outs f|name ins outs c]; simpl.
  - unfold node.TextNode_Execute. destruct (f ins); simpl; [by eauto|done].
  - unfold node.LLMNode_Execute. destruct ins as [|p [|q ins]]; simpl; try done.
    destruct (decide _); simpl; [done|]. destruct (c p); simpl; [by eauto|done].
Qed.

Lemma computed_produced d h ins0 id ins outs :
  computed d h ins0 id ins outs → produced d h id outs.
Proof. intros (l & n0 & ? & ? & ? & ? & _). by exists l, n0, ins. Qed.

Lemma failed_raised d h ins0 id e : failed d h ins0 id e → raised d h id e.
Proof. intros (l & n0 & ins & ? & ? & ? & _). by exists l, n0, ins. Qed.

Lemma all_done_no_runner (ts : list (string * task_pc)) id :
  Forall (λ t : string * task_pc, t.2 = PDone) ts → ¬ has_runner ts id.
Proof.
  intros Hdone (i & t & Hi & _ & Hr). eapply Forall_lookup_1 in Hdone; [|exact Hi].
  unfold in_run in Hr. by rewrite Hdone in Hr.
Qed.

Lemma all_done_filter (P : string * task_pc → Prop) `{!∀ x, Decision (P x)}
    (ts : list (string * task_pc)) :
  (∀ id, ¬ P (id, PDone)) →
  Forall (λ t : string * task_pc, t.2 = PDone) ts → filter P ts = [].
Proof.
  intros HP Hdone. induction Hdone as [|[id pc] ts Hpc _ IH]; [done|].
  simpl in Hpc. subst pc. rewrite filter_cons, decide_False by apply HP. done.
Qed.

(** X9.  Between two calls of [updateNodeStatus] the status table agrees
    with the channel, in every execution on a built store: the status of a
    node is the last one published for it, and the status it had on entry
    when none has been published. *)
Theorem status_table_agrees (d : DAG) (h : gmap loc node.Node)
    (ins : gmap NodeID (list string)) (s : state) (id : NodeID) :
  built d → reachable d h ins s →
  nodeStatus (st_dag s) !! id =
    match last (status_history id s) with
    | Some st => Some st
    | None => nodeStatus d !! id
    end.
Proof.
  intros Hb Hr. apply (st_table d s), status_inv_reachable with h ins; [|done].
  apply (wf_received d (built_wf d Hb)).
Qed.

(** X10.  Whatever the schedule: [Pending] is never published; the first
    status published for a node is [Running]; a node for which a status has
    been published is never [Pending] again; and a task that is past its
    first call of [updateNodeStatus] has [Running] among the statuses of
    its node. *)
Theorem first_event_running (d : DAG) (h : gmap loc node.Node)
    (ins : gmap NodeID (list string)) (s : state) :
  built d → reachable d h ins s →
  (∀ e, e ∈ received (GetStatusChan (st_dag s)) → ns_Status e ≠ Pending)
  ∧ (∀ id st, head (status_history id s) = Some st → st = Running)
  ∧ (∀ id, status_history id s ≠ [] → nodeStatus (st_dag s) !! id ≠ Some Pending)
  ∧ (∀ i id pc, tasks s !! i = Some (id, pc) → started (id, pc) →
       Running ∈ status_history id s).
Proof.
  intros Hb Hr.
  destruct (status_inv_reachable d h ins s (wf_received d (built_wf d Hb)) Hr)
    as [Hev Hstart Hfirst Htab].
  split_and!; try done.
  - intros id Hne. rewrite Htab.
    destruct (last (status_history id s)) as [st|] eqn:Hl.
    + intros [= ->]. apply last_Some_elem_of, history_events in Hl as (e & He & _ & Hst).
      by apply Hev in He.
    + by apply last_None in Hl.
  - intros i id pc Hi Hs. specialize (Hstart i id pc Hi Hs).
    destruct (status_history id s) as [|st l] eqn:Hl; [done|].
    rewrite (Hfirst id st); [left|by rewrite Hl].
Qed.

(** X11.  The successor loop is exclusive: [mu] is held exactly while one
    task is in the loop, and two tasks are never in it together. *)
Theorem successor_loop_exclusive (d : DAG) (h : gmap loc node.Node)
    (ins : gmap NodeID (list string)) (s : state) :
  reachable d h ins s →
  length (filter in_loop (tasks s)) = (if mu s then 1 else 0)%nat
  ∧ (∀ i j ti tj, tasks s !! i = Some ti → tasks s !! j = Some tj →
       in_loop ti → in_loop tj → i = j).
Proof.
  intros Hr.
  assert (loop_inv s) as Hl.
  { revert Hr. apply (reachable_invariant loop_inv); [done|apply loop_inv_step]. }
  split; [done|]. intros i j ti tj Hi Hj Hti Htj.
  eapply (filter_unique in_loop); try done. rewrite Hl. destruct (mu s); lia.
Qed.

(** X12.  When [Execute] has returned, every task has ended, [sem] is
    empty, [mu] is free and no node is [Running]; and unless the sort has
    failed both channels are closed. *)
Theorem returns_quiescent (d : DAG) (h : gmap loc node.Node)
    (ins : gmap NodeID (list string)) (s : state) (r : ExecReturn) :
  built d → reachable d h ins s → main s = MReturned r →
  Forall (λ t : NodeID * task_pc, t.2 = PDone) (tasks s)
  ∧ sem s = 0%nat ∧ mu s = false
  ∧ (∀ id, nodeStatus (st_dag s) !! id ≠ Some Running)
  ∧ (topo.Sort_fails (graph d) = false →
       closed (GetStatusChan (st_dag s)) = true ∧ closed (GetIOChan (st_dag s)) = true).
Proof.
  intros Hb Hr Hm. destruct (all_inv_reachable d h ins s Hb Hr) as [Hf Hc Hsl _ _ _ _ Hret].
  destruct Hc as [_ Hc]. rewrite Hm in Hc. destruct Hc as [Hdone _].
  assert (loop_inv s) as Hl.
  { revert Hr. apply (reachable_invariant loop_inv); [done|apply loop_inv_step]. }
  split_and!; try done.
  - rewrite (inv_sem s Hsl), all_done_filter.
    + reflexivity.
    + intros id [_ Hne]. by apply Hne.
    + exact Hdone.
  - unfold loop_inv in Hl. rewrite all_done_filter in Hl; [|intros id Hx; exact Hx|done].
    by destruct (mu s).
  - intros id Hid%(inv_run s Hsl). by eapply all_done_no_runner.
  - intros Hs. unfold ret_inv in Hret. rewrite Hm, (frame_graph d s Hf) in Hret.
    destruct Hret as [[? _]|(_ & _ & ? & ?)]; [congruence|done].
Qed.

(** X13.  When [Execute] returns no error, it returns the output table;
    the table has an entry exactly for the nodes whose status is
    [Completed]; every registered node is [Pending] or [Completed]; and
    every entry is one output, which the node object registered for the
    identifier returns for some inputs. *)
Theorem success_outputs (d : DAG) (h : gmap loc node.Node)
    (ins : gmap NodeID (list string)) (s : state) (r : ExecReturn) :
  built d → reachable d h ins s → main s = MReturned r → ret_err r = None →
  ret_outputs r = Some (outputs s)
  ∧ (∀ id, is_Some (outputs s !! id) ↔ nodeStatus (st_dag s) !! id = Some Completed)
  ∧ (∀ id, is_Some (nodes d !! id) →
       nodeStatus (st_dag s) !! id = Some Pending
       ∨ nodeStatus (st_dag s) !! id = Some Completed)
  ∧ (∀ id outs, outputs s !! id = Some outs →
       produced d h id outs ∧ length outs = 1%nat).
Proof.
  intros Hb Hr Hm Hok. pose proof (built_wf d Hb) as Hwf.
  destruct (all_inv_reachable d h ins s Hb Hr) as [Hf Hc Hsl Hst Ho Hd _ _].
  destruct Hc as [Herr Hc]. rewrite Hm in Hc. destruct Hc as [Hdone Hc].
  assert (r = final_return s ∧ execErr s = None) as [-> Hnone].
  { destruct Hc as [(-> & _)|(-> & _)]; [done|]. split; [done|].
    unfold final_return in Hok. by destruct (execErr s). }
  assert (errLog s = []) as Hlog.
  { rewrite Hnone in Herr. symmetry in Herr. by apply last_None in Herr. }
  assert (∀ id st, last (status_history id s) = Some st → st = Completed) as Hlast.
  { intros id st Hl. pose proof (st_table d s Hst id) as Htab. rewrite Hl in Htab.
    apply last_Some_elem_of in Hl. destruct st; try done.
    - apply history_events in Hl as (e & He & _ & Hp). by apply (st_events d s Hst) in He.
    - apply (inv_run s Hsl) in Htab. by eapply all_done_no_runner in Htab.
    - by apply (oc_error s Ho) in Hl. }
  split_and!.
  - unfold final_return. by rewrite Hnone.
  - intros id. rewrite (st_table d s Hst id). split.
    + intros Hne%(oc_started s Ho).
      destruct (last (status_history id s)) as [st|] eqn:Hl.
      * by rewrite (Hlast id st Hl).
      * by apply last_None in Hl.
    + destruct (last (status_history id s)) as [st|] eqn:Hl.
      * intros [= ->]. by apply (oc_completed s Ho), last_Some_elem_of.
      * by intros ?%(wf_status d Hwf).
  - intros id Hreg. rewrite (st_table d s Hst id).
    destruct (last (status_history id s)) as [st|] eqn:Hl.
    + right. by rewrite (Hlast id st Hl).
    + left. by apply (wf_registered d Hwf).
  - intros id outs Hid. destruct (data_outputs d h ins s Hd id outs Hid) as [ni Hcomp].
    split; [by eapply computed_produced|].
    destruct Hcomp as (l & n0 & _ & _ & Hres & -> & _).
    by destruct (Execute_one_output _ Hres) as [o ->].
Qed.

(** X14.  When the sort succeeds, [Execute] returns an error exactly when
    [Error] has been published for some node; it then returns no map, and
    the error is one that [Execute] of a registered node object returned. *)
Theorem failure_error (d : DAG) (h : gmap loc node.Node)
    (ins : gmap NodeID (list string)) (s : state) (r : ExecReturn) :
  built d → reachable d h ins s → main s = MReturned r →
  topo.Sort_fails (graph d) = false →
  (is_Some (ret_err r) ↔ ∃ id, Error ∈ status_history id s)
  ∧ (∀ e, ret_err r = Some e →
       ret_outputs r = None ∧ ret_finalOutputs r = None ∧ ∃ id, raised d h id e).
Proof.
  intros Hb Hr Hm Hs.
  destruct (all_inv_reachable d h ins s Hb Hr) as [Hf Hc _ _ Ho Hd _ Hret].
  destruct Hc as [Herr Hc]. rewrite Hm in Hc. destruct Hc as [Hdone _].
  unfold ret_inv in Hret. rewrite Hm, (frame_graph d s Hf) in Hret.
  destruct Hret as [[? _]|(_ & -> & _ & _)]; [congruence|].
  unfold final_return. rewrite Herr. split.
  - split.
    + intros Hsome. assert (errLog s ≠ []) as Hne.
      { intros Hnil. rewrite Hnil in Hsome. simpl in Hsome. by destruct Hsome. }
      destruct (oc_pending s Ho Hne) as [(i & id & Hi)|?]; [|done].
      eapply Forall_lookup_1 in Hdone; [|exact Hi]. done.
    + intros [id Hid%(oc_error s Ho)].
      destruct (last (errLog s)) as [e|] eqn:Hl; [by eauto|]. by apply last_None in Hl.
  - intros e He. destruct (last (errLog s)) as [e'|] eqn:Hl; simpl in He; [|done].
    injection He as ->. split_and!; try done.
    destruct (data_errors d h ins s Hd e) as [id Hid]; [by apply last_Some_elem_of|].
    exists id. by eapply failed_raised.
Qed.

(** X15.  Every record received from [ioChan] carries one output, which the
    node object registered for the identifier returns for some inputs, and
    inputs that begin with the caller's inputs for the node; it comes after
    [Completed] has been published for the node and after the node has its
    entry in the output table. *)
Theorem io_records_sound (d : DAG) (h : gmap loc node.Node)
    (ins : gmap NodeID (list string)) (s : state) (e : NodeIO) :
  built d → reachable d h ins s → e ∈ received (GetIOChan (st_dag s)) →
  produced d h (io_ID e) (io_Outputs e)
  ∧ default [] (ins !! io_ID e) `prefix_of` io_Inputs e
  ∧ length (io_Outputs e) = 1%nat
  ∧ Completed ∈ status_history (io_ID e) s
  ∧ is_Some (outputs s !! io_ID e).
Proof.
  intros Hb Hr He.
  destruct (all_inv_reachable d h ins s Hb Hr) as [_ _ _ _ Ho Hd Hp _].
  pose proof (data_io d h ins s Hd e He) as Hcomp.
  pose proof (pub_io s Hp e He) as Hpub.
  split_and!; try done.
  - by eapply computed_produced.
  - by destruct Hcomp as (l & n0 & _ & _ & _ & _ & Hpre).
  - destruct Hcomp as (l & n0 & _ & _ & Hres & -> & _).
    by destruct (Execute_one_output _ Hres) as [o ->].
  - by apply (oc_completed s Ho).
Qed.

(** X16.  [Execute] reads the graph, the bindings, the capacity and the
    caller's inputs without ever writing them; a counter never grows; and a
    task exists only for a registered identifier whose counter has reached
    0. *)
Theorem Execute_frame (d : DAG) (h : gmap loc node.Node)
    (ins : gmap NodeID (list string)) (s : state) :
  reachable d h ins s →
  graph (st_dag s) = graph d ∧ nodes (st_dag s) = nodes d
  ∧ nodeMap (st_dag s) = nodeMap d ∧ maxConcurrent (st_dag s) = maxConcurrent d
  ∧ inputs s = ins
  ∧ (∀ id, inDegree_of (st_dag s) id ≤ inDegree_of d id)
  ∧ (∀ id, id ∈ (tasks s).*1 →
       is_Some (nodes d !! id) ∧ inDegree_of (st_dag s) id ≤ 0).
Proof.
  intros Hr. destruct (frame_reachable d h ins s Hr) as [Hg Hn Hm Hc].
  assert (inputs s = ins) as Hin.
  { revert Hr. apply (reachable_invariant (λ s, inputs s = ins)); [done|].
    intros a s1 s2 <- Hstep. by eapply inputs_step. }
  assert (counter_inv d s) as [Hle Htask].
  { revert Hr. apply (reachable_invariant (counter_inv d)); [|apply counter_inv_step].
    split; simpl; [done|]. by intros id ?%not_elem_of_nil. }
  assert (tasks_inv d s) as [Hreg _].
  { revert Hr. apply (reachable_invariant (tasks_inv d)); [|apply tasks_inv_step].
    split; simpl; [|done]. by intros id ?%not_elem_of_nil. }
  split_and!; try done. intros id Hid. split; [|by apply Htask].
  rewrite <- Hn. by apply Hreg.
Qed.

(** X17.  [Execute] creates and drops no node object; an object keeps its
    dynamic type, its name and its function; and an object to which no
    identifier is bound is left exactly as it was. *)
Theorem heap_frame (d : DAG) (h : gmap loc node.Node)
    (ins : gmap NodeID (list string)) (s : state) (l : loc) :
  built d → reachable d h ins s →
  match h !! l, heap s !! l with
  | Some n0, Some n => same_kind n0 n ∧ node.Name n = node.Name n0
  | None, None => True
  | _, _ => False
  end
  ∧ ((∀ id, nodeMap d !! id ≠ Some l) → heap s !! l = h !! l).
Proof.
  intros Hb Hr. destruct (all_inv_reachable d h ins s Hb Hr) as [_ _ _ _ _ Hd _ _].
  split; [|apply (data_unbound d h ins s Hd)].
  pose proof (data_heap d h ins s Hd l) as Hk.
  destruct (h !! l) as [n0|], (heap s !! l) as [n|]; try done. split; [done|].
  destruct n0, n; simpl in *; try done; by destruct Hk.
Qed.

(** X18.  With [maxConcurrent] at 0 or below no task ever gets past
    [sem <- struct{}{}]: nothing is published, no output is written, and
    [Execute] returns only when the sort fails or when no registered
    identifier has a counter of 0; with such an identifier it never
    returns. *)
Theorem zero_capacity_blocks (d : DAG) (h : gmap loc node.Node)
    (ins : gmap NodeID (list string)) (s : state) :
  built d → maxConcurrent d ≤ 0 → reachable d h ins s →
  Forall (λ t : NodeID * task_pc, t.2 = PSpawned) (tasks s)
  ∧ received (GetStatusChan (st_dag s)) = [] ∧ outputs s = ∅
  ∧ (∀ r, main s = MReturned r →
       topo.Sort_fails (graph d) = true
       ∨ ∀ id, is_Some (nodes d !! id) → inDegree_of d id ≠ 0).
Proof.
  intros Hb Hmc Hr. pose proof (built_wf d Hb) as Hwf.
  destruct (idle_inv_reachable d h ins s Hwf Hmc Hr) as [Hts _ _ _ Hrc _ Hout Hpr].
  split_and!; try done.
  - unfold GetStatusChan. by rewrite Hrc, (wf_received d Hwf).
  - intros r Hm. unfold seeding_progress in Hpr. by rewrite Hm in Hpr.
Qed.

(** X19.  [Execute] works once: after a call on a built store that has
    gone past the sort and returned, both channels are closed, and a second
    call on the same store never returns, whatever the node objects and the
    inputs. *)
Theorem Execute_once (d : DAG) (h h2 : gmap loc node.Node)
    (ins ins2 : gmap NodeID (list string)) (s s2 : state) (r : ExecReturn) :
  built d → reachable d h ins s → main s = MReturned r →
  topo.Sort_fails (graph d) = false →
  reachable (st_dag s) h2 ins2 s2 → ∀ r2, main s2 ≠ MReturned r2.
Proof.
  intros Hb Hr Hm Hs Hr2.
  destruct (all_inv_reachable d h ins s Hb Hr) as [Hf _ _ _ _ _ _ Hret].
  unfold ret_inv in Hret. rewrite Hm, (frame_graph d s Hf) in Hret.
  destruct Hret as [[? _]|(_ & _ & Hc & _)]; [congruence|].
  assert (closed_inv s2) as (_ & _ & Hno); [|done].
  revert Hr2. apply (reachable_invariant closed_inv); [|apply closed_inv_step].
  split_and!; simpl; [by left|by rewrite (frame_graph d s Hf)|done].
Qed.

(** X20.  With a negative [maxConcurrent] and a graph that can be sorted,
    [Execute] panics in [make(chan struct{}, dag.maxConcurrent)]: the panic
    is its only step, before any task exists. *)
Theorem negative_capacity_panics (d : DAG) (h : gmap loc node.Node)
    (ins : gmap NodeID (list string)) :
  topo.Sort_fails (graph d) = false → maxConcurrent d < 0 →
  (∃ sorted, step (AMain sorted) (exec_init d h ins)
               = Some (panic "makechan: size out of range" (exec_init d h ins)))
  ∧ (∀ s, reachable d h ins s →
       s = exec_init d h ins
       ∨ s = panic "makechan: size out of range" (exec_init d h ins)).
Proof.
  intros Hs Hmc. split; [|intros s; by apply negative_capacity_states].
  unfold topo.Sort_fails in Hs. apply bool_decide_eq_false in Hs.
  destruct (topo.orders (graph d)) as [|sorted rest] eqn:Ho; [done|].
  exists sorted. unfold step, main_step. simpl.
  unfold topo.Sort_fails. rewrite Ho. simpl.
  rewrite decide_True.
  - by rewrite decide_True.
  - unfold topo.Sort_returns. rewrite Ho. left.
Qed.

(** X21.  The inputs that [execNode] collects for a node depend on the
    order in which the graph delivers the predecessors only up to a
    permutation, and always begin with the caller's inputs for the node. *)
Theorem collect_inputs_order (s : state) (id : NodeID) (X : gset Z) (o1 o2 : list Z) :
  simple.enumerates o1 X → simple.enumerates o2 X →
  collect_inputs s id o1 ≡ₚ collect_inputs s id o2
  ∧ default [] (inputs s !! id) `prefix_of` collect_inputs s id o1.
Proof.
  unfold simple.enumerates. intros H1%permutations_Permutation H2%permutations_Permutation.
  split; [|apply collect_inputs_prefix].
  unfold collect_inputs. f_equiv. assert (o1 ≡ₚ o2) as Hp by (by rewrite <- H1).
  clear H1 H2. induction Hp; simpl.
  - done.
  - by f_equiv.
  - rewrite !app_assoc. f_equiv. apply Permutation_app_comm.
  - by etrans.
Qed.

(** No panic *)

Lemma safe_inv_step a s s' :
  0 ≤ maxConcurrent (st_dag s) →
  (∀ id, id ∈ (tasks s).*1 →
     ∃ l x n, nodeMap (st_dag s) !! id = Some l ∧ nodes (st_dag s) !! id = Some x
            ∧ heap s !! l = Some n) →
  ctl_inv s → safe_inv s → step a s = Some s' → safe_inv s'.
Proof.
  unfold safe_inv. intros Hmc Hobj [_ Hctl] [Hp Hch] Hstep.
  unfold step in Hstep. rewrite Hp in Hstep. destruct a as [sorted|i order].
  - unfold main_step in Hstep. destruct (main s) as [|[|x rest]| |r] eqn:Hm.
    + destruct (topo.Sort_fails _); [by simplify_eq|].
      destruct (decide (topo.Sort_returns _ _)); [|done].
      destruct (decide (maxConcurrent _ < 0)); [lia|]. by simplify_eq.
    + by simplify_eq.
    + by simplify_eq.
    + destruct (decide (Forall _ _)); [|done]. destruct Hch as [Hs Hi].
      unfold close in Hstep. rewrite Hs, Hi in Hstep.
      destruct (execErr s); by simplify_eq.
    + done.
  - unfold task_step in Hstep.
    destruct (tasks s !! i) as [[id pc]|] eqn:Hi; [|done].
    assert (closed (statusChan (st_dag s)) = false ∧ closed (ioChan (st_dag s)) = false
            ∧ ∀ m, main s = m → match m with MReturned _ => False | _ => True end)
      as (Hs & Hio & Hm).
    { destruct (main s) as [| | |r] eqn:Hmain; try (destruct Hch; split_and!; try done;
        by intros ? <-).
      destruct Hctl as [Hdone _]. eapply Forall_lookup_1 in Hdone; [|exact Hi].
      simpl in Hdone. subst pc. done. }
    destruct (Hobj id) as (l & x & n & Hl & Hx & Hn).
    { apply list_elem_of_fmap. exists (id, pc). split; [done|].
      by eapply list_elem_of_lookup_2. }
    assert (∀ s1, panicked s1 = None → main s1 = main s →
              closed (statusChan (st_dag s1)) = false →
              closed (ioChan (st_dag s1)) = false →
              panicked s1 = None
              ∧ match main s1 with
                | MReturned _ => True
                | _ => closed (statusChan (st_dag s1)) = false
                       ∧ closed (ioChan (st_dag s1)) = false
                end) as Hok.
    { intros s1 Hp1 Hm1 Hs1 Hio1. split; [done|]. rewrite Hm1.
      destruct (main s); done. }
    unfold updateNodeStatus, notifyNodeIO, send in Hstep. rewrite ?Hs, ?Hio in Hstep.
    apply Hok; clear Hok.
    all: destruct pc; simpl in Hstep; rewrite ?Hl, ?Hx, ?Hn in Hstep.
    all: repeat match type of Hstep with
         | context [match ?x with _ => _ end] => destruct x eqn:?
         end; simplify_eq; try done.
Qed.

Lemma run_snoc acts a s0 s s' :
  run acts s0 = Some s → step a s = Some s' → run (acts ++ [a]) s0 = Some s'.
Proof.
  revert s0. induction acts as [|a1 acts IH]; intros s0; simpl.
  - intros [= ->] ->. done.
  - destruct (step a1 s0); [|done]. apply IH.
Qed.

(** X29.  On a built store whose node objects are all there, with a
    capacity of 0 or more, [Execute] never panics under any schedule: no
    send on a closed channel, no channel closed twice, no nil node and no
    [make] out of range (processors and clients being functions that
    return). *)
Theorem Execute_no_panic (d : DAG) (h : gmap loc node.Node)
    (ins : gmap NodeID (list string)) (s : state) :
  built d → 0 ≤ maxConcurrent d →
  map_Forall (λ _ l, is_Some (h !! l)) (nodeMap d) →
  reachable d h ins s → panicked s = None.
Proof.
  intros Hb Hmc Hheap Hr. pose proof (built_wf d Hb) as Hwf.
  destruct (built_keys d Hb) as (Hdom & _).
  assert (reachable d h ins s ∧ safe_inv s) as [_ [? _]]; [|done].
  revert Hr.
  apply (reachable_invariant (λ s, reachable d h ins s ∧ safe_inv s)).
  { split; [by exists []|]. split; [done|]. simpl.
    split; [apply (wf_statusChan d Hwf)|apply (wf_ioChan d Hwf)]. }
  intros a s1 s2 [Hr1 Hsafe] Hstep. split.
  { destruct Hr1 as [acts Hr1]. exists (acts ++ [a]). by eapply run_snoc. }
  destruct (all_inv_reachable d h ins s1 Hb Hr1) as [Hf Hc _ _ _ Hd _ _].
  assert (tasks_inv d s1) as [Hreg _].
  { revert Hr1. apply (reachable_invariant (tasks_inv d)); [|apply tasks_inv_step].
    split; simpl; [|done]. by intros id ?%not_elem_of_nil. }
  eapply safe_inv_step; try done.
  - by rewrite (frame_maxConcurrent d s1 Hf).
  - intros id [x Hx]%Hreg. rewrite (frame_nodes d s1 Hf) in Hx.
    assert (is_Some (nodeMap d !! id)) as [l Hl].
    { apply elem_of_dom. rewrite Hdom. apply elem_of_dom. by eauto. }
    destruct (Hheap id l Hl) as [n0 Hn0].
    pose proof (data_heap d h ins s1 Hd l) as Hk. rewrite Hn0 in Hk.
    destruct (heap s1 !! l) as [n|] eqn:Hn; [|done].
    exists l, x, n. rewrite (frame_nodeMap d s1 Hf), (frame_nodes d s1 Hf). done.
Qed.

(** A counter above the number of predecessors *)

Lemma sched_surplus_step a s s' :
  (∀ id1 id2 x, nodes (st_dag s) !! id1 = Some x → nodes (st_dag s) !! id2 = Some x →
     id1 = id2) →
  (∀ id, id ∈ (tasks s).*1 → is_Some (nodes (st_dag s) !! id)) →
  single_inv s → sched_inv s → step a s = Some s' →
  ∀ b y, nodes (st_dag s) !! b = Some y →
    inDegree_of (st_dag s) b - Z.of_nat (size (unreleased s y))
      ≤ inDegree_of (st_dag s') b - Z.of_nat (size (unreleased s' y)).
Proof.
  intros Hinj Hreg Hsi Hsc Hstep b y Hb.
  pose proof (graph_step _ _ _ Hstep) as Hg.
  pose proof (nodes_step _ _ _ Hstep) as Hn.
  assert (unreleased s' y ⊆ unreleased s y) as Hsub.
  { apply unreleased_mono; [done|]. intros p. by eapply released_step. }
  destruct (inDegree_step _ _ _ Hstep)
    as [Hsame|(i & id & z & rest & toID & Hi & Hto & Hdeg & Hi' & Hst)].
  - unfold inDegree_of in *. rewrite Hsame. apply subseteq_size in Hsub. lia.
  - unfold inDegree_of in *. rewrite Hdeg, lookup_insert.
    destruct (decide (toID = b)) as [->|Hne]; simpl;
      [|apply subseteq_size in Hsub; lia].
    apply lookupID_Some in Hto. assert (z = y) as -> by congruence.
    destruct (Hreg id) as [x Hx].
    { apply list_elem_of_fmap. exists (id, PReleasing (y :: rest)).
      split; [done|]. by eapply list_elem_of_lookup_2. }
    destruct (sched_todo s Hsc i id _ x Hi Hx) as [[Hy Hnd']%NoDup_cons Hfrom].
    assert (x ∈ unreleased s y) as Hin.
    { apply elem_of_filter. split.
      - intros (j & id' & pc' & Hj & Hx' & Hp)%released_in_lookup.
        assert (id' = id) as -> by (by eapply Hinj).
        assert (j = i) as ->.
        { eapply NoDup_task_index; [apply Hsi|exact Hj|exact Hi]. }
        simplify_eq. unfold passed in Hp. simpl in Hp. apply Hp. by left.
      - apply elem_of_To, elem_of_From, Hfrom. by left. }
    assert (x ∉ unreleased s' y) as Hout.
    { intros [Hnr _]%elem_of_filter. apply Hnr. apply released_in_lookup.
      exists i, id, (PReleasing rest). rewrite Hn. split_and!; done. }
    assert (unreleased s' y ⊆ unreleased s y ∖ {[x]}) as Hsub'.
    { intros w Hw. apply elem_of_difference. split; [by apply Hsub|].
      intros ->%elem_of_singleton. done. }
    apply subseteq_size in Hsub'.
    assert (size (unreleased s y) = S (size (unreleased s y ∖ {[x]}))) as Hsz.
    { rewrite (union_difference_singleton_L x (unreleased s y) Hin) at 1.
      rewrite size_union, size_singleton; [done|].
      intros w ->%elem_of_singleton [_ Hw]%elem_of_difference.
      apply Hw. by apply elem_of_singleton. }
    lia.
Qed.

Lemma surplus_inv_seeded d h ins s :
  wf d → reachable_seeded d h ins s → surplus_inv d s.
Proof.
  intros Hwf [acts Hrun].
  assert (reachable_seeded d h ins s ∧ surplus_inv d s) as [_ ?]; [|done].
  revert Hrun.
  apply (run_seeded_invariant (λ s, reachable_seeded d h ins s ∧ surplus_inv d s)).
  - intros a s1 s2 [[acts1 Hr1] Hsur] Hq Hstep.
    assert (reachable_seeded d h ins s2) as Hr2.
    { exists (acts1 ++ [a]). clear -Hr1 Hq Hstep. revert Hr1.
      generalize (exec_init d h ins). induction acts1 as [|a1 acts1 IH]; intros s0; simpl.
      - intros [= ->]. by rewrite Hq, Hstep.
      - destruct (seeded_first a1 s0); [|done]. destruct (step a1 s0); [|done]. apply IH. }
    split; [done|].
    destruct (seeded_sched_invariants d h ins s1 Hwf (ex_intro _ acts1 Hr1))
      as (Hf & _ & Hsi & _ & Hsc & Ht).
    intros b y Hb. etrans; [by apply Hsur|].
    eapply sched_surplus_step; try done.
    + intros id1 id2 x. rewrite (frame_nodes d s1 Hf). apply (nodes_inj d Hwf).
    + apply (tasks_registered d s1 Ht).
    + by rewrite (frame_nodes d s1 Hf).
  - split; [by exists []|]. intros b y Hb. simpl.
    assert (unreleased (exec_init d h ins) y ⊆ simple.To (graph d) y) as Hsub.
    { unfold unreleased. simpl. intros p [_ Hp]%elem_of_filter. done. }
    apply subseteq_size in Hsub. lia.
Qed.

(** X26.  When the loop over [sorted] ends before any task moves, a node
    whose counter on entry exceeds the number of its predecessors (an edge
    to it was added twice) is never started: its counter stays above 0, no
    status is published for it, it stays [Pending] and gets no entry in the
    output table. *)
Theorem overcounted_never_runs (d : DAG) (h : gmap loc node.Node)
    (ins : gmap NodeID (list string)) (s : state) (b : NodeID) (y : Z) :
  built d → reachable_seeded d h ins s → nodes d !! b = Some y →
  Z.of_nat (size (simple.To (graph d) y)) < inDegree_of d b →
  (b ∉ (tasks s).*1) ∧ 0 < inDegree_of (st_dag s) b ∧ status_history b s = []
  ∧ nodeStatus (st_dag s) !! b = Some Pending ∧ outputs s !! b = None.
Proof.
  intros Hb Hr Hy Hlt. pose proof (built_wf d Hb) as Hwf.
  pose proof (surplus_inv_seeded d h ins s Hwf Hr b y Hy) as Hsur.
  destruct (seeded_sched_invariants d h ins s Hwf Hr) as (_ & _ & Hsi & Hh & _ & Ht).
  assert (0 < inDegree_of (st_dag s) b) as Hpos by lia.
  assert (b ∉ (tasks s).*1) as Hno.
  { intros Hin%(single_zero s Hsi). lia. }
  assert (status_history b s = []) as Hnil by (by apply (Hh b)).
  split_and!; try done.
  - rewrite (tasks_status d s Ht b Hno). apply (wf_registered d Hwf). by eauto.
  - destruct (all_inv_reachable d h ins s Hb (reachable_seeded_reachable _ _ _ _ Hr))
      as [_ _ _ _ Ho _ _ _].
    destruct (outputs s !! b) as [outs|] eqn:Hout; [|done].
    destruct (oc_started s Ho b); [by eauto|done].
Qed.

(** Records and the output table when the loop over [sorted] ends first *)

Lemma rec_inv_step a s s' :
  NoDup (tasks s).*1 → rec_inv s → step a s = Some s' → rec_inv s'.
Proof.
  intros Hnd [Htask Hio] Hstep. destruct (step_effect a s s' Hstep) as [_ Heff].
  destruct Heff as [(ids & Ht & _ & Ho & _ & _ & Hr)
                   |(i & id & pc & pc' & ids & Hi & Hfl & Ht & Heff)].
  { split.
    - intros j t. rewrite Ht. intros [Hj|[_ Hj]]%lookup_app_Some.
      + specialize (Htask j t Hj). unfold holds_output in *. by rewrite Ho.
      + apply lookup_spawned in Hj. unfold holds_output. by rewrite Hj.
    - intros e. rewrite Hr, Ho, Ht. intros (He & j & pcj & Hj & Hp)%Hio.
      split; [done|]. exists j, pcj. split; [|done]. by apply lookup_app_l_Some. }
  assert (∀ j idj pcj, j ≠ i → tasks s !! j = Some (idj, pcj) → idj ≠ id) as Hother.
  { intros j idj pcj Hne Hj ->. apply Hne. by eapply NoDup_task_index. }
  assert (∀ e, e ∈ received (ioChan (st_dag s)) → ¬ past_record pc → io_ID e ≠ id)
    as Hfresh.
  { intros e (_ & j & pcj & Hj & Hp)%Hio Hnp Heq. rewrite Heq in Hj.
    assert (j = i) as -> by (by eapply NoDup_task_index). by simplify_eq. }
  assert (∀ e, e ∈ received (ioChan (st_dag s)) →
            (past_record pc → past_record pc') →
            ∃ j pcj, tasks s' !! j = Some (io_ID e, pcj) ∧ past_record pcj) as Hwit.
  { intros e (_ & j & pcj & Hj & Hp)%Hio Hpp. rewrite Ht.
    destruct (decide (j = i)) as [->|Hne].
    - simplify_eq. exists i, pc'. split; [|by apply Hpp].
      apply lookup_app_l_Some, list_lookup_insert_eq. by eapply lookup_lt_Some.
    - exists j, pcj. split; [|done]. apply lookup_app_l_Some.
      by rewrite list_lookup_insert_ne. }
  assert ((∀ idj, idj ≠ id → outputs s' !! idj = outputs s !! idj) →
          holds_output s' (id, pc') →
          ∀ j t, tasks s' !! j = Some t → holds_output s' t) as Hgoto.
  { intros Hsame Hnew j t. rewrite Ht. intros Hj.
    destruct (lookup_goto_app _ _ _ _ _ _ _ _ Hi Hj) as [[_ ->]|[[Hne Hj']|Hj']]; [done| |].
    - destruct t as [idj pcj]. specialize (Htask j _ Hj'). unfold holds_output in *.
      simpl in *. rewrite Hsame; [done|]. by eapply Hother.
    - apply elem_of_spawned in Hj' as [Hj' _]. unfold holds_output. by rewrite Hj'. }
  pose proof (Htask i _ Hi) as Hold. unfold holds_output in Hold. simpl in Hold.
  destruct pc as [| | | | |ins outs|ins outs|ins outs| |todo| |];
    simpl in Heff; unfold same_locals in Heff.
  all: try (destruct Heff as (_ & Ho & _ & _ & Hr); split;
            [apply Hgoto; [intros; by rewrite Ho|];
             unfold holds_output; simpl; rewrite ?Ho;
             destruct pc'; simpl in Hfl; try done; by destruct Hfl as [_ <-]
            |intros ev; rewrite Hr, Ho; intros He; split; [by apply Hio|];
             apply Hwit; [done|]; destruct pc'; simpl in *; done]).
  - (* the node is executed *)
    destruct Heff as (l & n & order & _ & _ & _ & Hpc & Ho & _ & _ & Hr). split.
    + apply Hgoto; [intros; by rewrite Ho|]. unfold holds_output. simpl. subst pc'.
      by destruct (node.Execute _).2.
    + intros e. rewrite Hr, Ho. intros He. split; [by apply Hio|].
      apply Hwit; [done|by simpl].
  - (* the output is committed *)
    destruct Heff as (_ & Ho & _ & _ & Hr). split.
    + apply Hgoto; [intros; by rewrite Ho, lookup_insert_ne|].
      unfold holds_output. simpl. rewrite Ho.
      destruct pc'; simpl in Hfl; try done. destruct Hfl as [_ <-].
      by rewrite lookup_insert_eq.
    + intros e. rewrite Hr, Ho. intros He. split; [|apply Hwit; [done|by simpl]].
      rewrite lookup_insert_ne; [by apply Hio|]. intros Heq.
      apply (Hfresh e He); [intros []|done].
  - (* the record is published *)
    destruct Heff as (_ & Ho & _ & _ & Hr). split.
    + apply Hgoto; [intros; by rewrite Ho|]. by destruct pc'.
    + intros e. rewrite Hr, Ho.
      intros [He|He%list_elem_of_singleton]%elem_of_app.
      * split; [by apply Hio|]. apply Hwit; [done|by simpl].
      * subst e. simpl. split; [done|]. exists i, pc'. rewrite Ht.
        split; [|by destruct pc'].
        apply lookup_app_l_Some, list_lookup_insert_eq. by eapply lookup_lt_Some.
  - (* a pass of the successor loop *)
    destruct Heff as (_ & Ho & _ & _ & Hr). split.
    + apply Hgoto; [intros; by rewrite Ho|]. by destruct todo, pc'.
    + intros e. rewrite Hr, Ho. intros He. split; [by apply Hio|].
      apply Hwit; [done|]. by destruct todo, pc'.
Qed.

Lemma run_seeded_snoc acts a s0 s s' :
  run_seeded acts s0 = Some s → seeded_first a s = true → step a s = Some s' →
  run_seeded (acts ++ [a]) s0 = Some s'.
Proof.
  revert s0. induction acts as [|a1 acts IH]; intros s0; simpl.
  - intros [= ->] -> ->. done.
  - destruct (seeded_first a1 s0); [|done]. destruct (step a1 s0); [|done]. apply IH.
Qed.

Lemma rec_inv_seeded d h ins s :
  wf d → received (ioChan d) = [] → reachable_seeded d h ins s → rec_inv s.
Proof.
  intros Hwf Hio [acts Hrun].
  assert (reachable_seeded d h ins s ∧ rec_inv s) as [_ ?]; [|done].
  revert Hrun.
  apply (run_seeded_invariant (λ s, reachable_seeded d h ins s ∧ rec_inv s)).
  - intros a s1 s2 [Hr1 Hrec] Hq Hstep. split.
    + destruct Hr1 as [acts1 Hr1]. exists (acts1 ++ [a]). by eapply run_seeded_snoc.
    + destruct (seeded_invariants d h ins s1 Hwf Hr1) as (_ & [Hnd _ _] & _).
      by eapply rec_inv_step.
  - split; [by exists []|]. split; simpl.
    + intros *. by rewrite lookup_nil.
    + rewrite Hio. by intros e ?%not_elem_of_nil.
Qed.

(** X28.  When the loop over [sorted] ends before any task moves and no
    node object is registered under two identifiers, a record received from
    [ioChan] pairs the inputs handed to [SetInputs] with the output that
    the node's [Execute] computed from exactly them; that output is the
    entry of the node in the output table; and all the records of a node
    carry the same output. *)
Theorem seeded_record_pairing (d : DAG) (h : gmap loc node.Node)
    (ins : gmap NodeID (list string)) (s : state) (e : NodeIO) :
  built d →
  NoDup (map_to_list (nodeMap d)).*2 →
  reachable_seeded d h ins s → e ∈ received (GetIOChan (st_dag s)) →
  computed d h ins (io_ID e) (io_Inputs e) (io_Outputs e)
  ∧ outputs s !! io_ID e = Some (io_Outputs e)
  ∧ ∀ e', e' ∈ received (GetIOChan (st_dag s)) → io_ID e' = io_ID e →
          io_Outputs e' = io_Outputs e.
Proof.
  intros Hb _ Hr He. pose proof (built_wf d Hb) as Hwf.
  destruct (built_keys d Hb) as (_ & _ & _ & _ & Hio).
  destruct (rec_inv_seeded d h ins s Hwf Hio Hr) as [_ Hrec].
  destruct (all_inv_reachable d h ins s Hb (reachable_seeded_reachable _ _ _ _ Hr))
    as [_ _ _ _ _ Hd _ _].
  split_and!.
  - by apply (data_io d h ins s Hd).
  - by apply Hrec.
  - intros e' [He' _]%Hrec Heq. destruct (Hrec e He) as [Hout _].
    rewrite Heq in He'. congruence.
Qed.

(** The store without node *)

(** X27.  On a store without node [Execute] returns, after three steps of
    its own, two empty maps and no error, with both channels closed. *)
Theorem empty_graph_returns (mc : Z) (h : gmap loc node.Node)
    (ins : gmap NodeID (list string)) :
  0 ≤ mc →
  ∃ s, run [AMain []; AMain []; AMain []] (exec_init (NewDAG mc) h ins) = Some s
     ∧ main s = MReturned {| ret_outputs := Some ∅; ret_finalOutputs := Some ∅;
                             ret_err := None |}
     ∧ tasks s = [] ∧ panicked s = None
     ∧ closed (GetStatusChan (st_dag s)) = true ∧ closed (GetIOChan (st_dag s)) = true.
Proof.
  intros Hmc. eexists. split.
  - simpl. unfold step, main_step. simpl.
    assert (topo.Sort_fails simple.NewDirectedGraph = false) as -> by by vm_compute.
    rewrite decide_True by (by vm_compute; left).
    rewrite decide_False by lia. simpl. reflexivity.
  - simpl. split_and!; try done.
Qed.

End exec_laws.

(** ** The scenarios *)

Module scenario_facts.
Import dag scenario graph_facts store_facts exec_facts.

Lemma built_build mc ops : built (build mc ops).
Proof.
  unfold build. generalize (built_new mc). generalize (NewDAG mc).
  induction ops as [|o ops IH]; intros d Hd; simpl; [done|].
  apply IH. destruct o; simpl; by constructor.
Qed.

Lemma two_cycle_cyclic : cyclic (graph two_cycle).
Proof.
  exists 0. eapply tc_l; [|apply tc_once].
  - apply (bool_decide_unpack ((0, 1) ∈ simple.g_edges (graph two_cycle))).
    by vm_compute.
  - apply (bool_decide_unpack ((1, 0) ∈ simple.g_edges (graph two_cycle))).
    by vm_compute.
Qed.


(** C2.  On the cycle of two nodes [Execute] returns the error of the sort
    and both channels are still open. *)
Theorem cycle_return_leaves_channels_open (sorted : list Z) :
  ∃ s, step (AMain sorted) (exec_init two_cycle two_roots_heap ∅) = Some s
     ∧ main s = MReturned cycle_return
     ∧ closed (GetStatusChan (st_dag s)) = false
     ∧ closed (GetIOChan (st_dag s)) = false.
Proof.
  eexists. split; [apply cyclic_returns, two_cycle_cyclic|]. by vm_compute.
Qed.

(** C3.  With the edge from [a] to [b] added twice the counter of [b]
    starts at 2, while the graph has one edge, and stops at 1: [b], a leaf,
    never runs, [Execute] succeeds all the same, and the terminal outputs
    bind [b] to the nil slice while the output table has no entry for it.
    The terminal outputs are not the restriction of the output table to the
    leaves. *)
Lemma unrun_leaf_not_restriction :
  ¬ final_is_restriction edge_twice pair_heap pair_inputs.
Proof.
  intros Hc.
  assert (∃ s, run edge_twice_run (exec_init edge_twice pair_heap pair_inputs) = Some s
            ∧ main s = MReturned
                {| ret_outputs := Some {[ "a" := ["hello world"] ]};
                   ret_finalOutputs := Some {[ "b" := [] ]};
                   ret_err := None |})
    as (s & Hrun & Hm).
  { eexists. split; [vm_compute; reflexivity|]. vm_compute. reflexivity. }
  destruct (Hc s _ _ (ex_intro _ _ Hrun) Hm) as [_ Heq].
  apply (f_equal (λ m : gmap string (list string), m !! "b")) in Heq.
  vm_compute in Heq. discriminate Heq.
Qed.

(** C4.  A task of [b] has called [SetInputs] and [Execute] with the output
    of [a] alone, while [c], a direct predecessor of [b] for which the caller
    gave an input, has not run.  The task of [a] was started twice, once by
    the task of [x] and once by the loop over [sorted], and each of the two
    took one off the counter of [b]. *)
Theorem released_before_predecessor :
  ∃ s, run fan_in_run (exec_init fan_in fan_in_heap fan_in_inputs) = Some s
     ∧ tasks s !! 4%nat
         = Some ("b", PExecuted ["mock response: hello"] ["mock response: hello"])
     ∧ node.inputs <$> heap s !! 2%nat = Some ["mock response: hello"]
     ∧ nodes (st_dag s) !! "b" = Some 2 ∧ nodes (st_dag s) !! "c" = Some 3
     ∧ 3 ∈ simple.To (graph (st_dag s)) 2
     ∧ outputs s !! "c" = None
     ∧ nodeStatus (st_dag s) !! "c" = Some Pending
     ∧ (fst <$> tasks s) = ["x"; "a"; "a"; "c"; "b"].
Proof.
  eexists. split; [vm_compute; reflexivity|].
  split_and!; reflexivity.
Qed.

(** C5.  The node of [a] fails, and [b], a direct successor of [a], is
    started and completes after that: the task of [c], the other predecessor
    of [b], was started twice and took two off the counter of [b]. *)
Theorem successor_of_failed_node_runs :
  ∃ s, run failed_pred_run (exec_init failed_pred failed_pred_heap failed_pred_inputs)
         = Some s
     ∧ nodes (st_dag s) !! "a" = Some 2 ∧ nodes (st_dag s) !! "b" = Some 3
     ∧ 3 ∈ simple.From (graph (st_dag s)) 2
     ∧ received (GetStatusChan (st_dag s))
         = [ {| ns_ID := "x"; ns_Status := Running |};
             {| ns_ID := "x"; ns_Status := Completed |};
             {| ns_ID := "a"; ns_Status := Running |};
             {| ns_ID := "a"; ns_Status := Error |};
             {| ns_ID := "c"; ns_Status := Running |};
             {| ns_ID := "c"; ns_Status := Completed |};
             {| ns_ID := "c"; ns_Status := Running |};
             {| ns_ID := "c"; ns_Status := Completed |};
             {| ns_ID := "b"; ns_Status := Running |};
             {| ns_ID := "b"; ns_Status := Completed |} ]
     ∧ nodeStatus (st_dag s) !! "b" = Some Completed
     ∧ ret_err <$> (match main s with MReturned r => Some r | _ => None end)
         = Some (Some (Errorf "input must be exactly 1, got 0")).
Proof.
  eexists. split; [vm_compute; reflexivity|].
  split_and!; reflexivity.
Qed.

(** C7.  On the chain from [a] to [b] the status of [b] goes to [Running],
    to [Completed], back to [Running] and to [Completed] again: the task of
    [a] has started [b] before the loop over [sorted] reads the counter of
    [b], finds 0 and starts [b] once more. *)
Theorem status_revisits_running :
  ∃ s, run chain_run (exec_init chain pair_heap pair_inputs) = Some s
     ∧ status_history "b" s = [Running; Completed; Running; Completed]
     ∧ (fst <$> tasks s) = ["a"; "b"; "b"]
     ∧ ret_err <$> (match main s with MReturned r => Some r | _ => None end)
         = Some None.
Proof.
  eexists. split; [vm_compute; reflexivity|]. split_and!; reflexivity.
Qed.

(** C10, as it is written, fails: on the one registered node the self-loop
    makes [AddEdge] panic. *)
Lemma self_loop_rejected : ¬ self_loop_accepted one_node "a".
Proof.
  intros Hc. unfold self_loop_accepted in Hc.
  assert (is_Some (nodes one_node !! "a")) as Hreg by (by vm_compute; eexists).
  specialize (Hc Hreg). vm_compute in Hc. discriminate Hc.
Qed.

(** The theorems above at work on the scenarios. *)

Lemma LLMNode_Execute_spec_witness :
  node.Execute (node.NewLLMNode "llmNode" MockLLMClient) =
    (node.NewLLMNode "llmNode" MockLLMClient,
     Some (Errorf "input must be exactly 1, got 0"))
  ∧ node.Execute (node.SetInputs ["hello world"] (node.NewLLMNode "llmNode" MockLLMClient)) =
      (node.LLMNode "llmNode" ["hello world"] ["mock response: hello world"] MockLLMClient,
       None).
Proof.
  split.
  - apply (node_facts.LLMNode_Execute_spec "llmNode" [] [] MockLLMClient). simpl. lia.
  - apply (node_facts.LLMNode_Execute_spec "llmNode" ["hello world"] [] MockLLMClient
             ) with (prompt := "hello world"); reflexivity || discriminate.
Defined.

Lemma AddEdge_spec_witness :
  ∃ x y, nodes (build 2 [OpNode "a" 0%nat; OpNode "b" 1%nat]) !! "a" = Some x
       ∧ nodes (build 2 [OpNode "a" 0%nat; OpNode "b" 1%nat]) !! "b" = Some y
       ∧ simple.g_edges (graph chain) = {[(x, y)]} ∪ ∅
       ∧ inDegree_of chain "b" = 0 + 1.
Proof.
  destruct (AddEdge_spec (build 2 [OpNode "a" 0%nat; OpNode "b" 1%nat]) "a" "b")
    as (_ & _ & Hok).
  destruct (Hok eq_refl) as (x & y & Hx & Hy & He & Hd & _).
  exists x, y. split_and!; [exact Hx|exact Hy|exact He|exact Hd].
Defined.

Lemma running_within_bound_witness :
  ∃ s, run chain_start (exec_init chain pair_heap pair_inputs) = Some s
     ∧ nodeStatus (st_dag s) !! "a" = Some Running
     ∧ Z.of_nat (size (running_ids (st_dag s))) ≤ Z.max 0 2.
Proof.
  eexists. split; [vm_compute; reflexivity|]. split; [reflexivity|].
  eapply proj1, (running_within_bound chain pair_heap pair_inputs).
  - cbv [chain build foldl apply_op].
    apply built_edge, built_node, built_node, built_new.
  - exists chain_start. vm_compute. reflexivity.
Defined.


Lemma terminal_outputs_leaves_witness :
  ∃ s outs fin, run chain_plain_run (exec_init chain pair_heap pair_inputs) = Some s
     ∧ main s = MReturned {| ret_outputs := Some outs; ret_finalOutputs := Some fin;
                             ret_err := None |}
     ∧ dom fin = leaf_ids chain.
Proof.
  eexists. eexists. eexists. split; [vm_compute; reflexivity|]. split; [reflexivity|].
  eapply proj1, (terminal_outputs_leaves chain pair_heap pair_inputs).
  - cbv [chain build foldl apply_op].
    apply built_edge, built_node, built_node, built_new.
  - exists chain_plain_run. vm_compute. reflexivity.
  - reflexivity.
Defined.

Lemma self_loop_panics_cycle_caught_witness :
  AddEdge "a" "a" one_node = (one_node, Panics "simple: adding self edge")
  ∧ step (AMain []) (exec_init two_cycle two_roots_heap ∅)
      = Some (with_main (MReturned cycle_return) (exec_init two_cycle two_roots_heap ∅)).
Proof.
  destruct self_loop_panics_cycle_caught as (Hself & _ & Hcyc & _). split.
  - apply Hself. vm_compute. eexists. reflexivity.
  - apply Hcyc. exists 0. apply (tc_l _ 0 1 0); [reflexivity|].
    apply tc_once. reflexivity.
Defined.

End scenario_facts.

(** ** The properties of every execution at work on the scenarios *)

Module scenario_laws.
Import dag scenario graph_facts store_facts exec_facts seeded_facts scenario_facts.
Import store_laws exec_laws.

Lemma AddNode_rebinds_witness :
  nodes (AddNode "a" 1%nat one_node).1 !! "a" = Some (simple.NewNode (graph one_node))
  ∧ lookupID (AddNode "a" 1%nat one_node).1 0 = None
  ∧ ready_ids (AddNode "a" 1%nat one_node).1 0 = []
  ∧ "a" ∈ leaf_ids (AddNode "a" 1%nat one_node).1.
Proof.
  pose proof (AddNode_rebinds one_node "a" 1%nat 0 (built_build _ _) eq_refl) as H.
  cbv zeta in H. destruct H as (H1 & _ & _ & _ & H2 & H3 & _ & _ & _ & _ & _ & H4).
  split_and!; [exact H1|exact H2|exact H3|exact H4].
Defined.

Lemma built_store_invariant_witness :
  dom (nodeMap chain) = dom (nodes chain) ∧ dom (inDegree chain) = dom (nodes chain)
  ∧ dom (nodeStatus chain) = dom (nodes chain)
  ∧ GetStatusChan chain = {| received := []; closed := false |}.
Proof.
  destruct (built_store_invariant chain (built_build _ _))
    as (H1 & H2 & H3 & _ & _ & _ & _ & _ & H4 & _).
  split_and!; [exact H1|exact H2|exact H3|exact H4].
Defined.

Lemma AddEdge_again_witness :
  (AddEdge "a" "b" chain).2 = Returns None
  ∧ graph (AddEdge "a" "b" chain).1 = graph chain
  ∧ inDegree_of (AddEdge "a" "b" chain).1 "b" = inDegree_of chain "b" + 1.
Proof.
  destruct (AddEdge_again chain "a" "b" 0 1) as (H1 & H2 & H3 & _).
  - apply (built_build 2).
  - discriminate.
  - reflexivity.
  - reflexivity.
  - apply (bool_decide_unpack ((0, 1) ∈ simple.g_edges (graph chain))). vm_compute.
    reflexivity.
  - split_and!; [exact H1|exact H2|exact H3].
Defined.

Lemma lookupID_spec_witness :
  lookupID chain 1 = Some "b" ↔ nodes chain !! "b" = Some 1.
Proof. apply (lookupID_spec chain 1 "b"), (built_build 2). Defined.

Lemma GetLeafNodes_spec_witness :
  NoDup (GetLeafNodes chain)
  ∧ ("b" ∈ GetLeafNodes chain ↔
       ∃ x, nodes chain !! "b" = Some x ∧ ∀ v, (x, v) ∉ simple.g_edges (graph chain)).
Proof.
  destruct (GetLeafNodes_spec chain (built_build _ _)) as [H1 H2].
  split; [exact H1|exact (H2 "b")].
Defined.

Lemma status_table_agrees_witness :
  ∃ s, run chain_start (exec_init chain pair_heap pair_inputs) = Some s
     ∧ nodeStatus (st_dag s) !! "a" =
         match last (status_history "a" s) with
         | Some st => Some st
         | None => nodeStatus chain !! "a"
         end.
Proof.
  eexists. split; [vm_compute; reflexivity|].
  apply (status_table_agrees chain pair_heap pair_inputs).
  - apply (built_build 2).
  - exists chain_start. vm_compute. reflexivity.
Defined.

Lemma first_event_running_witness :
  ∃ s, run chain_plain_run (exec_init chain pair_heap pair_inputs) = Some s
     ∧ (∀ e, e ∈ received (GetStatusChan (st_dag s)) → ns_Status e ≠ Pending)
     ∧ (∀ id st, head (status_history id s) = Some st → st = Running).
Proof.
  eexists. split; [vm_compute; reflexivity|].
  edestruct (first_event_running chain pair_heap pair_inputs) as (H1 & H2 & _).
  - apply (built_build 2).
  - exists chain_plain_run. vm_compute. reflexivity.
  - split; [exact H1|exact H2].
Defined.

Lemma successor_loop_exclusive_witness :
  ∃ s, run chain_plain_run (exec_init chain pair_heap pair_inputs) = Some s
     ∧ length (filter in_loop (tasks s)) = (if mu s then 1 else 0)%nat.
Proof.
  eexists. split; [vm_compute; reflexivity|].
  eapply proj1, (successor_loop_exclusive chain pair_heap pair_inputs).
  exists chain_plain_run. vm_compute. reflexivity.
Defined.

Lemma returns_quiescent_witness :
  ∃ s, run chain_plain_run (exec_init chain pair_heap pair_inputs) = Some s
     ∧ Forall (λ t : NodeID * task_pc, t.2 = PDone) (tasks s)
     ∧ sem s = 0%nat ∧ mu s = false.
Proof.
  eexists. split; [vm_compute; reflexivity|].
  edestruct (returns_quiescent chain pair_heap pair_inputs) as (H1 & H2 & H3 & _).
  - apply (built_build 2).
  - exists chain_plain_run. vm_compute. reflexivity.
  - reflexivity.
  - split_and!; [exact H1|exact H2|exact H3].
Defined.

Lemma success_outputs_witness :
  ∃ s r, run chain_plain_run (exec_init chain pair_heap pair_inputs) = Some s
     ∧ main s = MReturned r
     ∧ ret_outputs r = Some (outputs s)
     ∧ (∀ id, is_Some (outputs s !! id) ↔ nodeStatus (st_dag s) !! id = Some Completed).
Proof.
  eexists. eexists. split; [vm_compute; reflexivity|]. split; [reflexivity|].
  edestruct (success_outputs chain pair_heap pair_inputs) as (H1 & H2 & _).
  - apply (built_build 2).
  - exists chain_plain_run. vm_compute. reflexivity.
  - reflexivity.
  - reflexivity.
  - split; [exact H1|exact H2].
Defined.

Lemma failure_error_witness :
  ∃ s r, run two_roots_run (exec_init two_roots two_roots_heap ∅) = Some s
     ∧ main s = MReturned r
     ∧ (is_Some (ret_err r) ↔ ∃ id, Error ∈ status_history id s).
Proof.
  eexists. eexists. split; [vm_compute; reflexivity|]. split; [reflexivity|].
  eapply proj1, (failure_error two_roots two_roots_heap ∅).
  - apply (built_build 2).
  - exists two_roots_run. vm_compute. reflexivity.
  - reflexivity.
  - vm_compute. reflexivity.
Defined.

Lemma io_records_sound_witness :
  ∃ s, run chain_plain_run (exec_init chain pair_heap pair_inputs) = Some s
     ∧ produced chain pair_heap "a" ["hello world"].
Proof.
  eexists. split; [vm_compute; reflexivity|].
  eapply proj1,
    (io_records_sound chain pair_heap pair_inputs _
       {| io_ID := "a"; io_Inputs := ["hello"; "world"]; io_Outputs := ["hello world"] |}).
  - apply (built_build 2).
  - exists chain_plain_run. vm_compute. reflexivity.
  - vm_compute. left.
Defined.

Lemma Execute_frame_witness :
  ∃ s, run chain_plain_run (exec_init chain pair_heap pair_inputs) = Some s
     ∧ graph (st_dag s) = graph chain ∧ nodes (st_dag s) = nodes chain
     ∧ inputs s = pair_inputs.
Proof.
  eexists. split; [vm_compute; reflexivity|].
  edestruct (Execute_frame chain pair_heap pair_inputs) as (H1 & H2 & _ & _ & H3 & _).
  - exists chain_plain_run. vm_compute. reflexivity.
  - split_and!; [exact H1|exact H2|exact H3].
Defined.

Lemma heap_frame_witness :
  ∃ s, run chain_plain_run (exec_init chain pair_heap pair_inputs) = Some s
     ∧ ((∀ id, nodeMap chain !! id ≠ Some 7%nat) → heap s !! 7%nat = pair_heap !! 7%nat).
Proof.
  eexists. split; [vm_compute; reflexivity|].
  eapply proj2, (heap_frame chain pair_heap pair_inputs).
  - apply (built_build 2).
  - exists chain_plain_run. vm_compute. reflexivity.
Defined.

Lemma zero_capacity_blocks_witness :
  ∃ s, run stalled_run (exec_init stalled pair_heap pair_inputs) = Some s
     ∧ main s = MWaiting
     ∧ Forall (λ t : NodeID * task_pc, t.2 = PSpawned) (tasks s)
     ∧ received (GetStatusChan (st_dag s)) = [].
Proof.
  eexists. split; [vm_compute; reflexivity|]. split; [reflexivity|].
  edestruct (zero_capacity_blocks stalled pair_heap pair_inputs) as (H1 & H2 & _).
  - apply (built_build 0).
  - vm_compute. discriminate.
  - exists stalled_run. vm_compute. reflexivity.
  - split; [exact H1|exact H2].
Defined.

Lemma Execute_once_witness :
  ∃ s s2, run chain_plain_run (exec_init chain pair_heap pair_inputs) = Some s
     ∧ run chain_again_run (exec_init (st_dag s) pair_heap pair_inputs) = Some s2
     ∧ panicked s2 = Some "send on closed channel"
     ∧ ∀ r2, main s2 ≠ MReturned r2.
Proof.
  eexists. eexists. split; [vm_compute; reflexivity|].
  split; [vm_compute; reflexivity|]. split; [reflexivity|].
  eapply (Execute_once chain pair_heap pair_heap pair_inputs pair_inputs).
  - apply (built_build 2).
  - exists chain_plain_run. vm_compute. reflexivity.
  - reflexivity.
  - vm_compute. reflexivity.
  - exists chain_again_run. vm_compute. reflexivity.
Defined.

Lemma negative_capacity_panics_witness :
  ∃ sorted, step (AMain sorted) (exec_init negative pair_heap pair_inputs)
            = Some (panic "makechan: size out of range"
                      (exec_init negative pair_heap pair_inputs)).
Proof.
  eapply proj1, (negative_capacity_panics negative pair_heap pair_inputs).
  - vm_compute. reflexivity.
  - vm_compute. reflexivity.
Defined.

Lemma collect_inputs_order_witness :
  collect_inputs (exec_init chain pair_heap pair_inputs) "a" [0; 1]
    ≡ₚ collect_inputs (exec_init chain pair_heap pair_inputs) "a" [1; 0].
Proof.
  eapply proj1, (collect_inputs_order _ "a" {[0; 1]} [0; 1] [1; 0]).
  - apply (bool_decide_unpack (simple.enumerates [0; 1] {[0; 1]})). vm_compute. reflexivity.
  - apply (bool_decide_unpack (simple.enumerates [1; 0] {[0; 1]})). vm_compute. reflexivity.
Defined.

Lemma seeded_single_dispatch_witness :
  ∃ s, run_seeded chain_plain_run (exec_init chain pair_heap pair_inputs) = Some s
     ∧ NoDup (tasks s).*1.
Proof.
  eexists. split; [vm_compute; reflexivity|].
  apply (seeded_single_dispatch chain pair_heap pair_inputs).
  - apply (built_build 2).
  - exists chain_plain_run. vm_compute. reflexivity.
Defined.

Lemma seeded_status_monotonic_witness :
  ∃ s, run_seeded chain_plain_run (exec_init chain pair_heap pair_inputs) = Some s
     ∧ (status_history "b" s = [] ∨ status_history "b" s = [Running]
        ∨ status_history "b" s = [Running; Completed]
        ∨ status_history "b" s = [Running; Error]).
Proof.
  eexists. split; [vm_compute; reflexivity|].
  apply (seeded_status_monotonic chain pair_heap pair_inputs).
  - apply (built_build 2).
  - exists chain_plain_run. vm_compute. reflexivity.
Defined.

Lemma seeded_failed_blocks_witness :
  ∃ s, run_seeded failing_run (exec_init chain failing_heap ∅) = Some s
     ∧ nodeStatus (st_dag s) !! "a" = Some Error
     ∧ ("b" ∉ (tasks s).*1) ∧ status_history "b" s = []
     ∧ nodeStatus (st_dag s) !! "b" = Some Pending.
Proof.
  eexists. split; [vm_compute; reflexivity|]. split; [reflexivity|].
  apply (seeded_failed_blocks chain failing_heap ∅ _ "a" 0 "b" 1).
  - apply (built_build 2).
  - exists failing_run. vm_compute. reflexivity.
  - reflexivity.
  - reflexivity.
  - apply tc_once.
    apply (bool_decide_unpack ((0, 1) ∈ simple.g_edges (graph chain))). vm_compute.
    reflexivity.
  - reflexivity.
Defined.

Lemma seeded_SetInputs_witness :
  ∃ s s', run_seeded chain_running_run (exec_init chain pair_heap pair_inputs) = Some s
     ∧ step (ATask 1 [0]) s = Some s'
     ∧ simple.enumerates [0] (simple.To (graph chain) 1)
     ∧ (∀ p, p ∈ [0] →
          ∃ pid, nodes chain !! pid = Some p ∧ lookupID (st_dag s) p = Some pid
               ∧ is_Some (outputs s !! pid)).
Proof.
  eexists. eexists. split; [vm_compute; reflexivity|]. split; [vm_compute; reflexivity|].
  split.
  - eapply proj1, (seeded_SetInputs chain pair_heap pair_inputs _ 1%nat "b" [0] _ 1).
    + apply (built_build 2).
    + exists chain_running_run. vm_compute. reflexivity.
    + reflexivity.
    + reflexivity.
    + vm_compute. reflexivity.
    + reflexivity.
  - eapply proj2, proj2, (seeded_SetInputs chain pair_heap pair_inputs _ 1%nat "b" [0] _ 1).
    + apply (built_build 2).
    + exists chain_running_run. vm_compute. reflexivity.
    + reflexivity.
    + reflexivity.
    + vm_compute. reflexivity.
    + reflexivity.
Defined.

Lemma overcounted_never_runs_witness :
  ∃ s, run_seeded edge_twice_run (exec_init edge_twice pair_heap pair_inputs) = Some s
     ∧ ("b" ∉ (tasks s).*1) ∧ 0 < inDegree_of (st_dag s) "b"
     ∧ status_history "b" s = []
     ∧ nodeStatus (st_dag s) !! "b" = Some Pending ∧ outputs s !! "b" = None.
Proof.
  eexists. split; [vm_compute; reflexivity|].
  apply (overcounted_never_runs edge_twice pair_heap pair_inputs _ "b" 1).
  - apply (built_build 2).
  - exists edge_twice_run. vm_compute. reflexivity.
  - reflexivity.
  - vm_compute. reflexivity.
Defined.

Lemma Execute_no_panic_witness :
  ∃ s, run chain_plain_run (exec_init chain pair_heap pair_inputs) = Some s
     ∧ panicked s = None.
Proof.
  eexists. split; [vm_compute; reflexivity|].
  apply (Execute_no_panic chain pair_heap pair_inputs).
  - apply (built_build 2).
  - vm_compute. discriminate.
  - apply (bool_decide_unpack
             (map_Forall (λ _ l, is_Some (pair_heap !! l)) (nodeMap chain))).
    vm_compute. reflexivity.
  - exists chain_plain_run. vm_compute. reflexivity.
Defined.

Lemma seeded_record_pairing_witness :
  ∃ s, run_seeded chain_plain_run (exec_init chain pair_heap pair_inputs) = Some s
     ∧ computed chain pair_heap pair_inputs "a" ["hello"; "world"] ["hello world"]
     ∧ outputs s !! "a" = Some ["hello world"].
Proof.
  eexists. split; [vm_compute; reflexivity|].
  edestruct (seeded_record_pairing chain pair_heap pair_inputs) as (H1 & H2 & _).
  - apply (built_build 2).
  - apply (bool_decide_unpack (NoDup (map_to_list (nodeMap chain)).*2)).
    vm_compute. reflexivity.
  - exists chain_plain_run. vm_compute. reflexivity.
  - vm_compute. left.
  - split; [exact H1|exact H2].
Defined.

Lemma empty_graph_returns_witness :
  ∃ s, run [AMain []; AMain []; AMain []] (exec_init (NewDAG 2) ∅ ∅) = Some s
     ∧ main s = MReturned {| ret_outputs := Some ∅; ret_finalOutputs := Some ∅;
                             ret_err := None |}
     ∧ tasks s = [] ∧ panicked s = None
     ∧ closed (GetStatusChan (st_dag s)) = true ∧ closed (GetIOChan (st_dag s)) = true.
Proof. apply (empty_graph_returns 2 ∅ ∅). lia. Defined.

End scenario_laws.
